(** * RAMCloud: the segmented log and its replication manager

    A shallow embedding of [src/Log.cc] and [src/BackupManager.cc].

    Machine integers are [Z] with the wrap-around of the C++ type written
    out ([wrap32], [wrap64]); pointers are [Z] ([uintptr_t]), a pointer that
    may be [NULL] is an [option].  Objects reached through C++ pointers
    (segments) live in an explicit heap, so that [head] and the two active
    maps alias the same object.  Calls made on collaborators whose code is
    not part of the two files (Segment, LogCleaner, BackupClient, the
    coordinator, the transport manager, the recovery master) are recorded
    in a trace of events. *)

From stdpp Require Import gmap strings list sorting.
From Stdlib Require Import ZArith Lia.

Local Open Scope Z_scope.

(** ** Machine arithmetic *)

Definition wrap32 (z : Z) : Z := z mod 2 ^ 32.
Definition wrap64 (z : Z) : Z := z mod 2 ^ 64.

(** [~(0ul)] *)
Definition UINT64_MAX : Z := 2 ^ 64 - 1.

(** ** Log.cc *)

Module Log.

Abbreviation LogEntryType := Z (only parsing).
Abbreviation Pointer := Z (only parsing).
Abbreviation Buffer := (list Z) (only parsing).
(** A [Segment *]: the index of the object in the heap of segments. *)
Abbreviation SegRef := nat (only parsing).

(** Calls that [Log::append] makes on its collaborators, in order. *)
Inductive Event : Type :=
| SegmentNew (h : SegRef) (logId segmentId : Z) (base : Pointer) (capacity : Z)
| SegmentAppend (h : SegRef) (type : LogEntryType) (length : Z) (p : option Pointer)
| SegmentClose (h : SegRef)
| BackupOpenSegment (masterId segmentId : Z)
| BackupCloseSegment (masterId segmentId : Z)
| BackupFreeSegment (masterId segmentId : Z)
| CleanerClean (n : Z).

(** Modelled from the spec: the entry framing of a Segment.  Segment.cc is
    not among the sources; the spec gives only its contract
    ([append(type, bytes, length)] returns a pointer into the buffer or
    none, [close()] finalises the framing, [appendableBytes()] is the
    largest payload an empty segment takes), so the layout is a parameter. *)
Class SegmentFraming : Type := {
  framing : Type;
  framing_init : Pointer → Z → framing;
  framing_append :
    Pointer → Z → framing → LogEntryType → Buffer → Z → option (Pointer * framing);
  framing_close : framing → framing;
  framing_appendableBytes : Z → framing → Z
}.

Section WithFraming.
Context `{SegmentFraming}.

(** Modelled from the spec: the Segment object.  It is identified by a
    64-bit id, owns a buffer base address and length, and is bound to the
    backup manager of its log or to none. *)
Record Segment : Type := {
  seg_logId : Z;
  seg_id : Z;
  seg_baseAddress : Pointer;
  seg_capacity : Z;
  seg_backup : bool;
  seg_closed : bool;
  seg_framing : framing
}.

Definition getId (s : Segment) : Z := seg_id s.
Definition getBaseAddress (s : Segment) : Pointer := seg_baseAddress s.

(** Modelled from the spec: [Segment(logId, segmentId, buffer, capacity,
    backup?)] constructs a framed segment; if [backup] is provided, the
    segment calls [backup.openSegment]. *)
Definition Segment_new (logId segmentId : Z) (base : Pointer) (capacity : Z)
    (backup : bool) : Segment * list Event :=
  ({| seg_logId := logId; seg_id := segmentId; seg_baseAddress := base;
      seg_capacity := capacity; seg_backup := backup; seg_closed := false;
      seg_framing := framing_init base capacity |},
   if backup then [BackupOpenSegment logId segmentId] else []).

(** Modelled from the spec: [Segment::append] returns a pointer into the
    buffer, or none when the segment cannot fit the entry.  The writes that
    a segment mirrors to its replicas stay inside the framing; the trace
    has the open and the close of a segment only. *)
Definition Segment_append (s : Segment) (type : LogEntryType) (buffer : Buffer)
    (length : Z) : option Pointer * Segment :=
  match framing_append (seg_baseAddress s) (seg_capacity s) (seg_framing s)
          type buffer length with
  | Some (p, f) =>
      (Some p,
       {| seg_logId := seg_logId s; seg_id := seg_id s;
          seg_baseAddress := seg_baseAddress s; seg_capacity := seg_capacity s;
          seg_backup := seg_backup s; seg_closed := seg_closed s;
          seg_framing := f |})
  | None => (None, s)
  end.

(** Modelled from the spec: [Segment::close] finalises the framing and
    triggers the close of the segment on its replicas. *)
Definition Segment_close (s : Segment) : Segment * list Event :=
  ({| seg_logId := seg_logId s; seg_id := seg_id s;
      seg_baseAddress := seg_baseAddress s; seg_capacity := seg_capacity s;
      seg_backup := seg_backup s; seg_closed := true;
      seg_framing := framing_close (seg_framing s) |},
   if seg_backup s then [BackupCloseSegment (seg_logId s) (seg_id s)] else []).

(** Modelled from the spec: [Segment::appendableBytes]. *)
Definition Segment_appendableBytes (s : Segment) : Z :=
  framing_appendableBytes (seg_capacity s) (seg_framing s).

Record LogTypeCallback : Type := {
  cb_type : LogEntryType;
  cb_evictionCB : Z;
  cb_evictionArg : Pointer
}.

Inductive LogException : Type :=
| LogException_at (message : string).

(** The fields of [class Log]; [heap] holds the objects made by
    [new Segment], [backup] tells whether the [BackupManager *] is set. *)
Record state : Type := {
  logId : Z;
  logCapacity : Z;
  segmentCapacity : Z;
  segmentFreeList : list Pointer;
  nextSegmentId : Z;
  maximumAppendableBytes : Z;
  head : option SegRef;
  callbackMap : gmap Z LogTypeCallback;
  activeIdMap : gmap Z SegRef;
  activeBaseAddressMap : gmap Z SegRef;
  backup : bool;
  heap : list Segment
}.

Definition set_segmentFreeList (l : list Pointer) (L : state) : state :=
  {| logId := logId L; logCapacity := logCapacity L;
     segmentCapacity := segmentCapacity L; segmentFreeList := l;
     nextSegmentId := nextSegmentId L;
     maximumAppendableBytes := maximumAppendableBytes L; head := head L;
     callbackMap := callbackMap L; activeIdMap := activeIdMap L;
     activeBaseAddressMap := activeBaseAddressMap L; backup := backup L;
     heap := heap L |}.

Definition set_nextSegmentId (n : Z) (L : state) : state :=
  {| logId := logId L; logCapacity := logCapacity L;
     segmentCapacity := segmentCapacity L;
     segmentFreeList := segmentFreeList L; nextSegmentId := n;
     maximumAppendableBytes := maximumAppendableBytes L; head := head L;
     callbackMap := callbackMap L; activeIdMap := activeIdMap L;
     activeBaseAddressMap := activeBaseAddressMap L; backup := backup L;
     heap := heap L |}.

Definition set_maximumAppendableBytes (n : Z) (L : state) : state :=
  {| logId := logId L; logCapacity := logCapacity L;
     segmentCapacity := segmentCapacity L;
     segmentFreeList := segmentFreeList L; nextSegmentId := nextSegmentId L;
     maximumAppendableBytes := n; head := head L;
     callbackMap := callbackMap L; activeIdMap := activeIdMap L;
     activeBaseAddressMap := activeBaseAddressMap L; backup := backup L;
     heap := heap L |}.

Definition set_head (h : option SegRef) (L : state) : state :=
  {| logId := logId L; logCapacity := logCapacity L;
     segmentCapacity := segmentCapacity L;
     segmentFreeList := segmentFreeList L; nextSegmentId := nextSegmentId L;
     maximumAppendableBytes := maximumAppendableBytes L; head := h;
     callbackMap := callbackMap L; activeIdMap := activeIdMap L;
     activeBaseAddressMap := activeBaseAddressMap L; backup := backup L;
     heap := heap L |}.

Definition set_callbackMap (m : gmap Z LogTypeCallback) (L : state) : state :=
  {| logId := logId L; logCapacity := logCapacity L;
     segmentCapacity := segmentCapacity L;
     segmentFreeList := segmentFreeList L; nextSegmentId := nextSegmentId L;
     maximumAppendableBytes := maximumAppendableBytes L; head := head L;
     callbackMap := m; activeIdMap := activeIdMap L;
     activeBaseAddressMap := activeBaseAddressMap L; backup := backup L;
     heap := heap L |}.

Definition set_activeMaps (ids bases : gmap Z SegRef) (L : state) : state :=
  {| logId := logId L; logCapacity := logCapacity L;
     segmentCapacity := segmentCapacity L;
     segmentFreeList := segmentFreeList L; nextSegmentId := nextSegmentId L;
     maximumAppendableBytes := maximumAppendableBytes L; head := head L;
     callbackMap := callbackMap L; activeIdMap := ids;
     activeBaseAddressMap := bases; backup := backup L;
     heap := heap L |}.

Definition set_heap (hp : list Segment) (L : state) : state :=
  {| logId := logId L; logCapacity := logCapacity L;
     segmentCapacity := segmentCapacity L;
     segmentFreeList := segmentFreeList L; nextSegmentId := nextSegmentId L;
     maximumAppendableBytes := maximumAppendableBytes L; head := head L;
     callbackMap := callbackMap L; activeIdMap := activeIdMap L;
     activeBaseAddressMap := activeBaseAddressMap L; backup := backup L;
     heap := hp |}.

(** LogCleaner.cc is not among the sources and the cleaner is a policy:
    [clean] is a parameter.  It may change the log it points back to and
    call the backup manager. *)
Class LogCleaner : Type := {
  LogCleaner_clean : Z → state → state * list Event
}.

(** [Log::getSegmentBaseAddress] *)
Definition getSegmentBaseAddress (L : state) (p : Pointer) : Pointer :=
  let base := p in
  base - (base mod segmentCapacity L).

(** What a method hands back: an exception or its return value. *)
Inductive result (A : Type) : Type :=
| Throw (e : LogException)
| Return (a : A).
Global Arguments Throw {A} e.
Global Arguments Return {A} a.

(** [Log::isSegmentLive] *)
Definition isSegmentLive (L : state) (segmentId : Z) : bool :=
  bool_decide (is_Some (activeIdMap L !! segmentId)).

(** [Log::getSegmentId]; no value when the map holds a dangling pointer. *)
Definition getSegmentId (L : state) (p : Pointer) : option (result Z) :=
  let base := getSegmentBaseAddress L p in
  match activeBaseAddressMap L !! base with
  | None => Some (Throw (LogException_at "free on invalid pointer"))
  | Some h =>
      match heap L !! h with
      | Some s => Some (Return (getId s))
      | None => None
      end
  end.

(** [Log::addToFreeList] *)
Definition addToFreeList (p : Pointer) (L : state) : state :=
  set_segmentFreeList (segmentFreeList L ++ [p]) L.

(** [Log::getFromFreeList] *)
Definition getFromFreeList (L : state) : option Pointer * state :=
  match last (segmentFreeList L) with
  | None => (None, L)
  | Some p =>
      (Some p,
       set_segmentFreeList
         (take (Nat.pred (length (segmentFreeList L))) (segmentFreeList L)) L)
  end.

(** [Log::allocateSegmentId] *)
Definition allocateSegmentId (L : state) : Z * state :=
  (nextSegmentId L, set_nextSegmentId (wrap64 (nextSegmentId L + 1)) L).

(** [Log::addToActiveMaps], for the segment at [h] *)
Definition addToActiveMaps (h : SegRef) (s : Segment) (L : state) : state :=
  set_activeMaps (<[getId s := h]> (activeIdMap L))
                 (<[getBaseAddress s := h]> (activeBaseAddressMap L)) L.

(** [Log::eraseFromActiveMaps] *)
Definition eraseFromActiveMaps (s : Segment) (L : state) : state :=
  set_activeMaps (delete (getId s) (activeIdMap L))
                 (delete (getBaseAddress s) (activeBaseAddressMap L)) L.

(** [Log::addSegmentMemory] *)
Definition addSegmentMemory (p : Pointer) (L : state) : state :=
  let L1 := addToFreeList p L in
  if maximumAppendableBytes L1 =? 0 then
    let s := fst (Segment_new 0 0 p (segmentCapacity L1) false) in
    set_maximumAppendableBytes (Segment_appendableBytes s) L1
  else L1.

(** [Log::registerType] *)
Definition registerType (type : LogEntryType) (evictionCB : Z)
    (evictionArg : Pointer) (L : state) : result unit * state :=
  match callbackMap L !! type with
  | Some _ => (Throw (LogException_at "type already registered with the Log"), L)
  | None =>
      (Return tt,
       set_callbackMap
         (<[type := {| cb_type := type; cb_evictionCB := evictionCB;
                       cb_evictionArg := evictionArg |}]> (callbackMap L)) L)
  end.

(** The part of the [do ... while (p == NULL)] body that runs
    [if (head != NULL) p = head->append(type, buffer, length);].  There is
    no value when [head] dangles. *)
Definition head_append (type : LogEntryType) (buffer : Buffer) (length : Z)
    (L : state) : option (option Pointer * state * list Event) :=
  match head L with
  | None => Some (None, L, [])
  | Some h =>
      match heap L !! h with
      | None => None
      | Some s =>
          let '(p, s') := Segment_append s type buffer length in
          Some (p, set_heap (<[h := s']> (heap L)) L,
                [SegmentAppend h type length p])
      end
  end.

(** [if (head != NULL) { head->close(); head = NULL; }] *)
Definition close_head (L : state) : option (state * list Event) :=
  match head L with
  | None => Some (L, [])
  | Some h =>
      match heap L !! h with
      | None => None
      | Some s =>
          let '(s', ev) := Segment_close s in
          Some (set_head None (set_heap (<[h := s']> (heap L)) L),
                SegmentClose h :: ev)
      end
  end.

(** [head = new Segment(logId, allocateSegmentId(), s, segmentCapacity,
    backup); addToActiveMaps(head);] *)
Definition new_head (s : Pointer) (L : state) : state * list Event :=
  let '(id, L1) := allocateSegmentId L in
  let '(seg, ev) := Segment_new (logId L1) id s (segmentCapacity L1) (backup L1) in
  let h := length (heap L1) in
  let L2 := set_head (Some h) (set_heap (heap L1 ++ [seg]) L1) in
  (addToActiveMaps h seg L2,
   SegmentNew h (logId L1) id s (segmentCapacity L1) :: ev).

Context `{LogCleaner}.

(** The retry loop of [Log::append]; one unit of fuel per iteration.  [p]
    is [NULL] whenever the body starts, so it is not an argument. *)
Fixpoint append_loop (fuel : nat) (type : LogEntryType) (buffer : Buffer)
    (length : Z) (L : state) : option (option Pointer * state * list Event) :=
  match fuel with
  | O => None
  | S fuel' =>
      match head_append type buffer length L with
      | None => None
      | Some (Some p, L1, ev1) => Some (Some p, L1, ev1)
      | Some (None, L1, ev1) =>
          match close_head L1 with
          | None => None
          | Some (L2, ev2) =>
              match getFromFreeList L2 with
              | (None, L3) => Some (None, L3, ev1 ++ ev2)
              | (Some s, L3) =>
                  let '(L4, ev3) := new_head s L3 in
                  let '(L5, ev4) := LogCleaner_clean 1 L4 in
                  match append_loop fuel' type buffer length L5 with
                  | None => None
                  | Some (p, L', tr) =>
                      Some (p, L', ev1 ++ ev2 ++ ev3 ++ CleanerClean 1 :: ev4 ++ tr)
                  end
              end
          end
      end
  end.

(** [Log::append] *)
Definition append (fuel : nat) (type : LogEntryType) (buffer : Buffer)
    (length : Z) (L : state)
    : option (result (option Pointer) * state * list Event) :=
  if maximumAppendableBytes L <? length then
    Some (Throw (LogException_at "append exceeded maximum possible length"), L, [])
  else
    match append_loop fuel type buffer length L with
    | None => None
    | Some (p, L', tr) => Some (Return p, L', tr)
    end.

(** [Log::getMaximumAppendableBytes] *)
Definition getMaximumAppendableBytes (L : state) : Z :=
  maximumAppendableBytes L.

(** [Log::Log]; [xmemalign i] is the block that the [i]-th call of
    [xmemalign(segmentCapacity, segmentCapacity)] hands out.  The
    constructor divides by [segmentCapacity], so the model is that of
    the code for [segmentCapacity <> 0] only: with [0] the C++ division
    is undefined, while [Z] division gives [0] and hence the exception
    here.  A result [Return L0] is out of reach with [0], and the
    statements about the exception ask for [0 < segmentCapacity]. *)
Definition Log_new (logId logCapacity segmentCapacity : Z) (backup : bool)
    (xmemalign : nat → Pointer) : result state :=
  let L0 :=
    {| logId := logId; logCapacity := logCapacity;
       segmentCapacity := segmentCapacity; segmentFreeList := [];
       nextSegmentId := 0; maximumAppendableBytes := 0; head := None;
       callbackMap := ∅; activeIdMap := ∅; activeBaseAddressMap := ∅;
       backup := backup; heap := [] |} in
  let numSegments := logCapacity / segmentCapacity in
  if numSegments <? 1 then
    Throw (LogException_at "insufficient Log memory for even one segment!")
  else
    Return (foldl (λ L i, addSegmentMemory (xmemalign i) L) L0
                  (seq 0 (Z.to_nat numSegments))).

(** *** Contracts of the collaborators and invariants of the log *)

(** A pointer handed out by [Segment::append] points into the buffer of
    that segment. *)
Definition segment_pointer_contract : Prop :=
  ∀ base capacity f type buffer length p f',
    framing_append base capacity f type buffer length = Some (p, f') →
    base ≤ p < base + capacity.

(** A freshly constructed segment accepts any payload of at most
    [maximumAppendableBytes] bytes. *)
Definition fresh_segment_accepts (L : state) : Prop :=
  ∀ id base type buffer length,
    0 ≤ length ≤ maximumAppendableBytes L →
    is_Some (Segment_append
               (Segment_new (logId L) id base (segmentCapacity L) (backup L)).1
               type buffer length).1.

(** The cleaner compacts closed segments only: it leaves the head
    reference and the head segment alone. *)
Definition cleaner_spares_head : Prop :=
  ∀ n L h s,
    head L = Some h → heap L !! h = Some s →
    head (LogCleaner_clean n L).1 = Some h ∧
    heap (LogCleaner_clean n L).1 !! h = Some s.

(** Buffers are aligned to [segmentCapacity], a power of two, and the
    head is a live segment over such a buffer, indexed by its base. *)
Record log_wf (L : state) : Prop := {
  wf_capacity : ∃ k, 0 ≤ k ∧ segmentCapacity L = 2 ^ k;
  wf_free : ∀ b, b ∈ segmentFreeList L → b mod segmentCapacity L = 0;
  wf_head : ∀ h, head L = Some h →
    ∃ s, heap L !! h = Some s ∧ seg_capacity s = segmentCapacity L ∧
         seg_baseAddress s mod segmentCapacity L = 0 ∧
         activeBaseAddressMap L !! seg_baseAddress s = Some h
}.

Definition cleaner_keeps_wf : Prop :=
  ∀ n L, log_wf L → log_wf (LogCleaner_clean n L).1.

(** [head] is [NULL] or points to a segment object. *)
Definition head_valid (L : state) : Prop :=
  ∀ h, head L = Some h → is_Some (heap L !! h).

(** The fields that [append] itself never writes *)
Definition same_config (L L' : state) : Prop :=
  logId L' = logId L ∧ segmentCapacity L' = segmentCapacity L ∧
  maximumAppendableBytes L' = maximumAppendableBytes L ∧
  backup L' = backup L ∧ callbackMap L' = callbackMap L.

(** The cleaner looks callbacks up; it registers none and drops none. *)
Definition cleaner_keeps_registry : Prop :=
  ∀ n L, callbackMap (LogCleaner_clean n L).1 = callbackMap L.

(** The states a log goes through: calls of [append] and [registerType]
    on a log. *)
Inductive step : state → state → Prop :=
| step_append fuel type buffer length L r L' tr :
    append fuel type buffer length L = Some (r, L', tr) → step L L'
| step_registerType type evictionCB evictionArg L :
    step L (registerType type evictionCB evictionArg L).2.

Definition reachable (L0 : state) : state → Prop := rtc step L0.

(** What may happen to a log between an [append] that returned [NULL]
    and the next one that succeeds: types are registered, appends are
    refused or raise, and segments are retired, their buffers going back
    to the free list. *)
Inductive step_while_full : state → state → Prop :=
| full_registerType type evictionCB evictionArg L :
    step_while_full L (registerType type evictionCB evictionArg L).2
| full_append_refused fuel type buffer length L L' tr :
    append fuel type buffer length L = Some (Return None, L', tr) →
    step_while_full L L'
| full_append_raises fuel type buffer length L e L' tr :
    append fuel type buffer length L = Some (Throw e, L', tr) →
    step_while_full L L'
| full_retire s L :
    step_while_full L (addToFreeList (getBaseAddress s) (eraseFromActiveMaps s L)).

(** *** The rest of the interface *)

(** Modelled from the spec: [Segment::free] bumps a freed-bytes counter
    inside the segment.  The Segment above does not carry this tally;
    the call is recorded instead. *)
Inductive SegmentCall : Type :=
| SegmentFree (h : SegRef) (p : Pointer).

(** [Log::free]; it hands back the call it forwards to.  There is no
    value when the map holds a dangling pointer. *)
Definition free (L : state) (p : Pointer) : option (result SegmentCall) :=
  let base := getSegmentBaseAddress L p in
  match activeBaseAddressMap L !! base with
  | None => Some (Throw (LogException_at "free on invalid pointer"))
  | Some h =>
      match heap L !! h with
      | Some s => Some (Return (SegmentFree h p))
      | None => None
      end
  end.

(** [ActiveIdMap] and [CallbackMap] are [std::map]s: their iterators go
    through the entries by ascending key. *)
Definition key_le {A : Type} (a b : Z * A) : Prop := a.1 ≤ b.1.

Definition key_le_dec {A : Type} (a b : Z * A) : Decision (key_le a b) :=
  Z_le_dec a.1 b.1.

Definition map_entries {A : Type} (m : gmap Z A) : list (Z * A) :=
  @merge_sort _ key_le key_le_dec (map_to_list m).

(** The [while (it != activeIdMap.end() && i < limit)] loop of
    [Log::forEachSegment]; the callback gets the segment and the cookie,
    and what it does to the cookie is its result. *)
Fixpoint forEachSegment_loop {Cookie : Type} (cb : SegRef → Cookie → Cookie)
    (limit i : Z) (it : list (Z * SegRef)) (cookie : Cookie) : Cookie :=
  match it with
  | [] => cookie
  | entry :: it' =>
      if i <? limit then
        forEachSegment_loop cb limit (wrap64 (i + 1)) it' (cb entry.2 cookie)
      else cookie
  end.

(** [Log::forEachSegment] *)
Definition forEachSegment {Cookie : Type} (cb : SegRef → Cookie → Cookie)
    (limit : Z) (cookie : Cookie) (L : state) : Cookie :=
  forEachSegment_loop cb limit 0 (map_entries (activeIdMap L)) cookie.

(** Modelled from the spec: what the destructor does to the memory and
    to the objects it owns.  [std::free] and the destructors of Segment,
    LogTypeCallback and LogCleaner are not among the sources; the calls
    are recorded, next to those that [Segment::close] makes. *)
Inductive DestroyEvent : Type :=
| Closing (e : Event)
| StdFree (p : Pointer)
| DeleteSegment (h : SegRef)
| DeleteCallback (type : LogEntryType)
| DeleteCleaner.

(** The body of the first loop of [Log::~Log], for one entry of the id
    map.  There is no value when the entry is a dangling pointer. *)
Definition delete_entry (L : state) (entry : Z * SegRef)
    : option (list DestroyEvent) :=
  match heap L !! entry.2 with
  | None => None
  | Some s =>
      Some ((if decide (Some entry.2 = head L)
             then Closing <$> (SegmentClose entry.2 :: (Segment_close s).2)
             else []) ++
            [StdFree (getBaseAddress s); DeleteSegment entry.2])
  end.

(** [Log::~Log] *)
Definition Log_delete (L : state) : option (list DestroyEvent) :=
  match mapM (delete_entry L) (map_entries (activeIdMap L)) with
  | None => None
  | Some evs =>
      Some (concat evs ++
            (StdFree <$> segmentFreeList L) ++
            ((λ entry, DeleteCallback entry.1) <$> map_entries (callbackMap L)) ++
            [DeleteCleaner])
  end.

(** The addresses handed to [std::free], in order *)
Definition released (evs : list DestroyEvent) : list Pointer :=
  omap (λ e, match e with StdFree p => Some p | _ => None end) evs.

(** The segments that were closed, in order *)
Definition closed (evs : list DestroyEvent) : list SegRef :=
  omap (λ e, match e with Closing (SegmentClose h) => Some h | _ => None end) evs.

(** *** The pool of buffers *)

(** The buffers the log holds: the free ones and those of live segments *)
Definition pool_buffers (L : state) : gset Z :=
  list_to_set (segmentFreeList L) ∪ dom (activeBaseAddressMap L).

(** The two maps index the same segments, each under its own id and
    base address; the live ids were handed out by [allocateSegmentId];
    no buffer is free twice, or free and in use; the head is a live
    segment. *)
Record pool_inv (L : state) : Prop := {
  pool_ids : ∀ id h, activeIdMap L !! id = Some h →
    ∃ s, heap L !! h = Some s ∧ seg_id s = id ∧
         activeBaseAddressMap L !! seg_baseAddress s = Some h;
  pool_bases : ∀ base h, activeBaseAddressMap L !! base = Some h →
    ∃ s, heap L !! h = Some s ∧ seg_baseAddress s = base ∧
         activeIdMap L !! seg_id s = Some h;
  pool_next : ∀ id h, activeIdMap L !! id = Some h →
    0 ≤ id < nextSegmentId L;
  pool_next_pos : 0 ≤ nextSegmentId L;
  pool_free : NoDup (segmentFreeList L);
  pool_free_unused : ∀ b, b ∈ segmentFreeList L →
    activeBaseAddressMap L !! b = None;
  pool_head : ∀ h, head L = Some h → ∃ id, activeIdMap L !! id = Some h
}.

(** The cleaner retires segments other than the head and returns their
    buffers, and what it relocates it appends again: it keeps the maps
    and the free list consistent, and neither takes buffers away nor
    brings new ones. *)
Definition cleaner_keeps_pool : Prop :=
  ∀ n L, pool_inv L →
    pool_inv (LogCleaner_clean n L).1 ∧
    pool_buffers (LogCleaner_clean n L).1 = pool_buffers L.

(** The 64-bit segment ids have not run out: the last id, [2^64 - 1],
    after which [nextSegmentId] wraps around, is not among those given
    to the new segments of a trace. *)
Definition ids_in_range (tr : list Event) : Prop :=
  Forall (λ e, match e with
               | SegmentNew _ _ segmentId _ _ => segmentId < 2 ^ 64 - 1
               | _ => True
               end) tr.

(** Calls of [append] and [registerType] during which the segment ids
    do not run out *)
Inductive step_in_range : state → state → Prop :=
| step_in_range_append fuel type buffer length L r L' tr :
    append fuel type buffer length L = Some (r, L', tr) →
    ids_in_range tr →
    step_in_range L L'
| step_in_range_registerType type evictionCB evictionArg L :
    step_in_range L (registerType type evictionCB evictionArg L).2.

End WithFraming.

(** *** A reference instance of the collaborators

    Entries are framed with an 8-byte header and the segment keeps 8 bytes
    for its footer; the framing state is the offset of the next entry.
    The cleaner does nothing. *)
Definition bump_append (base : Pointer) (capacity : Z) (tail : Z)
    (type : LogEntryType) (buffer : Buffer) (length : Z)
    : option (Pointer * Z) :=
  if (0 <=? tail) && (0 <=? length) && (tail + 8 + length + 8 <=? capacity)
  then Some (base + tail + 8, tail + 8 + length) else None.

Definition bump_framing : SegmentFraming :=
  {| framing := Z;
     framing_init := λ _ _, 0;
     framing_append := bump_append;
     framing_close := λ tail, tail + 8;
     framing_appendableBytes := λ capacity tail, capacity - tail - 16 |}.

Definition idle_cleaner : @LogCleaner bump_framing :=
  {| LogCleaner_clean := λ _ L, (L, []) |}.

(** A cleaner that relocates live data: right after the first segment
    was made, its eviction callback appends 60000 bytes again, and they
    go to the head. *)
Definition relocating_cleaner : @LogCleaner bump_framing :=
  {| LogCleaner_clean := λ _ L,
       if nextSegmentId L =? 1 then
         match @head_append bump_framing 0 [] 60000 L with
         | Some (Some _, L', ev) => (L', ev)
         | _ => (L, [])
         end
       else (L, []) |}.

(** Two 64 KiB blocks for a log of 128 KiB without backups *)
Definition two_blocks (i : nat) : Z :=
  match i with O => 1048576 | _ => 1114112 end.

Definition two_segment_log : @state bump_framing :=
  {| logId := 1; logCapacity := 131072; segmentCapacity := 65536;
     segmentFreeList := [1048576; 1114112]; nextSegmentId := 0;
     maximumAppendableBytes := 65520; head := None; callbackMap := ∅;
     activeIdMap := ∅; activeBaseAddressMap := ∅; backup := false;
     heap := [] |}.

(** One block for a log of 64 KiB with a backup manager *)
Definition one_segment_log : @state bump_framing :=
  {| logId := 1; logCapacity := 65536; segmentCapacity := 65536;
     segmentFreeList := [1048576]; nextSegmentId := 0;
     maximumAppendableBytes := 65520; head := None; callbackMap := ∅;
     activeIdMap := ∅; activeBaseAddressMap := ∅; backup := true;
     heap := [] |}.

(** The 128 KiB log after three bytes of type 7 were appended *)
Definition after_first_append : @state bump_framing :=
  {| logId := 1; logCapacity := 131072; segmentCapacity := 65536;
     segmentFreeList := [1048576]; nextSegmentId := 1;
     maximumAppendableBytes := 65520; head := Some 0%nat; callbackMap := ∅;
     activeIdMap := {[ 0 := 0%nat ]};
     activeBaseAddressMap := {[ 1114112 := 0%nat ]}; backup := false;
     heap := [ {| seg_logId := 1; seg_id := 0; seg_baseAddress := 1114112;
                  seg_capacity := 65536; seg_backup := false;
                  seg_closed := false;
                  seg_framing := (11 : @framing bump_framing) |} ] |}.

Definition first_append_trace : list Event :=
  [SegmentNew 0 1 0 1114112 65536; CleanerClean 1;
   SegmentAppend 0 7 3 (Some 1114120)].

(** The log above once an entry of 65520 bytes fills its only segment *)
Definition filled_log : @state bump_framing :=
  match @append bump_framing idle_cleaner 2 7 [] 65520 one_segment_log with
  | Some (_, L, _) => L
  | None => one_segment_log
  end.

(** The filled log after it refused one more byte *)
Definition refused_log : @state bump_framing :=
  match @append bump_framing idle_cleaner 1 7 [9] 1 filled_log with
  | Some (_, L, _) => L
  | None => filled_log
  end.

Definition refused_trace : list Event :=
  [SegmentAppend 0 7 1 None; SegmentClose 0; BackupCloseSegment 1 0].

(** The closed segment of the refused log *)
Definition refused_segment : @Segment bump_framing :=
  {| seg_logId := 1; seg_id := 0; seg_baseAddress := 1048576;
     seg_capacity := 65536; seg_backup := true; seg_closed := true;
     seg_framing := (65536 : @framing bump_framing) |}.

(** The refused log once that segment is retired and its buffer is back
    on the free list *)
Definition reclaimed_log : @state bump_framing :=
  addToFreeList (getBaseAddress refused_segment)
    (eraseFromActiveMaps refused_segment refused_log).

(** What the relocating cleaner makes of an append of 10000 bytes to the
    new 128 KiB log *)
Definition relocated_trace : list Event :=
  [SegmentNew 0 1 0 1114112 65536; CleanerClean 1;
   SegmentAppend 0 0 60000 (Some 1114120);
   SegmentAppend 0 7 10000 None; SegmentClose 0;
   SegmentNew 1 1 1 1048576 65536; CleanerClean 1;
   SegmentAppend 1 7 10000 (Some 1048584)].

(** The 128 KiB log after an entry of 65000 bytes and one of 1000 bytes:
    segment 0 is closed and segment 1 is the head *)
Definition nearly_filled_log : @state bump_framing :=
  match @append bump_framing idle_cleaner 2 1 [] 65000 two_segment_log with
  | Some (_, L, _) => L
  | None => two_segment_log
  end.

Definition rolled_log : @state bump_framing :=
  match @append bump_framing idle_cleaner 2 1 [] 1000 nearly_filled_log with
  | Some (_, L, _) => L
  | None => nearly_filled_log
  end.

(** Its closed segment *)
Definition rolled_segment : @Segment bump_framing :=
  {| seg_logId := 1; seg_id := 0; seg_baseAddress := 1114112;
     seg_capacity := 65536; seg_backup := false; seg_closed := true;
     seg_framing := (65016 : @framing bump_framing) |}.

End Log.

(** ** BackupManager.cc *)

Module BackupManager.

Inductive ServerType : Type := MASTER | BACKUP.

Global Instance ServerType_eq_dec : EqDecision ServerType.
Proof. solve_decision. Defined.

(** [ProtoBuf::ServerList::Entry]; [segment_id] is an optional field. *)
Record Entry : Type := {
  service_locator : string;
  server_type : ServerType;
  segment_id : option Z
}.

Abbreviation ServerList := (list Entry) (only parsing).

(** [ServerList::server_size()], an [int] *)
Definition server_size (l : ServerList) : Z := Z.of_nat (length l).

(** The number of entries whose [server_type] is BACKUP *)
Definition backups (l : ServerList) : nat :=
  length (filter (λ entry, server_type entry = BACKUP) l).

(** One round over the host list, as the selection loop makes it when the
    random number does not wrap: step [j] looks at the slot
    [(random + j) % numHosts]. *)
Definition slot (l : ServerList) (random : Z) (j : nat) : nat :=
  Z.to_nat ((random + Z.of_nat j) mod server_size l).

Definition visit (l : ServerList) (random : Z) (j : nat) : option (nat * Entry) :=
  (λ entry, (slot l random j, entry)) <$> l !! slot l random j.

Definition scan_from (l : ServerList) (random : Z) (j : nat) : list (nat * Entry) :=
  omap (visit l random) (seq j (length l - j)).

(** The first [replicas] BACKUP entries of the round, with their slots *)
Definition chosen (l : ServerList) (random replicas : Z) : list (nat * Entry) :=
  take (Z.to_nat replicas)
    (filter (λ ke, server_type ke.2 = BACKUP) (scan_from l random 0)).

Abbreviation Buffer := (list Z) (only parsing).
Abbreviation Tablets := (list (Z * Z * Z)) (only parsing).

(** What [BackupClient::getRecoveryData] does on one backup: it fills the
    response or raises one of the two exceptions that [recover] catches. *)
Inductive RecoveryOutcome : Type :=
| RecoveryData (resp : Buffer)
| TransportException (message : string)
| ClientException (message : string).

(** The process-wide transport manager and the remote ends, which are not
    among the sources, are parameters.  Opening a session and fetching
    recovery data are the two calls whose results the manager looks at;
    [World] is the state of the network. *)
Class Transport : Type := {
  Session : Type;
  getSession : string → Session;
  World : Type;
  getRecoveryData :
    World → string → Z → Z → Tablets → RecoveryOutcome * World
}.

Inductive LogLevel : Type := ERROR | WARNING | DEBUG.

Inductive Arg : Type :=
| ArgNum (n : Z)
| ArgStr (s : string).

Section WithTransport.
Context `{Transport}.

(** A [BackupClient *] made by [new BackupClient(session)] *)
Record BackupClient : Type := { client_session : Session }.

Inductive Event : Type :=
| TestLog (format : string) (args : list Arg)
| LogMessage (level : LogLevel) (format : string) (args : list Arg)
| CoordinatorGetServerList
| TransportGetSession (locator : string)
| ClientOpenSegment (session : Session) (masterId segmentId : Z)
| ClientWriteSegment (session : Session) (masterId segmentId offset : Z)
    (data : Buffer) (len : Z)
| ClientCloseSegment (session : Session) (masterId segmentId : Z)
| ClientFreeSegment (session : Session) (masterId segmentId : Z)
| ClientGetRecoveryData (locator : string) (masterId segmentId : Z)
| RecoverSegment (segmentId : Z) (resp : Buffer).

(** The calls that go over the network. *)
Definition is_network_io (e : Event) : bool :=
  match e with
  | TestLog _ _ | LogMessage _ _ _ | RecoverSegment _ _ => false
  | _ => true
  end.

(** The fields of [class BackupManager]; [coordinator] tells whether the
    [CoordinatorClient *] is set, [segments] is the multimap in its
    iteration order. *)
Record state : Type := {
  coordinator : bool;
  hosts : ServerList;
  openHosts : list BackupClient;
  replicas : Z;
  segments : list (Z * Session)
}.

Definition set_hosts (l : ServerList) (bm : state) : state :=
  {| coordinator := coordinator bm; hosts := l; openHosts := openHosts bm;
     replicas := replicas bm; segments := segments bm |}.

Definition set_openHosts (l : list BackupClient) (bm : state) : state :=
  {| coordinator := coordinator bm; hosts := hosts bm; openHosts := l;
     replicas := replicas bm; segments := segments bm |}.

Definition set_segments (l : list (Z * Session)) (bm : state) : state :=
  {| coordinator := coordinator bm; hosts := hosts bm;
     openHosts := openHosts bm; replicas := replicas bm; segments := l |}.

(** A method either ends in [DIE] or returns; both come with the calls
    made so far. *)
Inductive outcome (A : Type) : Type :=
| Died (message : string) (trace : list Event)
| Returned (a : A) (trace : list Event).
Global Arguments Died {A} message trace.
Global Arguments Returned {A} a trace.

(** What one call of [openSegment] gets from outside: the value of
    [generateRandom()] and the answer of the coordinator, if asked. *)
Record Env : Type := {
  random : Z;
  serverList : ServerList
}.

(** [BackupManager::BackupManager].  [replicas] is a [uint32_t] in the
    code: the values of the model that stand for a manager are those
    with [0 <= replicas < 2^32], which the statements that depend on the
    range ask for. *)
Definition BackupManager_new (coordinator : bool) (replicas : Z) : state :=
  {| coordinator := coordinator; hosts := []; openHosts := [];
     replicas := replicas; segments := [] |}.

(** [std::multimap::insert]: after the entries whose key is not greater. *)
Fixpoint multimap_insert (k : Z) (v : Session) (m : list (Z * Session))
    : list (Z * Session) :=
  match m with
  | [] => [(k, v)]
  | (k', v') :: m' =>
      if k' <=? k then (k', v') :: multimap_insert k v m' else (k, v) :: m
  end.

(** The number of entries of the multimap under a key. *)
Definition multimap_count (k : Z) (m : list (Z * Session)) : nat :=
  length (filter (λ kv, kv.1 = k) m).

(** [BackupManager::closeSegment] *)
Definition closeSegment (masterId segmentId : Z) (bm : state)
    : state * list Event :=
  (set_openHosts [] bm,
   TestLog "%lu, %lu" [ArgNum masterId; ArgNum segmentId] ::
   map (λ host, ClientCloseSegment (client_session host) masterId segmentId)
       (openHosts bm)).

(** [BackupManager::freeSegment] *)
Definition freeSegment (masterId segmentId : Z) (bm : state)
    : state * list Event :=
  let range := filter (λ kv, kv.1 = segmentId) (segments bm) in
  let count := foldl (λ c _, wrap32 (c + 1)) 0 range in
  (set_segments (filter (λ kv, kv.1 ≠ segmentId) (segments bm)) bm,
   TestLog "%lu, %lu" [ArgNum masterId; ArgNum segmentId] ::
   map (λ kv, ClientFreeSegment kv.2 masterId segmentId) range ++
   (if count =? replicas bm then []
    else [LogMessage WARNING "Freed %u segments rather than %u"
            [ArgNum count; ArgNum (replicas bm)]])).

(** [BackupManager::setHostList] *)
Definition setHostList (l : ServerList) (bm : state) : state :=
  set_hosts l bm.

(** [BackupManager::writeSegment] *)
Definition writeSegment (masterId segmentId offset : Z) (data : Buffer)
    (len : Z) (bm : state) : state * list Event :=
  (bm,
   TestLog "%lu, %lu, %u, ..., %u"
     [ArgNum masterId; ArgNum segmentId; ArgNum offset; ArgNum len] ::
   map (λ host, ClientWriteSegment (client_session host) masterId segmentId
                  offset data len)
       (openHosts bm)).

(** [BackupManager::updateHostListFromCoordinator] *)
Definition updateHostListFromCoordinator (env : Env) (bm : state)
    : outcome state :=
  if coordinator bm then
    Returned (set_hosts (serverList env) bm) [CoordinatorGetServerList]
  else
    Died "No coordinator given, replication requirements can't be met." [].

(** The [foreach] of [selectOpenHosts] that counts the BACKUP entries *)
Definition countBackupClients (l : ServerList) : Z :=
  foldl (λ n entry,
           if decide (server_type entry = BACKUP) then wrap32 (n + 1) else n)
        0 l.

(** The [while (i < replicas)] loop of [selectOpenHosts]; one unit of
    fuel per iteration. *)
Fixpoint selectLoop (fuel : nat) (hosts : ServerList) (numHosts replicas : Z)
    (i random : Z) (openHosts : list BackupClient) (tr : list Event)
    : option (list BackupClient * list Event) :=
  match fuel with
  | O => None
  | S fuel' =>
      if i <? replicas then
        let index := wrap32 (random mod numHosts) in
        match hosts !! Z.to_nat index with
        | None => None
        | Some host =>
            if decide (server_type host = BACKUP) then
              let session := getSession (service_locator host) in
              selectLoop fuel' hosts numHosts replicas
                (wrap32 (i + 1)) (wrap64 (random + 1))
                (openHosts ++ [ {| client_session := session |} ])
                (tr ++ [LogMessage DEBUG "Backing up to %s"
                          [ArgStr (service_locator host)];
                        TransportGetSession (service_locator host)])
            else
              selectLoop fuel' hosts numHosts replicas
                i (wrap64 (random + 1)) openHosts tr
        end
      else Some (openHosts, tr)
  end.

(** The client that the loop makes for a chosen entry, and the calls
    it makes for it *)
Definition client_of (ke : nat * Entry) : BackupClient :=
  {| client_session := getSession (service_locator ke.2) |}.

Definition select_events (ke : nat * Entry) : list Event :=
  [LogMessage DEBUG "Backing up to %s" [ArgStr (service_locator ke.2)];
   TransportGetSession (service_locator ke.2)].

(** [BackupManager::selectOpenHosts] *)
Definition selectOpenHosts (fuel : nat) (env : Env) (bm : state)
    : option (outcome state) :=
  if replicas bm =? 0 then Some (Returned bm [])
  else
    match (if server_size (hosts bm) =? 0
           then updateHostListFromCoordinator env bm
           else Returned bm []) with
    | Died message tr => Some (Died message tr)
    | Returned bm1 tr1 =>
        let numHosts := wrap32 (server_size (hosts bm1)) in
        let numBackupClients := countBackupClients (hosts bm1) in
        if numBackupClients <? replicas bm1 then
          Some (Died "Not enough backups to meet replication requirement" tr1)
        else if negb (bool_decide (openHosts bm1 = [])) then
          Some (Died "Cannot select new backups when some are already open" tr1)
        else
          match selectLoop fuel (hosts bm1) numHosts (replicas bm1) 0
                  (random env) (openHosts bm1) tr1 with
          | None => None
          | Some (clients, tr2) => Some (Returned (set_openHosts clients bm1) tr2)
          end
    end.

(** [BackupManager::openSegment] *)
Definition openSegment (fuel : nat) (env : Env) (masterId segmentId : Z)
    (bm : state) : option (outcome state) :=
  let t0 := TestLog "%lu, %lu" [ArgNum masterId; ArgNum segmentId] in
  match selectOpenHosts fuel env bm with
  | None => None
  | Some (Died message tr) => Some (Died message (t0 :: tr))
  | Some (Returned bm1 tr) =>
      Some (Returned
              (set_segments
                 (foldl (λ m host, multimap_insert segmentId (client_session host) m)
                        (segments bm1) (openHosts bm1)) bm1)
              (t0 :: tr ++
               map (λ host, ClientOpenSegment (client_session host)
                              masterId segmentId)
                   (openHosts bm1)))
  end.

(** The two locals of [recover] that live across iterations *)
Record RecoverState : Type := {
  segmentIdToRecover : Z;
  wasRecovered : bool
}.

Definition failed_to_recover (segmentId : Z) : Event :=
  LogMessage ERROR
    "*** Failed to recover segment id %lu, the recovered master state is corrupted, pretending everything is ok"
    [ArgNum segmentId].

(** The body of the [for] loop of [recover], for one entry.  Opening the
    session and [getRecoveryData] sit in one [try] block and are one
    call of the transport here. *)
Definition recover_entry (masterId : Z) (tablets : Tablets)
    (st : RecoverState) (w : World) (server : Entry)
    : RecoverState * World * list Event :=
  let locator := service_locator server in
  match segment_id server with
  | None =>
      (st, w,
       [LogMessage WARNING
          "ServerList of backups for recovery must contain segmentIds" []])
  | Some id =>
      if wasRecovered st && (segmentIdToRecover st =? id) then
        (st, w,
         [TestLog "skipping %s, already recovered %lu"
            [ArgStr locator; ArgNum (segmentIdToRecover st)]])
      else if negb (bool_decide (server_type server = BACKUP)) then
        (st, w,
         [LogMessage WARNING
            "ServerList of backups for recovery shouldn't contain MASTERs" []])
      else
        let ev0 :=
          if wasRecovered st then []
          else [failed_to_recover (segmentIdToRecover st)] in
        let call := ClientGetRecoveryData locator masterId id in
        match getRecoveryData w locator masterId id tablets with
        | (TransportException message, w') =>
            ({| segmentIdToRecover := id; wasRecovered := false |}, w',
             ev0 ++ [call;
               LogMessage WARNING
                 "Couldn't contact %s, trying next backup; failure was: %s"
                 [ArgStr locator; ArgStr message]])
        | (ClientException message, w') =>
            ({| segmentIdToRecover := id; wasRecovered := false |}, w',
             ev0 ++ [call;
               LogMessage WARNING
                 "getRecoveryData failed on %s, trying next backup; failure was: %s"
                 [ArgStr locator; ArgStr message]])
        | (RecoveryData resp, w') =>
            ({| segmentIdToRecover := id; wasRecovered := true |}, w',
             ev0 ++ [call; RecoverSegment id resp])
        end
  end.

(** The [for] loop of [recover] over the entries that are left *)
Fixpoint recover_loop (masterId : Z) (tablets : Tablets) (st : RecoverState)
    (w : World) (backups : ServerList) : RecoverState * World * list Event :=
  match backups with
  | [] => (st, w, [])
  | server :: rest =>
      let '(st1, w1, ev) := recover_entry masterId tablets st w server in
      let '(st2, w2, tr) := recover_loop masterId tablets st1 w1 rest in
      (st2, w2, ev ++ tr)
  end.

Definition recover_init : RecoverState :=
  {| segmentIdToRecover := UINT64_MAX; wasRecovered := true |}.

(** [BackupManager::recover] *)
Definition recover (masterId : Z) (tablets : Tablets) (backups : ServerList)
    (w : World) : World * list Event :=
  let '(st, w', tr) := recover_loop masterId tablets recover_init w backups in
  (w',
   tr ++ (if wasRecovered st then []
          else [failed_to_recover (segmentIdToRecover st)])).

(** *** Reading a trace of [recover] *)

(** The id of the last segment handed to [recoverSegment] *)
Definition last_recovered (tr : list Event) : option Z :=
  last (omap (λ e, match e with
                   | RecoverSegment id _ => Some id
                   | _ => None
                   end) tr).

(** The id of the last segment asked for, and whether it was obtained *)
Definition track_attempt (a : Z * bool) (e : Event) : Z * bool :=
  match e with
  | ClientGetRecoveryData _ _ id => (id, false)
  | RecoverSegment id _ => (id, true)
  | _ => a
  end.

Definition last_attempt (tr : list Event) : Z * bool :=
  foldl track_attempt (UINT64_MAX, true) tr.

(** The entries that were asked for their recovery data *)
Definition fetches (tr : list Event) : list (string * Z) :=
  omap (λ e, match e with
             | ClientGetRecoveryData locator _ id => Some (locator, id)
             | _ => None
             end) tr.

(** *** Running a sequence of calls *)

Inductive Call : Type :=
| CallOpenSegment (env : Env) (masterId segmentId : Z)
| CallCloseSegment (masterId segmentId : Z).

Definition is_close (c : Call) : bool :=
  match c with CallCloseSegment _ _ => true | _ => false end.

(** What a call gets from outside fits the C++ types: the random number
    is a [uint64_t], the size of a server list an [int]. *)
Definition call_in_range (c : Call) : Prop :=
  match c with
  | CallOpenSegment env _ _ =>
      server_size (serverList env) < 2 ^ 31 ∧ 0 ≤ random env < 2 ^ 64
  | CallCloseSegment _ _ => True
  end.

(** The last call of a sequence, if any, is a [closeSegment]. *)
Definition closed_last (calls : list Call) : Prop :=
  match last calls with
  | None => True
  | Some c => is_close c = true
  end.

Definition call (fuel : nat) (c : Call) (bm : state) : option (outcome state) :=
  match c with
  | CallOpenSegment env masterId segmentId =>
      openSegment fuel env masterId segmentId bm
  | CallCloseSegment masterId segmentId =>
      let '(bm', tr) := closeSegment masterId segmentId bm in
      Some (Returned bm' tr)
  end.

(** The calls in order, each with the same fuel; the run ends at the
    first [DIE]. *)
Fixpoint run (fuel : nat) (calls : list Call) (bm : state)
    : option (outcome state) :=
  match calls with
  | [] => Some (Returned bm [])
  | c :: rest =>
      match call fuel c bm with
      | None => None
      | Some (Died message tr) => Some (Died message tr)
      | Some (Returned bm1 tr1) =>
          match run fuel rest bm1 with
          | None => None
          | Some (Died message tr2) => Some (Died message (tr1 ++ tr2))
          | Some (Returned bm2 tr2) => Some (Returned bm2 (tr1 ++ tr2))
          end
      end
  end.

(** *** Reading the traces of the other methods *)

(** What one turn of the selection loop does for a BACKUP entry: the
    calls it makes and the client it appends to [openHosts] *)
Definition backing_up_to (entry : Entry) : list Event :=
  [LogMessage DEBUG "Backing up to %s" [ArgStr (service_locator entry)];
   TransportGetSession (service_locator entry)].

Definition client_to (entry : Entry) : BackupClient :=
  {| client_session := getSession (service_locator entry) |}.

(** The calls made up to the [DIE] or the return *)
Definition trace_of {A} (r : outcome A) : list Event :=
  match r with
  | Died _ tr => tr
  | Returned _ tr => tr
  end.

(** The sessions that got a remote [openSegment], [writeSegment],
    [closeSegment] or [freeSegment], in the order of the calls *)
Definition sessions_opened (tr : list Event) : list Session :=
  omap (λ e, match e with
             | ClientOpenSegment session _ _ => Some session
             | _ => None
             end) tr.

Definition sessions_written (tr : list Event) : list Session :=
  omap (λ e, match e with
             | ClientWriteSegment session _ _ _ _ _ => Some session
             | _ => None
             end) tr.

Definition sessions_closed (tr : list Event) : list Session :=
  omap (λ e, match e with
             | ClientCloseSegment session _ _ => Some session
             | _ => None
             end) tr.

Definition sessions_freed (tr : list Event) : list Session :=
  omap (λ e, match e with
             | ClientFreeSegment session _ _ => Some session
             | _ => None
             end) tr.

Definition is_warning (e : Event) : bool :=
  match e with LogMessage WARNING _ _ => true | _ => false end.

Definition is_error (e : Event) : bool :=
  match e with LogMessage ERROR _ _ => true | _ => false end.

(** The ids handed to [recoverSegment], in order *)
Definition recovered (tr : list Event) : list Z :=
  omap (λ e, match e with
             | RecoverSegment id _ => Some id
             | _ => None
             end) tr.

(** The master ids that [getRecoveryData] was called with *)
Definition fetched_for (tr : list Event) : list Z :=
  omap (λ e, match e with
             | ClientGetRecoveryData _ masterId _ => Some masterId
             | _ => None
             end) tr.

End WithTransport.

(** The entries of a recovery list that name a segment on a BACKUP *)
Definition eligible (backups : ServerList) : list (string * Z) :=
  omap (λ server,
          if decide (server_type server = BACKUP)
          then (λ id, (service_locator server, id)) <$> segment_id server
          else None) backups.

(** No id comes twice in a row. *)
Definition no_repeat_in_a_row (ids : list Z) : Prop :=
  ∀ i x y, ids !! i = Some x → ids !! S i = Some y → x ≠ y.

(** *** A reference transport

    A session is named by its locator; the network answers the calls of
    [getRecoveryData] from a script and is down when the script is over. *)
Definition scripted_transport : Transport :=
  {| Session := string;
     getSession := λ locator, locator;
     World := list RecoveryOutcome;
     getRecoveryData := λ w _ _ _ _,
       match w with
       | [] => (TransportException "down", [])
       | o :: w' => (o, w')
       end |}.

(** A network on which every backup delivers; the data of a segment is
    its id. *)
Definition reliable_transport : Transport :=
  {| Session := string;
     getSession := λ locator, locator;
     World := unit;
     getRecoveryData := λ w _ _ segmentId _, (RecoveryData [segmentId], w) |}.

Definition backup_at (locator : string) : Entry :=
  {| service_locator := locator; server_type := BACKUP; segment_id := None |}.

Definition master_at (locator : string) : Entry :=
  {| service_locator := locator; server_type := MASTER; segment_id := None |}.

(** Three backups and two masters *)
Definition five_hosts : ServerList :=
  [master_at "m1"; backup_at "b1"; backup_at "b2"; master_at "m2"; backup_at "b3"].

Definition three_backups : ServerList :=
  [backup_at "b1"; backup_at "b2"; backup_at "b3"].

Definition draw (random : Z) : Env := {| random := random; serverList := [] |}.

(** A manager with one replica that has opened and closed segment 42 on
    the only backup it knows *)
Definition once_closed : @state scripted_transport :=
  {| coordinator := false; hosts := [backup_at "b1"]; openHosts := [];
     replicas := 1; segments := [(42, ("b1" : @Session scripted_transport))] |}.

Definition once_closed_trace : list (@Event scripted_transport) :=
  [TestLog "%lu, %lu" [ArgNum 5; ArgNum 42];
   LogMessage DEBUG "Backing up to %s" [ArgStr "b1"];
   TransportGetSession "b1";
   @ClientOpenSegment scripted_transport "b1" 5 42;
   TestLog "%lu, %lu" [ArgNum 5; ArgNum 42];
   @ClientCloseSegment scripted_transport "b1" 5 42].

(** An entry of a recovery list: a backup that holds a segment *)
Definition backup_for (locator : string) (segmentId : Z) : Entry :=
  {| service_locator := locator; server_type := BACKUP;
     segment_id := Some segmentId |}.

End BackupManager.

(** * Properties of the log *)

Module LogFacts.
Import Log.

Section Facts.
Context `{F : SegmentFraming} `{C : !LogCleaner}.

Lemma round_down_to_base (capacity base p : Z) :
  0 < capacity → base mod capacity = 0 → base ≤ p < base + capacity →
  p - p mod capacity = base.
Proof.
  intros Hc Hb Hp.
  assert (Hr : p - base = p mod capacity).
  { apply (Z.mod_unique p capacity (base / capacity)); [lia|].
    pose proof (Z.div_mod base capacity ltac:(lia)) as E.
    rewrite Hb in E. lia. }
  lia.
Qed.

(** With a power of two as [segmentCapacity], rounding down with [%] is
    masking off the low bits. *)
Lemma getSegmentBaseAddress_mask (L : state) (p k : Z) :
  0 ≤ k → segmentCapacity L = 2 ^ k →
  getSegmentBaseAddress L p = Z.land p (Z.lnot (segmentCapacity L - 1)).
Proof.
  intros Hk Hc. unfold getSegmentBaseAddress. rewrite Hc, <- Z.ldiff_land.
  replace (2 ^ k - 1) with (Z.ones k) by (rewrite Z.ones_equiv; lia).
  rewrite Z.ldiff_ones_r by done.
  rewrite Z.shiftl_mul_pow2, Z.shiftr_div_pow2 by done.
  pose proof (Z.div_mod p (2 ^ k) ltac:(lia)). lia.
Qed.

Lemma Segment_append_fields (s s' : Segment) type buffer length r :
  Segment_append s type buffer length = (r, s') →
  seg_logId s' = seg_logId s ∧ seg_id s' = seg_id s ∧
  seg_baseAddress s' = seg_baseAddress s ∧ seg_capacity s' = seg_capacity s ∧
  seg_backup s' = seg_backup s ∧ seg_closed s' = seg_closed s.
Proof.
  unfold Segment_append.
  destruct (framing_append _ _ _ _ _ _) as [[p f]|];
    intros [= <- <-]; simpl; done.
Qed.

Lemma Segment_append_in_buffer (s s' : Segment) type buffer length p :
  segment_pointer_contract →
  Segment_append s type buffer length = (Some p, s') →
  seg_baseAddress s ≤ p < seg_baseAddress s + seg_capacity s.
Proof.
  intros Hc. unfold Segment_append.
  destruct (framing_append _ _ _ _ _ _) as [[q f]|] eqn:E; [|done].
  intros [= <- <-]. by eapply Hc.
Qed.

Lemma head_append_inv type buffer length (L L1 : state) r ev :
  head_append type buffer length L = Some (r, L1, ev) →
  (head L = None ∧ r = None ∧ L1 = L ∧ ev = []) ∨
  (∃ h s s', head L = Some h ∧ heap L !! h = Some s ∧
             Segment_append s type buffer length = (r, s') ∧
             L1 = set_heap (<[h := s']> (heap L)) L ∧
             ev = [SegmentAppend h type length r]).
Proof.
  unfold head_append. destruct (head L) as [h|] eqn:Hh.
  - destruct (heap L !! h) as [s|] eqn:Hs; [|done].
    destruct (Segment_append s type buffer length) as [q s'] eqn:Ea.
    intros [= <- <- <-]. right. by exists h, s, s'.
  - intros [= <- <- <-]. by left.
Qed.

Lemma close_head_inv (L L2 : state) ev :
  close_head L = Some (L2, ev) →
  (head L = None ∧ L2 = L ∧ ev = []) ∨
  (∃ h s, head L = Some h ∧ heap L !! h = Some s ∧
          L2 = set_head None (set_heap (<[h := (Segment_close s).1]> (heap L)) L) ∧
          ev = SegmentClose h :: (Segment_close s).2).
Proof.
  unfold close_head. destruct (head L) as [h|] eqn:Hh.
  - destruct (heap L !! h) as [s|] eqn:Hs; [|done].
    destruct (Segment_close s) as [s' e] eqn:Ec.
    intros [= <- <-]. right. exists h, s. by rewrite Ec.
  - intros [= <- <-]. by left.
Qed.

Lemma close_head_head (L L2 : state) ev :
  close_head L = Some (L2, ev) → head L2 = None.
Proof.
  intros Hc. apply close_head_inv in Hc
    as [(Hh & -> & _)|(h & s & _ & _ & -> & _)]; done.
Qed.

Lemma getFromFreeList_head (L L3 : state) r :
  getFromFreeList L = (r, L3) → head L3 = head L.
Proof.
  unfold getFromFreeList. destruct (last (segmentFreeList L));
    intros [= <- <-]; done.
Qed.

Lemma getFromFreeList_None (L L3 : state) :
  getFromFreeList L = (None, L3) ↔ segmentFreeList L = [] ∧ L3 = L.
Proof.
  unfold getFromFreeList. split.
  - destruct (last (segmentFreeList L)) eqn:El; [done|].
    intros [= <-]. by apply last_None in El.
  - intros [E ->]. by rewrite E.
Qed.

Lemma new_head_head (s : Pointer) (L L4 : state) ev :
  new_head s L = (L4, ev) →
  head L4 = Some (length (heap L)) ∧
  heap L4 = heap L ++
    [(Segment_new (logId L) (nextSegmentId L) s (segmentCapacity L) (backup L)).1] ∧
  ev = SegmentNew (length (heap L)) (logId L) (nextSegmentId L) s (segmentCapacity L)
       :: (Segment_new (logId L) (nextSegmentId L) s (segmentCapacity L) (backup L)).2.
Proof. unfold new_head. simpl. intros [= <- <-]. done. Qed.

(** *** The alignment invariant along [append] *)

Lemma wf_update_segment (L : state) h (s s' : Segment) :
  log_wf L → heap L !! h = Some s →
  seg_baseAddress s' = seg_baseAddress s → seg_capacity s' = seg_capacity s →
  log_wf (set_heap (<[h := s']> (heap L)) L).
Proof.
  intros [Hc Hf Hh] Hs Eb Ec. split; simpl; [done..|].
  intros h0 Hh0. destruct (Hh h0 Hh0) as (s0 & Hs0 & Hc0 & Ha0 & Hi0).
  destruct (decide (h0 = h)) as [->|Hne].
  - exists s'. rewrite list_lookup_insert_eq by (by eapply lookup_lt_Some).
    assert (s0 = s) as -> by congruence. rewrite Eb, Ec. done.
  - exists s0. by rewrite list_lookup_insert_ne.
Qed.

Lemma wf_head_append type buffer length (L L1 : state) r ev :
  log_wf L → head_append type buffer length L = Some (r, L1, ev) → log_wf L1.
Proof.
  intros Hwf Ha. apply head_append_inv in Ha
    as [(_ & _ & -> & _)|(h & s & s' & _ & Hs & Ea & -> & _)]; [done|].
  apply Segment_append_fields in Ea as (_ & _ & Eb & Ec & _).
  by eapply wf_update_segment.
Qed.

Lemma wf_close_head (L L2 : state) ev :
  log_wf L → close_head L = Some (L2, ev) → log_wf L2.
Proof.
  intros Hwf Hc. apply close_head_inv in Hc
    as [(_ & -> & _)|(h & s & _ & _ & -> & _)]; [done|].
  destruct Hwf as [Hc Hf Hh]. split; simpl; done.
Qed.

Lemma getFromFreeList_Some (L L3 : state) (b : Pointer) :
  getFromFreeList L = (Some b, L3) →
  segmentFreeList L = segmentFreeList L3 ++ [b] ∧
  L3 = set_segmentFreeList (segmentFreeList L3) L.
Proof.
  unfold getFromFreeList.
  destruct (segmentFreeList L) as [|x l] eqn:El using rev_ind; [done|].
  rewrite last_snoc. intros [= <- <-]. simpl.
  rewrite length_app. simpl.
  replace (Nat.pred (length l + 1))%nat with (length l) by lia.
  by rewrite take_app_length.
Qed.

Lemma wf_getFromFreeList (L L3 : state) (b : Pointer) :
  log_wf L → getFromFreeList L = (Some b, L3) →
  log_wf L3 ∧ b mod segmentCapacity L3 = 0.
Proof.
  intros [Hc Hf Hh] Hg.
  apply getFromFreeList_Some in Hg as [El ->]. simpl in *.
  split; [split; simpl; [done| |done]|].
  - intros x Hx. apply Hf. rewrite El. apply elem_of_app. by left.
  - apply Hf. rewrite El. apply elem_of_app. right. by apply list_elem_of_singleton.
Qed.

Lemma wf_new_head (b : Pointer) (L L4 : state) ev :
  log_wf L → b mod segmentCapacity L = 0 → new_head b L = (L4, ev) → log_wf L4.
Proof.
  intros [Hc Hf Hh] Hb. unfold new_head. simpl. intros [= <- <-].
  split; simpl; [done..|].
  intros h [= <-]. eexists. split.
  { rewrite lookup_app_r by done. by rewrite Nat.sub_diag. }
  simpl. split_and!; [done..|]. unfold getBaseAddress. simpl.
  apply lookup_insert_eq.
Qed.

Lemma append_loop_pointer fuel type buffer length (L L' : state) p tr :
  segment_pointer_contract → cleaner_keeps_wf →
  log_wf L →
  append_loop fuel type buffer length L = Some (Some p, L', tr) →
  log_wf L' ∧
  ∃ h s, head L' = Some h ∧ heap L' !! h = Some s ∧
         last tr = Some (SegmentAppend h type length (Some p)) ∧
         seg_baseAddress s ≤ p < seg_baseAddress s + seg_capacity s.
Proof.
  intros Hptr Hclean. revert L tr.
  induction fuel as [|fuel IH]; intros L tr Hwf; [done|]. cbn [append_loop].
  destruct (head_append type buffer length L) as [[[r L1] ev1]|] eqn:Ea; [|done].
  pose proof (wf_head_append _ _ _ _ _ _ _ Hwf Ea) as Hwf1.
  destruct r as [q|].
  - intros [= -> -> ->]. split; [done|].
    apply head_append_inv in Ea
      as [(_ & [=] & _)|(h & s & s' & Hh & Hs & Eapp & -> & ->)].
    pose proof (Segment_append_in_buffer _ _ _ _ _ _ Hptr Eapp) as Hin.
    apply Segment_append_fields in Eapp as (_ & _ & Eb & Ecap & _).
    exists h, s'. simpl. rewrite Eb, Ecap.
    split; [done|]. split; [|done].
    apply list_lookup_insert_eq. by eapply lookup_lt_Some.
  - destruct (close_head L1) as [[L2 ev2]|] eqn:Ec; [|done].
    pose proof (wf_close_head _ _ _ Hwf1 Ec) as Hwf2.
    destruct (getFromFreeList L2) as [[b|] L3] eqn:Eg; [|done].
    destruct (wf_getFromFreeList _ _ _ Hwf2 Eg) as [Hwf3 Hb].
    destruct (new_head b L3) as [L4 ev3] eqn:En.
    pose proof (wf_new_head _ _ _ _ Hwf3 Hb En) as Hwf4.
    destruct (LogCleaner_clean 1 L4) as [L5 ev4] eqn:Ek.
    assert (Hwf5 : log_wf L5).
    { specialize (Hclean 1 L4 Hwf4). by rewrite Ek in Hclean. }
    destruct (append_loop fuel type buffer length L5) as [[[r L6] tr6]|] eqn:El;
      [|done].
    intros [= -> -> <-].
    destruct (IH _ _ Hwf5 El) as (Hwf6 & h & s & Hh & Hs & Hlast & Hin).
    split; [done|]. exists h, s. do 2 (split; [done|]). split; [|done].
    replace (ev1 ++ ev2 ++ ev3 ++ CleanerClean 1 :: ev4 ++ tr6)
      with ((ev1 ++ ev2 ++ ev3 ++ CleanerClean 1 :: ev4) ++ tr6)
      by (by rewrite <- !app_assoc).
    by rewrite last_app, Hlast.
Qed.

Lemma append_loop_wf fuel type buffer length (L L' : state) r tr :
  cleaner_keeps_wf → log_wf L →
  append_loop fuel type buffer length L = Some (r, L', tr) → log_wf L'.
Proof.
  intros Hclean. revert L tr.
  induction fuel as [|fuel IH]; intros L tr Hwf; [done|]. cbn [append_loop].
  destruct (head_append type buffer length L) as [[[q L1] ev1]|] eqn:Ea; [|done].
  pose proof (wf_head_append _ _ _ _ _ _ _ Hwf Ea) as Hwf1.
  destruct q as [q|]; [by intros [= _ <- _]|].
  destruct (close_head L1) as [[L2 ev2]|] eqn:Ec; [|done].
  pose proof (wf_close_head _ _ _ Hwf1 Ec) as Hwf2.
  destruct (getFromFreeList L2) as [[b|] L3] eqn:Eg.
  - destruct (wf_getFromFreeList _ _ _ Hwf2 Eg) as [Hwf3 Hb].
    destruct (new_head b L3) as [L4 ev3] eqn:En.
    pose proof (wf_new_head _ _ _ _ Hwf3 Hb En) as Hwf4.
    destruct (LogCleaner_clean 1 L4) as [L5 ev4] eqn:Ek.
    assert (Hwf5 : log_wf L5).
    { specialize (Hclean 1 L4 Hwf4). by rewrite Ek in Hclean. }
    destruct (append_loop fuel type buffer length L5) as [[[r6 L6] tr6]|] eqn:El;
      [|done].
    intros [= <- <- _]. by eapply IH.
  - apply getFromFreeList_None in Eg as [_ ->]. by intros [= _ <- _].
Qed.

Lemma wf_addSegmentMemory (b : Pointer) (L : state) :
  log_wf L → b mod segmentCapacity L = 0 → log_wf (addSegmentMemory b L).
Proof.
  intros [Hc Hf Hh] Hb.
  assert (Hwf : log_wf (addToFreeList b L)).
  { split; simpl; [done| |done].
    intros x [Hx|Hx%list_elem_of_singleton]%elem_of_app; [by apply Hf|by subst]. }
  unfold addSegmentMemory.
  destruct (maximumAppendableBytes (addToFreeList b L) =? 0); [|done].
  destruct Hwf as [Hc' Hf' Hh']. split; simpl in *; done.
Qed.

Lemma wf_Log_new logId logCapacity capacity backup xmemalign (L0 : state) :
  (∃ k, 0 ≤ k ∧ capacity = 2 ^ k) →
  (∀ i, xmemalign i mod capacity = 0) →
  Log_new logId logCapacity capacity backup xmemalign = Return L0 →
  log_wf L0.
Proof.
  intros Hpow Hal. unfold Log_new.
  destruct (logCapacity / capacity <? 1); [done|]. intros [= <-].
  generalize (seq 0 (Z.to_nat (logCapacity / capacity))). intros l.
  match goal with |- log_wf (foldl _ ?L l) =>
    assert (Hwf : log_wf L ∧ segmentCapacity L = capacity); [|revert Hwf; generalize L]
  end.
  { split; [|done]. split; simpl; [done| |done]. intros b Hb. by apply elem_of_nil in Hb. }
  induction l as [|i l IH]; intros L [Hwf Hc]; simpl; [done|].
  apply IH. split.
  - apply wf_addSegmentMemory; [done|]. rewrite Hc. apply Hal.
  - unfold addSegmentMemory.
    by destruct (maximumAppendableBytes (addToFreeList (xmemalign i) L) =? 0).
Qed.

Lemma wf_step (L L' : state) :
  cleaner_keeps_wf → log_wf L → step L L' → log_wf L'.
Proof.
  intros Hclean Hwf Hs. destruct Hs as [fuel type buffer length L r L' tr Ha|t cb arg L].
  - unfold append in Ha. destruct (maximumAppendableBytes L <? length).
    + by injection Ha as _ <- _.
    + destruct (append_loop fuel type buffer length L) as [[[q L1] tr1]|] eqn:El;
        [|done].
      injection Ha as _ <- _. by eapply append_loop_wf.
  - unfold registerType. destruct (callbackMap L !! t); [done|].
    destruct Hwf as [Hc Hf Hh]. split; simpl; done.
Qed.

Lemma wf_reachable (L0 L : state) :
  cleaner_keeps_wf → log_wf L0 → reachable L0 L → log_wf L.
Proof.
  intros Hclean Hwf0 Hr. induction Hr as [|L1 L2 L3 Hs _ IH]; [done|].
  apply IH. by eapply wf_step.
Qed.

(** C1.  With every segment buffer aligned to [segmentCapacity], a power
    of two, a pointer [p] that [append] returns was handed out by the
    segment that is now the head; [getSegmentBaseAddress p] is the base
    address of that segment and [getSegmentId p] is its id. *)
Theorem append_pointer_names_its_segment
    logId logCapacity capacity backup xmemalign (L0 L L' : state)
    fuel type buffer length p tr :
  segment_pointer_contract → cleaner_keeps_wf →
  (∃ k, 0 ≤ k ∧ capacity = 2 ^ k) →
  (∀ i, xmemalign i mod capacity = 0) →
  Log_new logId logCapacity capacity backup xmemalign = Return L0 →
  reachable L0 L →
  append fuel type buffer length L = Some (Return (Some p), L', tr) →
  ∃ h s, head L' = Some h ∧ heap L' !! h = Some s ∧
         last tr = Some (SegmentAppend h type length (Some p)) ∧
         getSegmentBaseAddress L' p = getBaseAddress s ∧
         getSegmentId L' p = Some (Return (getId s)).
Proof.
  intros Hptr Hclean Hpow Hal Hnew Hreach Happ.
  assert (Hwf : log_wf L).
  { eapply wf_reachable; [done| |done]. by eapply wf_Log_new. }
  unfold append in Happ. destruct (maximumAppendableBytes L <? length); [done|].
  destruct (append_loop fuel type buffer length L) as [[[q L1] tr1]|] eqn:El;
    [|done].
  injection Happ as -> -> ->.
  destruct (append_loop_pointer _ _ _ _ _ _ _ _ Hptr Hclean Hwf El)
    as ([Hc Hf Hh] & h & s & Hhead & Hs & Hlast & Hin).
  destruct (Hh h Hhead) as (s0 & Hs0 & Hcap & Hbase & Hidx).
  assert (s0 = s) as -> by congruence.
  destruct Hc as (k & Hk & Hc).
  assert (Hpos : 0 < segmentCapacity L') by (rewrite Hc; by apply Z.pow_pos_nonneg).
  assert (Eb : getSegmentBaseAddress L' p = seg_baseAddress s).
  { unfold getSegmentBaseAddress. apply round_down_to_base; [done..|].
    by rewrite <- Hcap. }
  exists h, s. do 3 (split; [done|]). split; [done|].
  unfold getSegmentId. by rewrite Eb, Hidx, Hs.
Qed.

(** *** What the steps of the loop leave alone *)

Lemma head_append_config type buffer length (L L1 : state) r ev :
  head_append type buffer length L = Some (r, L1, ev) →
  same_config L L1 ∧ head L1 = head L ∧
  segmentFreeList L1 = segmentFreeList L ∧
  (∀ h, head L = Some h → is_Some (heap L !! h) → is_Some (heap L1 !! h)).
Proof.
  intros Ha. apply head_append_inv in Ha
    as [(_ & _ & -> & _)|(h & s & s' & Hh & Hs & _ & -> & _)]; [done|].
  simpl. split_and!; try done.
  intros h0 _ [s0 Hs0]. apply lookup_lt_is_Some. rewrite length_insert.
  by eapply lookup_lt_Some.
Qed.

Lemma close_head_config (L L2 : state) ev :
  close_head L = Some (L2, ev) →
  same_config L L2 ∧ segmentFreeList L2 = segmentFreeList L ∧
  length (heap L2) = length (heap L).
Proof.
  intros Hc. apply close_head_inv in Hc
    as [(_ & -> & _)|(h & s & _ & _ & -> & _)]; [done|].
  simpl. by rewrite length_insert.
Qed.

Lemma getFromFreeList_config (L L3 : state) r :
  getFromFreeList L = (r, L3) → same_config L L3 ∧ heap L3 = heap L.
Proof.
  unfold getFromFreeList. destruct (last (segmentFreeList L));
    intros [= <- <-]; done.
Qed.

Lemma new_head_config (b : Pointer) (L L4 : state) ev :
  new_head b L = (L4, ev) → same_config L L4.
Proof. unfold new_head. simpl. intros [= <- <-]. done. Qed.

Lemma same_config_trans (L1 L2 L3 : state) :
  same_config L1 L2 → same_config L2 L3 → same_config L1 L3.
Proof.
  intros (?&?&?&?&?) (?&?&?&?&?). unfold same_config. split_and!; congruence.
Qed.

Lemma close_head_Some (L : state) :
  (∀ h, head L = Some h → is_Some (heap L !! h)) → is_Some (close_head L).
Proof.
  intros Hv. unfold close_head. destruct (head L) as [h|]; [|done].
  destruct (Hv h eq_refl) as [s ->]. by destruct (Segment_close s).
Qed.

Lemma head_append_Some type buffer length (L : state) :
  (∀ h, head L = Some h → is_Some (heap L !! h)) →
  is_Some (head_append type buffer length L).
Proof.
  intros Hv. unfold head_append. destruct (head L) as [h|]; [|done].
  destruct (Hv h eq_refl) as [s ->].
  by destruct (Segment_append s type buffer length).
Qed.

(** *** Fuel *)

Lemma append_loop_S fuel type buffer length (L : state) :
  append_loop (S fuel) type buffer length L =
  match head_append type buffer length L with
  | None => None
  | Some (Some p, L1, ev1) => Some (Some p, L1, ev1)
  | Some (None, L1, ev1) =>
      match close_head L1 with
      | None => None
      | Some (L2, ev2) =>
          match getFromFreeList L2 with
          | (None, L3) => Some (None, L3, ev1 ++ ev2)
          | (Some s, L3) =>
              let '(L4, ev3) := new_head s L3 in
              let '(L5, ev4) := LogCleaner_clean 1 L4 in
              match append_loop fuel type buffer length L5 with
              | None => None
              | Some (p, L', tr) =>
                  Some (p, L', ev1 ++ ev2 ++ ev3 ++ CleanerClean 1 :: ev4 ++ tr)
              end
          end
      end
  end.
Proof. reflexivity. Qed.

Lemma append_loop_more_fuel fuel type buffer length (L : state) x :
  append_loop fuel type buffer length L = Some x →
  append_loop (S fuel) type buffer length L = Some x.
Proof.
  revert L x. induction fuel as [|fuel IH]; intros L x; [done|].
  intros Hl. rewrite append_loop_S in Hl. rewrite (append_loop_S (S fuel)).
  destruct (head_append type buffer length L) as [[[[q|] L1] ev1]|]; [done| |done].
  destruct (close_head L1) as [[L2 ev2]|]; [|done].
  destruct (getFromFreeList L2) as [[b|] L3]; [|done].
  destruct (new_head b L3) as [L4 ev3].
  destruct (LogCleaner_clean 1 L4) as [L5 ev4].
  destruct (append_loop fuel type buffer length L5) as [y|] eqn:El; [|done].
  by rewrite (IH _ _ El).
Qed.

Lemma append_loop_fuel_le fuel fuel' type buffer length (L : state) x :
  (fuel ≤ fuel')%nat →
  append_loop fuel type buffer length L = Some x →
  append_loop fuel' type buffer length L = Some x.
Proof.
  induction 1 as [|fuel' _ IH]; [done|].
  intros Hl. by apply append_loop_more_fuel, IH.
Qed.

(** *** [head] never dangles *)

Lemma append_loop_valid fuel type buffer length (L L' : state) r tr :
  cleaner_spares_head → head_valid L →
  append_loop fuel type buffer length L = Some (r, L', tr) → head_valid L'.
Proof.
  intros Hsp. revert L tr.
  induction fuel as [|fuel IH]; intros L tr Hv; [done|]. rewrite append_loop_S.
  destruct (head_append type buffer length L) as [[[q L1] ev1]|] eqn:Ea; [|done].
  destruct (head_append_config _ _ _ _ _ _ _ Ea) as (_ & Hh1 & _ & Hv1).
  assert (Hvalid1 : head_valid L1).
  { intros h Hh. rewrite Hh1 in Hh. by apply Hv1, Hv. }
  destruct q as [q|]; [by intros [= _ <- _]|].
  destruct (close_head L1) as [[L2 ev2]|] eqn:Ec; [|done].
  pose proof (close_head_head _ _ _ Ec) as Hh2.
  destruct (getFromFreeList L2) as [[b|] L3] eqn:Eg.
  - destruct (new_head b L3) as [L4 ev3] eqn:En.
    destruct (new_head_head _ _ _ _ En) as (Hh4 & Hp4 & _).
    destruct (LogCleaner_clean 1 L4) as [L5 ev4] eqn:Ek.
    destruct (append_loop fuel type buffer length L5) as [[[r6 L6] tr6]|] eqn:El;
      [|done].
    intros [= <- <- _]. eapply IH; [|done].
    intros h Hh5.
    edestruct (Hsp 1 L4) as [Hh Hs]; [done| |].
    { rewrite Hp4. apply list_lookup_middle. done. }
    rewrite Ek in Hh, Hs. simpl in Hh, Hs.
    rewrite Hh in Hh5. injection Hh5 as <-. by rewrite Hs.
  - intros [= _ <- _]. intros h Hh.
    apply getFromFreeList_head in Eg. congruence.
Qed.

Lemma valid_reachable logId logCapacity capacity backup xmemalign (L0 L : state) :
  cleaner_spares_head →
  Log_new logId logCapacity capacity backup xmemalign = Return L0 →
  reachable L0 L → head_valid L.
Proof.
  intros Hsp Hnew Hr.
  assert (Hv0 : head_valid L0).
  { revert Hnew. unfold Log_new. destruct (_ <? 1); [done|]. intros [= <-].
    generalize (seq 0 (Z.to_nat (logCapacity / capacity))). intros l.
    match goal with |- head_valid (foldl _ ?M l) =>
      assert (Hn : head M = None) by done; revert Hn; generalize M end.
    induction l as [|i l IH]; intros M Hn; simpl.
    - intros h. by rewrite Hn.
    - apply IH. unfold addSegmentMemory.
      by destruct (maximumAppendableBytes (addToFreeList (xmemalign i) M) =? 0). }
  clear Hnew. induction Hr as [|L1 L2 L3 Hs _ IH]; [done|]. apply IH.
  destruct Hs as [fuel type buffer len La r Lb tr Ha|t cb arg La].
  - unfold append in Ha. destruct (maximumAppendableBytes La <? len).
    + by injection Ha as _ <- _.
    + destruct (append_loop fuel type buffer len La) as [[[q Lc] tr1]|] eqn:El;
        [|done].
      injection Ha as _ <- _. by eapply append_loop_valid.
  - unfold registerType. by destruct (callbackMap La !! t).
Qed.

(** *** At most two iterations *)

Lemma append_loop_two type buffer length (L : state) :
  fresh_segment_accepts L → cleaner_spares_head → head_valid L →
  0 ≤ length ≤ maximumAppendableBytes L →
  ∃ r L' tr,
    append_loop 2 type buffer length L = Some (r, L', tr) ∧
    (r = None ↔
     segmentFreeList L = [] ∧
     ∃ L1 ev, head_append type buffer length L = Some (None, L1, ev)).
Proof.
  intros Hfresh Hsp Hv Hlen.
  destruct (head_append_Some type buffer length L Hv) as [[[q L1] ev1] Ea].
  rewrite append_loop_S, Ea.
  destruct (head_append_config _ _ _ _ _ _ _ Ea) as (Hc1 & Hh1 & Hf1 & Hv1).
  destruct q as [q|].
  { eexists _, _, _. split; [done|]. split; [done|].
    intros [_ (L1' & ev' & [=])]. }
  destruct (close_head_Some L1) as [[L2 ev2] Ec].
  { intros h Hh. rewrite Hh1 in Hh. by apply Hv1, Hv. }
  rewrite Ec. destruct (close_head_config _ _ _ Ec) as (Hc2 & Hf2 & _).
  destruct (getFromFreeList L2) as [[b|] L3] eqn:Eg.
  - destruct (getFromFreeList_config _ _ _ Eg) as (Hc3 & Hp3).
    destruct (new_head b L3) as [L4 ev3] eqn:En.
    destruct (new_head_head _ _ _ _ En) as (Hh4 & Hp4 & _).
    destruct (LogCleaner_clean 1 L4) as [L5 ev4] eqn:Ek.
    edestruct (Hsp 1 L4) as [Hh5 Hs5]; [done| |].
    { rewrite Hp4. apply list_lookup_middle. done. }
    rewrite Ek in Hh5, Hs5. simpl in Hh5, Hs5.
    rewrite append_loop_S. unfold head_append at 1. rewrite Hh5, Hs5.
    pose proof (same_config_trans _ _ _ (same_config_trans _ _ _ Hc1 Hc2) Hc3)
      as (El & Ec' & _ & Eb & _).
    rewrite El, Ec', Eb.
    destruct (Hfresh (nextSegmentId L3) b type buffer length Hlen) as [p Hp].
    destruct (Segment_append _ type buffer length) as [q s'] eqn:Eapp.
    simpl in Hp. subst q.
    eexists _, _, _. split; [done|]. split; [done|].
    intros [Hnil _]. apply getFromFreeList_Some in Eg as [Hl _].
    rewrite Hf2, Hf1, Hnil in Hl. by destruct (segmentFreeList L3).
  - eexists _, _, _. split; [done|]. split; [|done]. intros _.
    apply getFromFreeList_None in Eg as [Hnil _]. split; [congruence|].
    by eexists _, _.
Qed.

(** C2, as amended.  A payload of at most [maximumAppendableBytes]
    bytes, on a log whose fresh segments accept such payloads and whose
    cleaner leaves the head segment as it is: the retry loop is over
    after at most two iterations, and it hands back a pointer unless a
    new head is needed while the free list is empty, in which case
    [append] returns [NULL]. *)
Theorem append_loop_ends_in_two_iterations
    logId logCapacity capacity backup xmemalign (L0 L : state)
    type buffer length :
  fresh_segment_accepts L → cleaner_spares_head →
  Log_new logId logCapacity capacity backup xmemalign = Return L0 →
  reachable L0 L →
  0 ≤ length ≤ maximumAppendableBytes L →
  ∃ r L' tr,
    (∀ fuel, (2 ≤ fuel)%nat →
       append fuel type buffer length L = Some (Return r, L', tr)) ∧
    (r = None ↔
     segmentFreeList L = [] ∧
     ∃ L1 ev, head_append type buffer length L = Some (None, L1, ev)).
Proof.
  intros Hfresh Hsp Hnew Hreach Hlen.
  pose proof (valid_reachable _ _ _ _ _ _ _ Hsp Hnew Hreach) as Hv.
  destruct (append_loop_two type buffer length L Hfresh Hsp Hv Hlen)
    as (r & L' & tr & Hl & Hr).
  exists r, L', tr. split; [|done]. intros fuel Hfuel. unfold append.
  destruct (Z.ltb_spec (maximumAppendableBytes L) length) as [?|_]; [lia|].
  by rewrite (append_loop_fuel_le 2 fuel _ _ _ _ _ Hfuel Hl).
Qed.


(** *** Log full *)

Lemma reject_then_close type buffer length (L L1 L2 : state) ev1 ev2 h s :
  head_append type buffer length L = Some (None, L1, ev1) →
  close_head L1 = Some (L2, ev2) →
  head L = Some h → heap L !! h = Some s →
  ev1 ++ ev2 =
    SegmentAppend h type length None :: SegmentClose h ::
    (if seg_backup s then [BackupCloseSegment (seg_logId s) (seg_id s)] else []) ∧
  head L2 = None ∧ segmentFreeList L2 = segmentFreeList L ∧
  ∃ s', heap L2 !! h = Some s' ∧ seg_closed s' = true ∧ seg_id s' = seg_id s.
Proof.
  intros Ea Ec Hh Hs.
  apply head_append_inv in Ea
    as [(Hn & _)|(h' & s0 & s' & Hh' & Hs' & Eapp & -> & ->)]; [congruence|].
  assert (h' = h) as -> by congruence. assert (s0 = s) as -> by congruence.
  apply Segment_append_fields in Eapp as (El & Ei & _ & _ & Eb & _).
  assert (Hs1 : <[h := s']> (heap L) !! h = Some s').
  { apply list_lookup_insert_eq. by eapply lookup_lt_Some. }
  apply close_head_inv in Ec
    as [(Hn & _)|(h2 & s2 & Hh2 & Hs2 & -> & ->)]; simpl in *; [congruence|].
  assert (h2 = h) as -> by congruence. assert (s2 = s') as -> by congruence.
  rewrite El, Ei, Eb. split_and!; [done..|].
  eexists. split.
  { apply list_lookup_insert_eq. rewrite length_insert. by eapply lookup_lt_Some. }
  done.
Qed.

Lemma append_loop_full fuel type buffer length (L L' : state) tr :
  append_loop fuel type buffer length L = Some (None, L', tr) →
  head L' = None ∧
  ∀ h s, head L = Some h → heap L !! h = Some s →
    (∃ rest, tr =
       SegmentAppend h type length None :: SegmentClose h ::
       (if seg_backup s then [BackupCloseSegment (seg_logId s) (seg_id s)]
        else []) ++ rest) ∧
    (segmentFreeList L = [] →
     ∃ s', heap L' !! h = Some s' ∧ seg_closed s' = true ∧ seg_id s' = seg_id s).
Proof.
  revert L tr. induction fuel as [|fuel IH]; intros L tr; [done|].
  rewrite append_loop_S.
  destruct (head_append type buffer length L) as [[[[q|] L1] ev1]|] eqn:Ea;
    [done| |done].
  destruct (close_head L1) as [[L2 ev2]|] eqn:Ec; [|done].
  destruct (getFromFreeList L2) as [[b|] L3] eqn:Eg.
  - destruct (new_head b L3) as [L4 ev3] eqn:En.
    destruct (LogCleaner_clean 1 L4) as [L5 ev4] eqn:Ek.
    destruct (append_loop fuel type buffer length L5) as [[[r6 L6] tr6]|] eqn:El;
      [|done].
    intros [= -> -> <-]. destruct (IH _ _ El) as [Hn _]. split; [done|].
    intros h s Hh Hs.
    destruct (reject_then_close _ _ _ _ _ _ _ _ _ _ Ea Ec Hh Hs)
      as (Hev & _ & Hf2 & _).
    split.
    + eexists. rewrite app_assoc, Hev. simpl. reflexivity.
    + intros Hnil. apply getFromFreeList_Some in Eg as [Hl _].
      rewrite Hf2, Hnil in Hl. by destruct (segmentFreeList L3).
  - apply getFromFreeList_None in Eg as [_ ->]. intros [= <- <-].
    split; [by eapply close_head_head|]. intros h s Hh Hs.
    destruct (reject_then_close _ _ _ _ _ _ _ _ _ _ Ea Ec Hh Hs)
      as (Hev & _ & _ & Hclosed).
    split; [|done]. exists []. by rewrite app_nil_r.
Qed.

Lemma append_loop_without_head fuel type buffer length (L L' : state) p tr :
  head L = None →
  append_loop fuel type buffer length L = Some (Some p, L', tr) →
  ∃ b rest, last (segmentFreeList L) = Some b ∧
    tr = SegmentNew (Datatypes.length (heap L)) (logId L) (nextSegmentId L) b
           (segmentCapacity L) :: rest.
Proof.
  intros Hn. destruct fuel as [|fuel]; [done|]. rewrite append_loop_S.
  unfold head_append, close_head. rewrite Hn. cbv beta iota. rewrite Hn.
  destruct (getFromFreeList L) as [[b|] L3] eqn:Eg; [|done].
  destruct (new_head b L3) as [L4 ev3] eqn:En.
  destruct (LogCleaner_clean 1 L4) as [L5 ev4] eqn:Ek.
  destruct (append_loop fuel type buffer length L5) as [[[r6 L6] tr6]|] eqn:El;
    [|done].
  intros [= -> <- <-].
  destruct (new_head_head _ _ _ _ En) as (_ & _ & ->).
  destruct (getFromFreeList_config _ _ _ Eg) as ((El3 & Ec3 & _) & Hp3).
  assert (Hid : nextSegmentId L3 = nextSegmentId L).
  { apply getFromFreeList_Some in Eg as [_ ->]. done. }
  assert (Hlast : last (segmentFreeList L) = Some b).
  { apply getFromFreeList_Some in Eg as [-> _]. apply last_snoc. }
  rewrite El3, Ec3, Hp3, Hid. simpl.
  eexists _, _. split; [done|]. reflexivity.
Qed.

Lemma append_loop_full_list fuel type buffer length (L L' : state) tr :
  append_loop fuel type buffer length L = Some (None, L', tr) →
  segmentFreeList L' = [] ∧
  (head L = None → segmentFreeList L = [] → L' = L ∧ tr = []).
Proof.
  revert L tr. induction fuel as [|fuel IH]; intros L tr; [done|].
  rewrite append_loop_S.
  destruct (head_append type buffer length L) as [[[[q|] L1] ev1]|] eqn:Ea;
    [done| |done].
  destruct (close_head L1) as [[L2 ev2]|] eqn:Ec; [|done].
  destruct (getFromFreeList L2) as [[b|] L3] eqn:Eg.
  - destruct (new_head b L3) as [L4 ev3] eqn:En.
    destruct (LogCleaner_clean 1 L4) as [L5 ev4] eqn:Ek.
    destruct (append_loop fuel type buffer length L5) as [[[r6 L6] tr6]|] eqn:El;
      [|done].
    intros [= -> -> <-]. destruct (IH _ _ El) as [Hn _]. split; [done|].
    intros Hh Hnil. exfalso.
    apply head_append_inv in Ea
      as [(_ & _ & -> & _)|(h & s & s' & Hh' & _)]; [|congruence].
    apply close_head_inv in Ec
      as [(_ & -> & _)|(h & s & Hh' & _)]; [|congruence].
    apply getFromFreeList_Some in Eg as [Hl _]. rewrite Hnil in Hl.
    by destruct (segmentFreeList L3).
  - apply getFromFreeList_None in Eg as [Hnil ->]. intros [= <- <-].
    split; [done|]. intros Hh _.
    apply head_append_inv in Ea
      as [(_ & _ & -> & ->)|(h & s & s' & Hh' & _)]; [|congruence].
    apply close_head_inv in Ec
      as [(_ & -> & ->)|(h & s & Hh' & _)]; [|congruence].
    done.
Qed.

Lemma head_stays_null (L L1 : state) :
  head L = None → rtc step_while_full L L1 → head L1 = None.
Proof.
  intros Hn Hrun. induction Hrun as [|La Lb Lc Hs _ IH]; [done|]. apply IH.
  destruct Hs as [t cb arg La|fuel type buffer length La Lb tr Ha
                 |fuel type buffer length La e Lb tr Ha|s La].
  - unfold registerType. by destruct (callbackMap La !! t).
  - unfold append in Ha. destruct (maximumAppendableBytes La <? length); [done|].
    destruct (append_loop fuel type buffer length La) as [[[q L2] tr2]|] eqn:El;
      [|done].
    injection Ha as -> -> ->. by destruct (append_loop_full _ _ _ _ _ _ _ El).
  - unfold append in Ha. destruct (maximumAppendableBytes La <? length).
    + by injection Ha as _ <- _.
    + by destruct (append_loop fuel type buffer length La) as [[[q L2] tr2]|].
  - done.
Qed.

(** C9, as amended.  When [append] returns [NULL], [head] is [NULL] and
    the free list is empty.  If there was a head, it has refused the
    entry and has been closed, with the close sent to the backup manager
    it is bound to, and the log is not the one [append] was called on;
    if there was no head and no free buffer, the call changes nothing
    and calls nobody.  The head stays [NULL] while types are registered,
    appends are refused or raise and segments are retired, and an append
    that succeeds then starts by making a new segment. *)
Theorem append_full_leaves_no_head fuel type buffer length (L L' : state) tr :
  append fuel type buffer length L = Some (Return None, L', tr) →
  head L' = None ∧ segmentFreeList L' = [] ∧
  (∀ h s, head L = Some h → heap L !! h = Some s →
     (∃ rest, tr =
        SegmentAppend h type length None :: SegmentClose h ::
        (if seg_backup s then [BackupCloseSegment (seg_logId s) (seg_id s)]
         else []) ++ rest) ∧
     (segmentFreeList L = [] →
      ∃ s', heap L' !! h = Some s' ∧ seg_closed s' = true ∧
            seg_id s' = seg_id s) ∧
     L' ≠ L) ∧
  (head L = None → segmentFreeList L = [] → L' = L ∧ tr = []) ∧
  (∀ L1, rtc step_while_full L' L1 →
     head L1 = None ∧
     ∀ fuel2 type2 buffer2 length2 p L2 tr2,
       append fuel2 type2 buffer2 length2 L1 = Some (Return (Some p), L2, tr2) →
       ∃ b rest, last (segmentFreeList L1) = Some b ∧
         tr2 = SegmentNew (Datatypes.length (heap L1)) (logId L1)
                 (nextSegmentId L1) b (segmentCapacity L1) :: rest).
Proof.
  unfold append at 1. destruct (maximumAppendableBytes L <? length); [done|].
  destruct (append_loop fuel type buffer length L) as [[[q L1] tr1]|] eqn:El;
    [|done].
  intros [= -> -> ->].
  destruct (append_loop_full _ _ _ _ _ _ _ El) as [Hn Hclose].
  destruct (append_loop_full_list _ _ _ _ _ _ _ El) as [Hnil Hsame].
  split; [done|]. split; [done|]. split; [|split; [done|]].
  - intros h s Hh Hs. destruct (Hclose h s Hh Hs) as [Htr Hst].
    do 2 (split; [done|]). intros ->. congruence.
  - intros L2 Hrun. pose proof (head_stays_null _ _ Hn Hrun) as Hn2.
    split; [done|]. intros fuel2 type2 buffer2 length2 p L3 tr2. unfold append.
    destruct (maximumAppendableBytes L2 <? length2); [done|].
    destruct (append_loop fuel2 type2 buffer2 length2 L2) as [[[q2 L4] tr3]|] eqn:El2;
      [|done].
    intros [= -> -> ->]. by eapply append_loop_without_head.
Qed.

(** *** The type registry *)

Lemma append_loop_registry fuel type buffer length (L L' : state) r tr :
  cleaner_keeps_registry →
  append_loop fuel type buffer length L = Some (r, L', tr) →
  callbackMap L' = callbackMap L.
Proof.
  intros Hk. revert L tr.
  induction fuel as [|fuel IH]; intros L tr; [done|]. rewrite append_loop_S.
  destruct (head_append type buffer length L) as [[[q L1] ev1]|] eqn:Ea; [|done].
  destruct (head_append_config _ _ _ _ _ _ _ Ea) as ((_&_&_&_&E1) & _).
  destruct q as [q|]; [by intros [= _ <- _]|].
  destruct (close_head L1) as [[L2 ev2]|] eqn:Ec; [|done].
  destruct (close_head_config _ _ _ Ec) as ((_&_&_&_&E2) & _).
  destruct (getFromFreeList L2) as [[b|] L3] eqn:Eg;
    destruct (getFromFreeList_config _ _ _ Eg) as ((_&_&_&_&E3) & _).
  - destruct (new_head b L3) as [L4 ev3] eqn:En.
    destruct (new_head_config _ _ _ _ En) as (_&_&_&_&E4).
    destruct (LogCleaner_clean 1 L4) as [L5 ev4] eqn:Ek.
    pose proof (Hk 1 L4) as E5. rewrite Ek in E5. simpl in E5.
    destruct (append_loop fuel type buffer length L5) as [[[r6 L6] tr6]|] eqn:El;
      [|done].
    intros [= <- <- _]. rewrite (IH _ _ El). congruence.
  - intros [= _ <- _]. congruence.
Qed.

Lemma step_keeps_registered (L L' : state) t c :
  cleaner_keeps_registry → step L L' →
  callbackMap L !! t = Some c → callbackMap L' !! t = Some c.
Proof.
  intros Hk Hs Ht.
  destruct Hs as [fuel type buffer len La r Lb tr Ha|t' cb arg La].
  - unfold append in Ha. destruct (maximumAppendableBytes La <? len).
    + by injection Ha as _ <- _.
    + destruct (append_loop fuel type buffer len La) as [[[q Lc] tr1]|] eqn:El;
        [|done].
      injection Ha as _ <- _. by rewrite (append_loop_registry _ _ _ _ _ _ _ _ Hk El).
  - unfold registerType. destruct (callbackMap La !! t') eqn:Et'; [done|].
    simpl. rewrite lookup_insert_ne; [done|]. intros ->. congruence.
Qed.

(** C8.  The first [registerType] for a type stores its callback and
    cookie; whatever the log does afterwards, every later
    [registerType] for that type raises and leaves the log, and so the
    registry, as it was. *)
Theorem registerType_is_one_shot (L : state) t cb arg :
  cleaner_keeps_registry →
  callbackMap L !! t = None →
  let entry := {| cb_type := t; cb_evictionCB := cb; cb_evictionArg := arg |} in
  (registerType t cb arg L).1 = Return tt ∧
  callbackMap (registerType t cb arg L).2 = <[t := entry]> (callbackMap L) ∧
  ∀ L2 cb2 arg2,
    reachable (registerType t cb arg L).2 L2 →
    registerType t cb2 arg2 L2 =
      (Throw (LogException_at "type already registered with the Log"), L2) ∧
    callbackMap L2 !! t = Some entry.
Proof.
  intros Hk Hnone entry. unfold registerType at 1 2 3. rewrite Hnone. simpl.
  do 2 (split; [done|]). intros L2 cb2 arg2 Hr.
  assert (Ht : callbackMap L2 !! t = Some entry).
  { assert (Hinv : ∀ M0 M, reachable M0 M →
              callbackMap M0 !! t = Some entry → callbackMap M !! t = Some entry).
    { induction 1 as [|M1 M2 M3 Hs _ IH]; [done|].
      intros H1. apply IH. by eapply step_keeps_registered. }
    apply (Hinv _ _ Hr). simpl. apply lookup_insert_eq. }
  split; [|done]. unfold registerType. by rewrite Ht.
Qed.

End Facts.

(** *** The reference instance meets the contracts *)

Lemma bump_pointer_contract : @segment_pointer_contract bump_framing.
Proof.
  intros base capacity f type buffer length p f'. simpl. unfold bump_append.
  destruct (Z.leb_spec 0 f); [|done]. destruct (Z.leb_spec 0 length); [|done].
  destruct (Z.leb_spec (f + 8 + length + 8) capacity); [|done].
  simpl. intros [= <- <-]. lia.
Qed.

Lemma bump_fresh_accepts (L : @state bump_framing) :
  maximumAppendableBytes L + 16 ≤ segmentCapacity L →
  @fresh_segment_accepts bump_framing L.
Proof.
  intros Hmax id base type buffer length Hlen.
  unfold Segment_append, Segment_new. simpl. unfold bump_append.
  destruct (Z.leb_spec 0 length); [|lia].
  destruct (Z.leb_spec (0 + 8 + length + 8) (segmentCapacity L)); [|lia].
  simpl. by eexists.
Qed.

Lemma idle_spares_head : @cleaner_spares_head bump_framing idle_cleaner.
Proof. by intros n L h s Hh Hs. Qed.

Lemma idle_keeps_wf : @cleaner_keeps_wf bump_framing idle_cleaner.
Proof. by intros n L Hwf. Qed.

Lemma idle_keeps_registry : @cleaner_keeps_registry bump_framing idle_cleaner.
Proof. by intros n L. Qed.

Lemma two_segment_log_new :
  @Log_new bump_framing 1 131072 65536 false two_blocks = Return two_segment_log.
Proof. reflexivity. Qed.

Lemma one_segment_log_new :
  @Log_new bump_framing 1 65536 65536 true two_blocks = Return one_segment_log.
Proof. reflexivity. Qed.

Lemma two_blocks_aligned (i : nat) : two_blocks i mod 65536 = 0.
Proof. by destruct i. Qed.

(** *** The log at work *)

(** One iteration is not enough for the first append: the head has to be
    made first. *)
Example first_append_takes_two_iterations :
  @append bump_framing idle_cleaner 1 7 [1; 2; 3] 3 two_segment_log = None ∧
  @append bump_framing idle_cleaner 2 7 [1; 2; 3] 3 two_segment_log =
    Some (Return (Some 1114120), after_first_append, first_append_trace).
Proof. split; vm_compute; reflexivity. Qed.

(** Two appends within the capacity of one segment: the second pointer lies
    behind the first, both belong to segment 0, which is live. *)
Example two_appends_in_one_segment :
  match @append bump_framing idle_cleaner 2 1 [97; 97; 97] 3 one_segment_log with
  | Some (Return (Some p1), L1, _) =>
      match @append bump_framing idle_cleaner 2 1 [98; 98] 2 L1 with
      | Some (Return (Some p2), L2, _) =>
          p1 < p2 ∧ getSegmentId L2 p1 = Some (Return 0) ∧
          getSegmentId L2 p2 = Some (Return 0) ∧ isSegmentLive L2 0 = true
      | _ => False
      end
  | _ => False
  end.
Proof. vm_compute. by repeat split. Qed.

(** Head rollover: the second entry does not fit into segment 0, which is
    closed; segment 1 takes it, and both segments are live. *)
Example rollover_to_the_second_segment :
  match @append bump_framing idle_cleaner 2 1 [] 65000 two_segment_log with
  | Some (Return (Some p1), L1, _) =>
      match @append bump_framing idle_cleaner 2 1 [] 1000 L1 with
      | Some (Return (Some p2), L2, tr) =>
          getSegmentBaseAddress L2 p1 ≠ getSegmentBaseAddress L2 p2 ∧
          getSegmentId L2 p1 = Some (Return 0) ∧
          getSegmentId L2 p2 = Some (Return 1) ∧
          isSegmentLive L2 0 = true ∧ isSegmentLive L2 1 = true ∧
          tr = [SegmentAppend 0 1 1000 None; SegmentClose 0;
                SegmentNew 1 1 1 1048576 65536; CleanerClean 1;
                SegmentAppend 1 1 1000 (Some 1048584)]
      | _ => False
      end
  | _ => False
  end.
Proof. vm_compute. by repeat split. Qed.

(** The first append to the 128 KiB log: three bytes of type 7. *)
Lemma append_pointer_names_its_segment_witness :
  @append bump_framing idle_cleaner 2 7 [1; 2; 3] 3 two_segment_log =
    Some (Return (Some 1114120), after_first_append, first_append_trace) ∧
  ∃ h s, head after_first_append = Some h ∧
         heap after_first_append !! h = Some s ∧
         last first_append_trace = Some (SegmentAppend h 7 3 (Some 1114120)) ∧
         getSegmentBaseAddress after_first_append 1114120 = getBaseAddress s ∧
         getSegmentId after_first_append 1114120 = Some (Return (getId s)).
Proof.
  assert (Ha : @append bump_framing idle_cleaner 2 7 [1; 2; 3] 3 two_segment_log =
            Some (Return (Some 1114120), after_first_append, first_append_trace))
    by (vm_compute; reflexivity).
  split; [exact Ha|].
  refine (@append_pointer_names_its_segment bump_framing idle_cleaner
            1 131072 65536 false two_blocks two_segment_log two_segment_log
            after_first_append 2 7 [1; 2; 3] 3 1114120 first_append_trace
            bump_pointer_contract idle_keeps_wf _ two_blocks_aligned
            two_segment_log_new (rtc_refl _ _) Ha).
  exists 16. split; [lia|reflexivity].
Defined.

Lemma append_loop_ends_in_two_iterations_witness :
  ∃ r L' tr,
    (∀ fuel, (2 ≤ fuel)%nat →
       @append bump_framing idle_cleaner fuel 7 [1; 2; 3] 3 two_segment_log =
       Some (Return r, L', tr)) ∧
    (r = None ↔
     segmentFreeList two_segment_log = [] ∧
     ∃ L1 ev, head_append 7 [1; 2; 3] 3 two_segment_log = Some (None, L1, ev)).
Proof.
  refine (@append_loop_ends_in_two_iterations bump_framing idle_cleaner
            1 131072 65536 false two_blocks two_segment_log two_segment_log
            7 [1; 2; 3] 3 (bump_fresh_accepts two_segment_log _) idle_spares_head
            two_segment_log_new (rtc_refl _ _) _); simpl; lia.
Defined.


Lemma reclaimed_after_refusal :
  rtc (@step_while_full bump_framing idle_cleaner) refused_log reclaimed_log.
Proof. apply rtc_once. apply full_retire. Qed.

(** The 64 KiB log is full: appending one more byte returns [NULL] and
    closes the head.  Once the closed segment is retired, the next
    append makes segment 1 over the buffer that came back. *)
Lemma append_full_leaves_no_head_witness :
  @append bump_framing idle_cleaner 1 7 [9] 1 filled_log =
    Some (Return None, refused_log, refused_trace) ∧
  head filled_log = Some 0%nat ∧ head refused_log = None ∧
  refused_log ≠ filled_log ∧
  head reclaimed_log = None ∧
  ∃ L2 b rest,
    @append bump_framing idle_cleaner 2 7 [9] 1 reclaimed_log =
      Some (Return (Some 1048584), L2,
            SegmentNew 1 1 1 b 65536 :: rest).
Proof.
  assert (Ha : @append bump_framing idle_cleaner 1 7 [9] 1 filled_log =
            Some (Return None, refused_log, refused_trace))
    by (vm_compute; reflexivity).
  destruct (@append_full_leaves_no_head bump_framing idle_cleaner
              1 7 [9] 1 filled_log refused_log refused_trace Ha)
    as (Hn & _ & Hclosed & _ & Hnext).
  assert (Hs : heap filled_log !! 0%nat =
            Some {| seg_logId := 1; seg_id := 0; seg_baseAddress := 1048576;
                    seg_capacity := 65536; seg_backup := true;
                    seg_closed := false;
                    seg_framing := (65528 : @framing bump_framing) |})
    by (vm_compute; reflexivity).
  destruct (Hclosed 0%nat _ eq_refl Hs) as (_ & _ & Hne).
  destruct (Hnext reclaimed_log reclaimed_after_refusal) as [Hn1 Hnew].
  split; [exact Ha|]. split; [reflexivity|]. split; [exact Hn|].
  split; [exact Hne|]. split; [exact Hn1|].
  destruct (@append bump_framing idle_cleaner 2 7 [9] 1 reclaimed_log)
    as [[[[e|[p|]] L2] tr2]|] eqn:E2;
    [by vm_compute in E2| |by vm_compute in E2|by vm_compute in E2].
  destruct (Hnew 2%nat 7 [9] 1 p L2 tr2 E2) as (b & rest & _ & Etr).
  assert (Ep : p = 1048584).
  { vm_compute in E2. by injection E2 as -> _ _. }
  exists L2, b, rest. rewrite Ep, Etr. reflexivity.
Defined.

(** On the full log without a head one more append returns [NULL]
    again, and this time nothing is closed and the log stays as it is:
    the outcome is state-preserving. *)
Lemma refused_append_changes_nothing :
  @Log_new bump_framing 1 65536 65536 true two_blocks = Return one_segment_log ∧
  @reachable bump_framing idle_cleaner one_segment_log refused_log ∧
  @append bump_framing idle_cleaner 5 7 [9] 1 refused_log =
    Some (Return None, refused_log, []).
Proof.
  split; [reflexivity|]. split; [|vm_compute; reflexivity].
  apply (rtc_l _ _ filled_log).
  - apply (step_append 2 7 [] 65520 one_segment_log
             (Return (Some 1048584)) filled_log
             [SegmentNew 0 1 0 1048576 65536; BackupOpenSegment 1 0;
              CleanerClean 1; SegmentAppend 0 7 65520 (Some 1048584)]).
    vm_compute. reflexivity.
  - apply rtc_once.
    apply (step_append 1 7 [9] 1 filled_log (Return None) refused_log refused_trace).
    vm_compute. reflexivity.
Qed.

(** A cleaner that relocates live data into the new head: a fresh
    segment accepts the payload and the length is within bounds, and yet
    the first new head refuses it; two iterations are not enough and the
    call succeeds in the third. *)
Lemma relocation_takes_a_third_iteration :
  @fresh_segment_accepts bump_framing two_segment_log ∧
  0 ≤ 10000 ≤ maximumAppendableBytes two_segment_log ∧
  @Log_new bump_framing 1 131072 65536 false two_blocks = Return two_segment_log ∧
  @append bump_framing relocating_cleaner 2 7 [] 10000 two_segment_log = None ∧
  match @append bump_framing relocating_cleaner 3 7 [] 10000 two_segment_log with
  | Some (r, _, tr) => r = Return (Some 1048584) ∧ tr = relocated_trace
  | None => False
  end.
Proof.
  split; [apply bump_fresh_accepts; simpl; lia|].
  split; [simpl; lia|]. split; [reflexivity|].
  split; [vm_compute; reflexivity|]. vm_compute. by split.
Qed.

Lemma registerType_is_one_shot_witness :
  (@registerType bump_framing 7 4096 0 two_segment_log).1 = Return tt ∧
  @registerType bump_framing 7 8192 0
    (@registerType bump_framing 7 4096 0 two_segment_log).2 =
  (Throw (LogException_at "type already registered with the Log"),
   (@registerType bump_framing 7 4096 0 two_segment_log).2).
Proof.
  destruct (@registerType_is_one_shot bump_framing idle_cleaner
              two_segment_log 7 4096 0 idle_keeps_registry eq_refl)
    as (H1 & _ & H3).
  split; [exact H1|]. exact (proj1 (H3 _ 8192 0 (rtc_refl _ _))).
Defined.

End LogFacts.

(** * Properties of the backup manager *)

Module BackupManagerFacts.
Import BackupManager.

Section Facts.
Context `{T : Transport}.

Lemma countBackupClients_from (l : list Entry) (n : Z) :
  0 ≤ n → n + server_size l < 2 ^ 32 →
  foldl (λ n entry,
           if decide (server_type entry = BACKUP) then wrap32 (n + 1) else n)
        n l = n + Z.of_nat (backups l).
Proof.
  unfold server_size, backups. revert n.
  induction l as [|e l IH]; intros n Hn Hlt; simpl in *; [lia|].
  rewrite filter_cons. destruct (decide (server_type e = BACKUP)) as [Hb|Hb].
  - rewrite IH.
    + unfold wrap32. rewrite Z.mod_small by lia. simpl. lia.
    + unfold wrap32. rewrite Z.mod_small by lia. lia.
    + unfold wrap32. rewrite Z.mod_small by lia. lia.
  - rewrite IH by lia. done.
Qed.

Lemma countBackupClients_backups (l : list Entry) :
  server_size l < 2 ^ 31 → countBackupClients l = Z.of_nat (backups l).
Proof.
  intros Hs. unfold countBackupClients.
  rewrite countBackupClients_from; lia.
Qed.

Lemma closeSegment_spec masterId segmentId (bm : state) :
  closeSegment masterId segmentId bm =
    (set_openHosts [] bm,
     TestLog "%lu, %lu" [ArgNum masterId; ArgNum segmentId] ::
     map (λ host, ClientCloseSegment (client_session host) masterId segmentId)
         (openHosts bm)) ∧
  openHosts (closeSegment masterId segmentId bm).1 = [] ∧
  segments (closeSegment masterId segmentId bm).1 = segments bm ∧
  replicas (closeSegment masterId segmentId bm).1 = replicas bm ∧
  hosts (closeSegment masterId segmentId bm).1 = hosts bm.
Proof. done. Qed.

(** *** The selection loop *)

Lemma selectLoop_length fuel (l : list Entry) numHosts R i r acc tr clients tr' :
  0 ≤ i ≤ R → R < 2 ^ 32 →
  selectLoop fuel l numHosts R i r acc tr = Some (clients, tr') →
  Z.of_nat (length clients) = Z.of_nat (length acc) + (R - i).
Proof.
  revert i r acc tr. induction fuel as [|fuel IH]; intros i r acc tr Hi HR; [done|].
  simpl. destruct (Z.ltb_spec i R) as [Hlt|Hge].
  - destruct (l !! Z.to_nat (wrap32 (r mod numHosts))) as [host|]; [|done].
    destruct (decide (server_type host = BACKUP)).
    + intros Hl. apply IH in Hl.
      * rewrite length_app in Hl. simpl in Hl. unfold wrap32 in Hl.
        rewrite Z.mod_small in Hl by lia. lia.
      * unfold wrap32. rewrite Z.mod_small by lia. lia.
      * done.
    + intros Hl. apply IH in Hl; [done|lia|done].
  - intros [= <- <-]. lia.
Qed.

Lemma selectOpenHosts_inv fuel env (bm bm' : state) tr :
  0 ≤ replicas bm < 2 ^ 32 →
  selectOpenHosts fuel env bm = Some (Returned bm' tr) →
  replicas bm' = replicas bm ∧ segments bm' = segments bm ∧
  coordinator bm' = coordinator bm ∧
  (replicas bm = 0 → bm' = bm ∧ tr = []) ∧
  (0 < replicas bm →
   openHosts bm = [] ∧
   Z.of_nat (length (openHosts bm')) = replicas bm).
Proof.
  intros HR. unfold selectOpenHosts.
  destruct (Z.eqb_spec (replicas bm) 0) as [E0|Hne].
  { intros [= <- <-]. split_and!; try done. lia. }
  set (r := if server_size (hosts bm) =? 0
            then updateHostListFromCoordinator env bm else Returned bm []).
  assert (Hr : match r with
               | Died _ _ => True
               | Returned bm1 _ =>
                   replicas bm1 = replicas bm ∧ segments bm1 = segments bm ∧
                   coordinator bm1 = coordinator bm ∧ openHosts bm1 = openHosts bm
               end).
  { subst r. destruct (server_size (hosts bm) =? 0); [|done].
    unfold updateHostListFromCoordinator.
    destruct (coordinator bm) eqn:Ec; [simpl; by rewrite Ec|done]. }
  destruct r as [msg tr1|bm1 tr1]; [done|].
  destruct Hr as (ER & ES & EC & EO).
  destruct (countBackupClients (hosts bm1) <? replicas bm1); [done|].
  destruct (bool_decide_reflect (openHosts bm1 = [])) as [Hnil|Hnn]; [|done].
  simpl.
  destruct (selectLoop fuel (hosts bm1) _ (replicas bm1) 0 (random env)
              (openHosts bm1) tr1) as [[clients tr2]|] eqn:El; [|done].
  intros [= <- <-]. simpl. split_and!; try done; try lia.
  intros Hpos. split; [congruence|].
  apply selectLoop_length in El; [|lia..]. rewrite Hnil in El. simpl in El. lia.
Qed.

Lemma openSegment_inv fuel env masterId segmentId (bm bm' : state) tr :
  0 ≤ replicas bm < 2 ^ 32 →
  openSegment fuel env masterId segmentId bm = Some (Returned bm' tr) →
  replicas bm' = replicas bm ∧
  (replicas bm = 0 → openHosts bm' = openHosts bm) ∧
  (0 < replicas bm →
   openHosts bm = [] ∧ Z.of_nat (length (openHosts bm')) = replicas bm).
Proof.
  intros HR. unfold openSegment.
  destruct (selectOpenHosts fuel env bm) as [[msg tr1|bm1 tr1]|] eqn:Es; [done| |done].
  intros [= <- <-]. simpl.
  destruct (selectOpenHosts_inv _ _ _ _ _ HR Es) as (ER & _ & _ & H0 & Hpos).
  split; [done|]. split; [|done]. intros E0. by destruct (H0 E0) as [-> _].
Qed.

Lemma openSegment_dies_when_open fuel env masterId segmentId (bm : state) :
  replicas bm ≠ 0 → openHosts bm ≠ [] →
  ∃ message tr,
    openSegment fuel env masterId segmentId bm = Some (Died message tr).
Proof.
  intros Hne Hopen. unfold openSegment, selectOpenHosts.
  destruct (Z.eqb_spec (replicas bm) 0) as [?|_]; [done|].
  set (r := if server_size (hosts bm) =? 0
            then updateHostListFromCoordinator env bm else Returned bm []).
  assert (Hr : match r with
               | Died _ _ => True
               | Returned bm1 _ => openHosts bm1 = openHosts bm
               end).
  { subst r. destruct (server_size (hosts bm) =? 0); [|done].
    unfold updateHostListFromCoordinator. by destruct (coordinator bm). }
  destruct r as [msg tr1|bm1 tr1]; [by eexists _, _|].
  destruct (countBackupClients (hosts bm1) <? replicas bm1); [by eexists _, _|].
  destruct (bool_decide_reflect (openHosts bm1 = [])) as [Hnil|_];
    [congruence|]. by eexists _, _.
Qed.

Lemma run_idle fuel (calls : list Call) (bm : state) :
  replicas bm = 0 → openHosts bm = [] →
  ∃ bm' tr, run fuel calls bm = Some (Returned bm' tr) ∧
            openHosts bm' = [] ∧ filter is_network_io tr = [].
Proof.
  revert bm. induction calls as [|c calls IH]; intros bm HR Ho; simpl.
  { by eexists _, _. }
  unfold call. destruct c as [env masterId segmentId|masterId segmentId]; simpl.
  - unfold openSegment, selectOpenHosts. rewrite HR. simpl. rewrite Ho. simpl.
    destruct (IH (set_segments (segments bm) bm)) as (bm' & tr & -> & ? & Hio);
      [done..|].
    eexists _, _. split; [done|]. split; [done|].
    by rewrite filter_cons_False by (by intros []).
  - destruct (IH (set_openHosts [] bm)) as (bm' & tr & -> & ? & Hio); [done..|].
    rewrite Ho. eexists _, _. split; [done|]. split; [done|].
    simpl. by rewrite filter_cons_False by (by intros []).
Qed.

(** C5.  With [replicas > 0], [openSegment] ends in [DIE] when the host
    list it counts (the cached one, or the coordinator's answer when the
    cache is empty) has fewer than [replicas] BACKUP entries, when there
    is no coordinator to ask, and when [openHosts] is not empty.  With
    [replicas == 0] it calls nobody and leaves [openHosts] empty, also
    along any sequence of calls on a fresh manager. *)
Theorem openSegment_dies_or_idles fuel env masterId segmentId (bm : state) :
  (0 < replicas bm < 2 ^ 32 →
   (hosts bm ≠ [] → server_size (hosts bm) < 2 ^ 31 →
    Z.of_nat (backups (hosts bm)) < replicas bm →
    ∃ tr, openSegment fuel env masterId segmentId bm =
          Some (Died "Not enough backups to meet replication requirement" tr)) ∧
   (hosts bm = [] → coordinator bm = true →
    server_size (serverList env) < 2 ^ 31 →
    Z.of_nat (backups (serverList env)) < replicas bm →
    ∃ tr, openSegment fuel env masterId segmentId bm =
          Some (Died "Not enough backups to meet replication requirement" tr)) ∧
   (hosts bm = [] → coordinator bm = false →
    ∃ message tr,
      openSegment fuel env masterId segmentId bm = Some (Died message tr)) ∧
   (openHosts bm ≠ [] →
    ∃ message tr,
      openSegment fuel env masterId segmentId bm = Some (Died message tr))) ∧
  (replicas bm = 0 → openHosts bm = [] →
   ∃ bm' tr,
     openSegment fuel env masterId segmentId bm = Some (Returned bm' tr) ∧
     bm' = bm ∧ filter is_network_io tr = [] ∧ openHosts bm' = []) ∧
  (∀ coordinator l (calls : list Call),
     ∃ bm' tr,
       run fuel calls (setHostList l (BackupManager_new coordinator 0)) =
         Some (Returned bm' tr) ∧
       openHosts bm' = [] ∧ filter is_network_io tr = []).
Proof.
  split_and!.
  - intros HR. split_and!.
    + intros Hh Hsize Hfew. unfold openSegment, selectOpenHosts.
      destruct (Z.eqb_spec (replicas bm) 0) as [?|_]; [lia|].
      destruct (Z.eqb_spec (server_size (hosts bm)) 0) as [E|_].
      { unfold server_size in E. by destruct (hosts bm). }
      rewrite countBackupClients_backups by done.
      destruct (Z.ltb_spec (Z.of_nat (backups (hosts bm))) (replicas bm));
        [|lia]. by eexists.
    + intros Hh Hc Hsize Hfew. unfold openSegment, selectOpenHosts.
      destruct (Z.eqb_spec (replicas bm) 0) as [?|_]; [lia|].
      rewrite Hh. simpl. unfold updateHostListFromCoordinator. rewrite Hc.
      simpl. rewrite countBackupClients_backups by done.
      destruct (Z.ltb_spec (Z.of_nat (backups (serverList env))) (replicas bm));
        [|lia]. by eexists.
    + intros Hh Hc. unfold openSegment, selectOpenHosts.
      destruct (Z.eqb_spec (replicas bm) 0) as [?|_]; [lia|].
      rewrite Hh. simpl. unfold updateHostListFromCoordinator. rewrite Hc.
      by eexists _, _.
    + intros Hopen. apply openSegment_dies_when_open; [lia|done].
  - intros HR Ho. unfold openSegment, selectOpenHosts. rewrite HR. simpl.
    rewrite Ho. simpl. eexists _, _. split; [done|]. split; [by destruct bm; simpl in *; subst|].
    split; [|done]. by rewrite filter_cons_False by (by intros []).
  - intros c l calls. by apply run_idle.
Qed.

(** *** One round of the selection loop *)

Lemma mod_window_inj (r N j1 j2 : Z) :
  0 < N → 0 ≤ j1 < N → 0 ≤ j2 < N →
  (r + j1) mod N = (r + j2) mod N → j1 = j2.
Proof.
  intros HN H1 H2 E.
  pose proof (Z.div_mod (r + j1) N ltac:(lia)) as E1.
  pose proof (Z.div_mod (r + j2) N ltac:(lia)) as E2.
  rewrite E in E1.
  assert (Hq : N * ((r + j1) / N - (r + j2) / N) = j1 - j2) by lia.
  assert ((r + j1) / N - (r + j2) / N = 0) by nia.
  nia.
Qed.

Lemma slot_lt (l : list Entry) r j : l ≠ [] → (slot l r j < length l)%nat.
Proof.
  intros Hl. unfold slot, server_size.
  assert (0 < Z.of_nat (length l)) by (destruct l; simpl; [done|lia]).
  pose proof (Z.mod_pos_bound (r + Z.of_nat j) (Z.of_nat (length l)) ltac:(lia)).
  lia.
Qed.

Lemma slot_inj (l : list Entry) r j1 j2 :
  (j1 < length l)%nat → (j2 < length l)%nat →
  slot l r j1 = slot l r j2 → j1 = j2.
Proof.
  intros H1 H2 E. unfold slot, server_size in E.
  assert (0 < Z.of_nat (length l)) by lia.
  pose proof (Z.mod_pos_bound (r + Z.of_nat j1) (Z.of_nat (length l)) ltac:(lia)).
  pose proof (Z.mod_pos_bound (r + Z.of_nat j2) (Z.of_nat (length l)) ltac:(lia)).
  apply Z2Nat.inj in E; [|lia..].
  apply mod_window_inj in E; lia.
Qed.

Lemma visit_Some (l : list Entry) r j :
  l ≠ [] → ∃ e, l !! slot l r j = Some e ∧ visit l r j = Some (slot l r j, e).
Proof.
  intros Hl. destruct (lookup_lt_is_Some_2 l (slot l r j)) as [e He].
  { by apply slot_lt. }
  exists e. split; [done|]. unfold visit. by rewrite He.
Qed.

Lemma scan_from_step (l : list Entry) r j e :
  (j < length l)%nat → l !! slot l r j = Some e →
  scan_from l r j = (slot l r j, e) :: scan_from l r (S j).
Proof.
  intros Hj He. unfold scan_from.
  replace (length l - j)%nat with (S (length l - S j)) by lia.
  simpl. unfold visit at 1. rewrite He. done.
Qed.

Lemma scan_slots (l : list Entry) r (js : list nat) :
  l ≠ [] → (omap (visit l r) js).*1 = slot l r <$> js.
Proof.
  intros Hl. induction js as [|j js IH]; [done|].
  destruct (visit_Some l r j Hl) as (e & _ & Hv).
  change (omap (visit l r) (j :: js))
    with (match visit l r j with
          | Some y => y :: omap (visit l r) js
          | None => omap (visit l r) js
          end).
  by rewrite Hv, !fmap_cons, IH.
Qed.

Lemma scan_NoDup (l : list Entry) r : l ≠ [] → NoDup (scan_from l r 0).*1.
Proof.
  intros Hl. unfold scan_from. rewrite scan_slots by done.
  apply NoDup_fmap_2_strong; [|apply NoDup_seq].
  intros j1 j2 [_ H1]%elem_of_seq [_ H2]%elem_of_seq. apply slot_inj; lia.
Qed.

Lemma scan_elem (l : list Entry) r j k e :
  (k, e) ∈ scan_from l r j → l !! k = Some e.
Proof.
  unfold scan_from. intros (i & _ & Hv)%list_elem_of_omap.
  unfold visit in Hv. apply fmap_Some in Hv as (e' & He' & [= -> ->]). done.
Qed.

Lemma backups_imap (l : list Entry) (f : nat → nat) :
  length (filter (λ ke : nat * Entry, server_type ke.2 = BACKUP)
            (imap (λ k e, (f k, e)) l)) = backups l.
Proof.
  revert f. unfold backups. induction l as [|e l IH]; intros f; [done|].
  rewrite imap_cons, !filter_cons. simpl.
  specialize (IH (f ∘ S)). unfold compose in *.
  destruct (decide (server_type e = BACKUP)); simpl; by rewrite IH.
Qed.

Lemma scan_backups (l : list Entry) r :
  l ≠ [] →
  length (filter (λ ke : nat * Entry, server_type ke.2 = BACKUP)
            (scan_from l r 0)) = backups l.
Proof.
  intros Hl. rewrite <- (backups_imap l id).
  assert (Hperm : scan_from l r 0 ≡ₚ imap (λ k e, (id k, e)) l).
  { apply submseteq_length_Permutation.
    - apply NoDup_submseteq.
      + eapply NoDup_fmap_1, scan_NoDup. done.
      + intros [k e] Hin. apply elem_of_lookup_imap. exists k, e.
        split; [done|]. by eapply scan_elem.
    - rewrite length_imap.
      rewrite <- (length_fmap fst (scan_from l r 0)). unfold scan_from.
      rewrite scan_slots by done. rewrite length_fmap, length_seq. lia. }
  by rewrite Hperm.
Qed.

Lemma selectLoop_round (l : list Entry) r0 R :
  l ≠ [] → server_size l < 2 ^ 32 → 0 ≤ r0 → r0 + server_size l ≤ 2 ^ 64 →
  R < 2 ^ 32 →
  ∀ m j fuel i rnd acc tr,
    (j + m = length l)%nat → (m < fuel)%nat → 0 ≤ i ≤ R →
    ((j < length l)%nat → rnd = r0 + Z.of_nat j) →
    R - i ≤ Z.of_nat (length (filter (λ ke : nat * Entry, server_type ke.2 = BACKUP)
                                (scan_from l r0 j))) →
    selectLoop fuel l (server_size l) R i rnd acc tr =
      Some (acc ++ (client_of <$>
                      take (Z.to_nat (R - i))
                        (filter (λ ke : nat * Entry, server_type ke.2 = BACKUP)
                           (scan_from l r0 j))),
            tr ++ (take (Z.to_nat (R - i))
                     (filter (λ ke : nat * Entry, server_type ke.2 = BACKUP)
                        (scan_from l r0 j)) ≫= select_events)).
Proof.
  intros Hl Hsize Hr0 Hwin HR.
  assert (HN : 0 < server_size l).
  { unfold server_size. destruct l; simpl; [done|lia]. }
  induction m as [|m IH]; intros j fuel i rnd acc tr Hj Hfuel Hi Hrnd Hcount.
  - destruct fuel as [|fuel]; [lia|].
    assert (Es : scan_from l r0 j = []).
    { unfold scan_from. by replace (length l - j)%nat with 0%nat by lia. }
    rewrite Es in *. simpl in Hcount. simpl.
    destruct (Z.ltb_spec i R); [lia|].
    replace (Z.to_nat (R - i)) with 0%nat by lia. simpl.
    by rewrite !app_nil_r.
  - destruct fuel as [|fuel]; [lia|]. cbn [selectLoop].
    destruct (Z.ltb_spec i R) as [Hlt|Hge].
    + rewrite Hrnd by lia.
      pose proof (Z.mod_pos_bound (r0 + Z.of_nat j) (server_size l) HN) as Hb.
      assert (Ei : Z.to_nat (wrap32 ((r0 + Z.of_nat j) mod server_size l))
                   = slot l r0 j).
      { unfold slot, wrap32. by rewrite (Z.mod_small _ (2 ^ 32)) by lia. }
      rewrite Ei. destruct (visit_Some l r0 j Hl) as (e & He & _). rewrite He.
      rewrite (scan_from_step l r0 j e) in * by (done || lia).
      assert (Ernd : (S j < length l)%nat →
                wrap64 (r0 + Z.of_nat j + 1) = r0 + Z.of_nat (S j)).
      { intros Hs. unfold wrap64, server_size in *.
        rewrite Z.mod_small by lia. lia. }
      destruct (decide (server_type e = BACKUP)) as [Hb'|Hb'].
      * rewrite filter_cons_True in * by done.
        assert (Ei1 : wrap32 (i + 1) = i + 1).
        { unfold wrap32. apply Z.mod_small. lia. }
        rewrite Ei1.
        rewrite (IH (S j) fuel (i + 1)); [|lia|lia|lia|done|simpl in Hcount; lia].
        replace (Z.to_nat (R - i)) with (S (Z.to_nat (R - (i + 1)))) by lia.
        simpl. by rewrite <- !app_assoc.
      * rewrite filter_cons_False in * by done.
        by rewrite (IH (S j) fuel i); [|lia|lia|lia|done|done].
    + replace (Z.to_nat (R - i)) with 0%nat by lia. simpl.
      by rewrite !app_nil_r.
Qed.

(** *** The selection loop comes to an end *)

Lemma selectLoop_S fuel (l : list Entry) N R i rnd acc tr :
  selectLoop (S fuel) l N R i rnd acc tr =
  if i <? R then
    match l !! Z.to_nat (wrap32 (rnd mod N)) with
    | None => None
    | Some host =>
        if decide (server_type host = BACKUP) then
          selectLoop fuel l N R (wrap32 (i + 1)) (wrap64 (rnd + 1))
            (acc ++ [ {| client_session := getSession (service_locator host) |} ])
            (tr ++ [LogMessage DEBUG "Backing up to %s"
                      [ArgStr (service_locator host)];
                    TransportGetSession (service_locator host)])
        else selectLoop fuel l N R i (wrap64 (rnd + 1)) acc tr
    end
  else Some (acc, tr).
Proof. reflexivity. Qed.

Lemma selectLoop_more_fuel fuel (l : list Entry) N R i rnd acc tr x :
  selectLoop fuel l N R i rnd acc tr = Some x →
  selectLoop (S fuel) l N R i rnd acc tr = Some x.
Proof.
  revert i rnd acc tr. induction fuel as [|fuel IH]; intros i rnd acc tr; [done|].
  intros Hl. rewrite selectLoop_S in Hl. rewrite (selectLoop_S (S fuel)).
  destruct (i <? R); [|done].
  destruct (l !! Z.to_nat (wrap32 (rnd mod N))) as [host|]; [|done].
  destruct (decide (server_type host = BACKUP)); by apply IH.
Qed.

Lemma selectLoop_fuel_le fuel fuel' (l : list Entry) N R i rnd acc tr x :
  (fuel ≤ fuel')%nat →
  selectLoop fuel l N R i rnd acc tr = Some x →
  selectLoop fuel' l N R i rnd acc tr = Some x.
Proof.
  induction 1 as [|fuel' _ IH]; [done|].
  intros Hl. by apply selectLoop_more_fuel, IH.
Qed.

(** From any random number a BACKUP entry comes up after some steps, also
    when the number wraps on the way. *)
Lemma backup_ahead (l : list Entry) rnd :
  (1 ≤ backups l)%nat → server_size l < 2 ^ 31 → 0 ≤ rnd < 2 ^ 64 →
  ∃ (t : nat) e,
    l !! Z.to_nat (wrap32 (wrap64 (rnd + Z.of_nat t) mod server_size l)) = Some e ∧
    server_type e = BACKUP.
Proof.
  intros Hb Hsize Hrnd.
  assert (Hl : l ≠ []) by (intros ->; unfold backups in Hb; simpl in Hb; lia).
  assert (HN : 0 < server_size l).
  { unfold server_size. destruct l; simpl; [done|lia]. }
  set (r0 := if decide (rnd + server_size l ≤ 2 ^ 64) then rnd else 0).
  set (t0 := if decide (rnd + server_size l ≤ 2 ^ 64) then 0 else 2 ^ 64 - rnd).
  assert (Hr0 : 0 ≤ r0 ∧ r0 + server_size l ≤ 2 ^ 64 ∧ 0 ≤ t0 ∧
                ∀ j, 0 ≤ j < server_size l → wrap64 (rnd + (t0 + j)) = r0 + j).
  { subst r0 t0. unfold wrap64.
    destruct (decide (rnd + server_size l ≤ 2 ^ 64)).
    - split_and!; try lia. intros j Hj. rewrite Z.mod_small; lia.
    - split_and!; try lia. intros j Hj.
      replace (rnd + (2 ^ 64 - rnd + j)) with (j + 1 * 2 ^ 64) by lia.
      rewrite Z.mod_add by lia. rewrite Z.mod_small; lia. }
  destruct Hr0 as (Hr0 & Hwin & Ht0 & Hwrap).
  pose proof (scan_backups l r0 Hl) as Hcount.
  destruct (filter (λ ke : nat * Entry, server_type ke.2 = BACKUP)
              (scan_from l r0 0)) as [|[k e] rest] eqn:Ef.
  { simpl in Hcount. lia. }
  assert (Hin : (k, e) ∈ filter (λ ke : nat * Entry, server_type ke.2 = BACKUP)
                          (scan_from l r0 0)) by (rewrite Ef; left).
  apply list_elem_of_filter in Hin as [Hbk Hin]. simpl in Hbk.
  unfold scan_from in Hin. apply list_elem_of_omap in Hin as (j & Hj & Hv).
  apply elem_of_seq in Hj as [_ Hj]. unfold visit in Hv.
  apply fmap_Some in Hv as (e' & He' & [= -> ->]).
  exists (Z.to_nat t0 + j)%nat, e'. split; [|done].
  replace (Z.of_nat (Z.to_nat t0 + j)) with (t0 + Z.of_nat j) by lia.
  unfold server_size in *. rewrite Hwrap by lia.
  pose proof (Z.mod_pos_bound (r0 + Z.of_nat j) (Z.of_nat (length l)) HN).
  unfold wrap32. rewrite (Z.mod_small _ (2 ^ 32)) by lia. exact He'.
Qed.

Lemma selectLoop_terminates (l : list Entry) R :
  (1 ≤ backups l)%nat → server_size l < 2 ^ 31 → R < 2 ^ 32 →
  ∀ (k : nat) i rnd acc tr,
    0 ≤ i → R - i ≤ Z.of_nat k → 0 ≤ rnd < 2 ^ 64 →
    ∃ fuel x, selectLoop fuel l (server_size l) R i rnd acc tr = Some x.
Proof.
  intros Hb Hsize HR.
  assert (HN : 0 < server_size l).
  { unfold server_size, backups in *. destruct l; simpl in *; lia. }
  induction k as [|k IHk]; intros i rnd acc tr Hi Hk Hrnd.
  { exists 1%nat. eexists. simpl. by destruct (Z.ltb_spec i R); [lia|]. }
  destruct (backup_ahead l rnd Hb Hsize Hrnd) as (t & e & Ht & He).
  revert rnd acc tr Hrnd Ht. induction t as [|t IHt]; intros rnd acc tr Hrnd Ht.
  - destruct (Z.ltb_spec i R) as [Hlt|Hge].
    2:{ exists 1%nat. eexists. simpl. by destruct (Z.ltb_spec i R); [lia|]. }
    assert (Ew : wrap64 (rnd + Z.of_nat 0) = rnd).
    { unfold wrap64. simpl. rewrite Z.add_0_r. apply Z.mod_small. lia. }
    rewrite Ew in Ht.
    edestruct (IHk (wrap32 (i + 1)) (wrap64 (rnd + 1))) as (fuel & x & Hx).
    { unfold wrap32. rewrite Z.mod_small; lia. }
    { unfold wrap32. rewrite Z.mod_small; lia. }
    { unfold wrap64. apply Z.mod_pos_bound. lia. }
    exists (S fuel), x. cbn [selectLoop].
    destruct (Z.ltb_spec i R); [|lia]. rewrite Ht.
    destruct (decide (server_type e = BACKUP)); [|done]. exact Hx.
  - destruct (Z.ltb_spec i R) as [Hlt|Hge].
    2:{ exists 1%nat. eexists. simpl. by destruct (Z.ltb_spec i R); [lia|]. }
    pose proof (Z.mod_pos_bound rnd (server_size l) HN) as Hm.
    destruct (lookup_lt_is_Some_2 l (Z.to_nat (wrap32 (rnd mod server_size l))))
      as [host Hhost].
    { unfold wrap32, server_size in *. rewrite (Z.mod_small _ (2 ^ 32)) by lia. lia. }
    destruct (decide (server_type host = BACKUP)) as [Hbk|Hbk].
    + edestruct (IHk (wrap32 (i + 1)) (wrap64 (rnd + 1))) as (fuel & x & Hx).
      { unfold wrap32. rewrite Z.mod_small; lia. }
      { unfold wrap32. rewrite Z.mod_small; lia. }
      { unfold wrap64. apply Z.mod_pos_bound. lia. }
      exists (S fuel), x. cbn [selectLoop].
      destruct (Z.ltb_spec i R); [|lia]. rewrite Hhost.
      destruct (decide (server_type host = BACKUP)); [|done]. exact Hx.
    + edestruct (IHt (wrap64 (rnd + 1)) acc tr) as (fuel & x & Hx).
      { unfold wrap64. apply Z.mod_pos_bound. lia. }
      { rewrite <- Ht. do 4 f_equal. unfold wrap64.
        rewrite Z.add_mod_idemp_l by lia. f_equal. lia. }
      exists (S fuel), x. cbn [selectLoop].
      destruct (Z.ltb_spec i R); [|lia]. rewrite Hhost.
      destruct (decide (server_type host = BACKUP)); [done|]. exact Hx.
Qed.

(** With fuel enough, [openSegment] returns or ends in [DIE]. *)
Lemma openSegment_returns_or_dies env masterId segmentId (bm : state) :
  0 ≤ replicas bm < 2 ^ 32 → server_size (hosts bm) < 2 ^ 31 →
  server_size (serverList env) < 2 ^ 31 → 0 ≤ random env < 2 ^ 64 →
  ∃ fuel0 r, ∀ fuel, (fuel0 ≤ fuel)%nat →
    openSegment fuel env masterId segmentId bm = Some r.
Proof.
  intros HR Hsize Hsize' Hrnd. unfold openSegment, selectOpenHosts.
  destruct (Z.eqb_spec (replicas bm) 0) as [?|Hne]; [by exists 0%nat; eexists|].
  set (r := if server_size (hosts bm) =? 0
            then updateHostListFromCoordinator env bm else Returned bm []).
  assert (Hr : match r with
               | Died _ _ => True
               | Returned bm1 _ =>
                   replicas bm1 = replicas bm ∧ server_size (hosts bm1) < 2 ^ 31
               end).
  { subst r. destruct (server_size (hosts bm) =? 0); [|done].
    unfold updateHostListFromCoordinator. by destruct (coordinator bm). }
  destruct r as [msg tr1|bm1 tr1]; [by exists 0%nat; eexists|].
  destruct Hr as [ER Hs1]. rewrite ER.
  rewrite countBackupClients_backups by done.
  destruct (Z.ltb_spec (Z.of_nat (backups (hosts bm1))) (replicas bm)) as [?|Hge];
    [by exists 0%nat; eexists|].
  destruct (negb (bool_decide (openHosts bm1 = []))); [by exists 0%nat; eexists|].
  assert (EN : wrap32 (server_size (hosts bm1)) = server_size (hosts bm1)).
  { unfold wrap32, server_size in *. apply Z.mod_small. lia. }
  rewrite EN.
  destruct (selectLoop_terminates (hosts bm1) (replicas bm) ltac:(lia) Hs1 ltac:(lia)
              (Z.to_nat (replicas bm)) 0 (random env) (openHosts bm1) tr1
              ltac:(lia) ltac:(lia) Hrnd) as (fuel0 & [clients tr2] & Hl).
  exists fuel0. eexists. intros fuel Hfuel.
  by rewrite (selectLoop_fuel_le _ _ _ _ _ _ _ _ _ _ Hfuel Hl).
Qed.

(** *** The [segments] multimap *)

Lemma multimap_count_insert k v (m : list (Z * Session)) :
  multimap_count k (multimap_insert k v m) = S (multimap_count k m).
Proof.
  unfold multimap_count. induction m as [|[k' v'] m IH]; [simpl|].
  { by rewrite filter_cons_True by done. }
  simpl. destruct (k' <=? k).
  - rewrite !filter_cons. simpl. destruct (decide (k' = k)); simpl; by rewrite IH.
  - by rewrite (filter_cons_True _ (k, v)) by done.
Qed.

Lemma multimap_count_insert_all k (m : list (Z * Session))
    (clients : list BackupClient) :
  multimap_count k
    (foldl (λ m host, multimap_insert k (client_session host) m) m clients) =
  (multimap_count k m + length clients)%nat.
Proof.
  revert m. induction clients as [|c clients IH]; intros m; simpl; [lia|].
  rewrite IH, multimap_count_insert. lia.
Qed.

Lemma chosen_facts (l : list Entry) r R :
  l ≠ [] → 0 ≤ R ≤ Z.of_nat (backups l) →
  NoDup (chosen l r R).*1 ∧
  Z.of_nat (length (chosen l r R)) = R ∧
  ∀ k e, (k, e) ∈ chosen l r R → l !! k = Some e ∧ server_type e = BACKUP.
Proof.
  intros Hl HR. unfold chosen. split_and!.
  - apply (sublist_NoDup _ (scan_from l r 0).*1); [by apply scan_NoDup|].
    apply fmap_sublist. etrans; [apply sublist_take|apply sublist_filter].
  - rewrite length_take_le; [lia|]. rewrite scan_backups by done. lia.
  - intros k e Hin. apply subseteq_take in Hin.
    apply list_elem_of_filter in Hin as [Hb Hin]. split; [|done].
    by eapply scan_elem.
Qed.

(** C4, as amended.  On a manager without open hosts and with
    [replicas > 0], after [setHostList l] with at least [replicas] BACKUP
    entries in [l], when the random number does not wrap around during
    one round over [l]: [openSegment] returns, having chosen [replicas]
    entries of [l] at distinct slots, all of type BACKUP; it opens one
    session and one client for each, calls the remote [openSegment] on
    each client, never asks the coordinator, and adds exactly [replicas]
    entries under [segmentId] to the [segments] multimap. *)
Theorem openSegment_opens_replicas fuel env masterId segmentId
    (bm : state) (l : list Entry) :
  0 < replicas bm < 2 ^ 32 → openHosts bm = [] →
  server_size l < 2 ^ 31 → replicas bm ≤ Z.of_nat (backups l) →
  0 ≤ random env → random env + server_size l ≤ 2 ^ 64 →
  (length l < fuel)%nat →
  let picked := chosen l (random env) (replicas bm) in
  NoDup picked.*1 ∧
  Z.of_nat (length picked) = replicas bm ∧
  (∀ k e, (k, e) ∈ picked → l !! k = Some e ∧ server_type e = BACKUP) ∧
  ∃ bm' tr,
    openSegment fuel env masterId segmentId (setHostList l bm) =
      Some (Returned bm' tr) ∧
    tr = TestLog "%lu, %lu" [ArgNum masterId; ArgNum segmentId] ::
         ((picked ≫= select_events) ++
          map (λ host, ClientOpenSegment (client_session host) masterId segmentId)
              (client_of <$> picked)) ∧
    (CoordinatorGetServerList ∉ tr) ∧
    openHosts bm' = client_of <$> picked ∧
    hosts bm' = l ∧ replicas bm' = replicas bm ∧
    multimap_count segmentId (segments bm') =
      (multimap_count segmentId (segments bm) + Z.to_nat (replicas bm))%nat.
Proof.
  intros HR Ho Hsize Hcount Hr0 Hwin Hfuel picked.
  assert (Hl : l ≠ []).
  { intros ->. unfold backups in Hcount. simpl in Hcount. lia. }
  destruct (chosen_facts l (random env) (replicas bm) Hl ltac:(lia))
    as (Hnd & Hlen & Hin).
  do 3 (split; [done|]).
  assert (HN : 0 < server_size l).
  { unfold server_size. destruct l; simpl; [done|lia]. }
  unfold openSegment, selectOpenHosts, setHostList. simpl.
  destruct (Z.eqb_spec (replicas bm) 0) as [?|_]; [lia|].
  destruct (Z.eqb_spec (server_size l) 0) as [?|_]; [lia|]. simpl.
  rewrite countBackupClients_backups by done.
  destruct (Z.ltb_spec (Z.of_nat (backups l)) (replicas bm)) as [?|_]; [lia|].
  rewrite Ho. simpl.
  assert (EN : wrap32 (server_size l) = server_size l).
  { unfold wrap32. apply Z.mod_small. lia. }
  rewrite EN.
  rewrite (selectLoop_round l (random env) (replicas bm) Hl ltac:(lia) Hr0 Hwin
             ltac:(lia) (length l) 0%nat fuel 0 (random env) [] []);
    [|lia|done|lia|intros _; simpl; lia|rewrite scan_backups by done; lia].
  rewrite Z.sub_0_r. fold (chosen l (random env) (replicas bm)). fold picked.
  simpl. eexists _, _. split; [done|]. split; [done|]. split.
  { intros [Hx|Hx]%elem_of_cons; [done|].
    apply elem_of_app in Hx as [Hx|Hx].
    - apply list_elem_of_bind in Hx as (ke & Hx & _).
      unfold select_events in Hx.
      apply elem_of_cons in Hx as [Hx|Hx]; [done|].
      by apply list_elem_of_singleton in Hx.
    - apply list_elem_of_fmap in Hx as (c & Hx & _). done. }
  do 3 (split; [done|]). cbn [segments set_segments].
  rewrite multimap_count_insert_all, length_fmap. subst picked. lia.
Qed.

(** *** Sequences of [openSegment] and [closeSegment] *)

Lemma run_inv fuel (calls : list Call) (bm bm' : state) tr :
  0 ≤ replicas bm < 2 ^ 32 →
  (replicas bm = 0 → openHosts bm = []) →
  run fuel calls bm = Some (Returned bm' tr) →
  replicas bm' = replicas bm ∧
  (replicas bm = 0 → openHosts bm' = []) ∧
  match last calls with
  | None => openHosts bm' = openHosts bm
  | Some c =>
      if is_close c then openHosts bm' = []
      else 0 < replicas bm → Z.of_nat (length (openHosts bm')) = replicas bm
  end.
Proof.
  revert bm tr. induction calls as [|c calls IH]; intros bm tr HR H0;
    cbn [run last].
  { by intros [= <- <-]. }
  set (r := call fuel c bm).
  assert (Hr : ∀ bm1 tr1, r = Some (Returned bm1 tr1) →
            replicas bm1 = replicas bm ∧
            (replicas bm = 0 → openHosts bm1 = []) ∧
            (if is_close c then openHosts bm1 = []
             else 0 < replicas bm →
                  Z.of_nat (length (openHosts bm1)) = replicas bm)).
  { subst r. intros bm1 tr1. unfold call.
    destruct c as [env masterId segmentId|masterId segmentId].
    - intros Ho. destruct (openSegment_inv _ _ _ _ _ _ _ HR Ho) as (ER & E0 & Hpos).
      split; [done|]. split; [|intros Hp; by destruct (Hpos Hp)].
      intros Hz. rewrite (E0 Hz). by apply H0.
    - by intros [= <- <-]. }
  destruct r as [[msg tr1|bm1 tr1]|]; [done| |done].
  destruct (Hr bm1 tr1 eq_refl) as (ER & E0 & Hc).
  destruct (run fuel calls bm1) as [[msg tr2|bm2 tr2]|] eqn:Erun; [done| |done].
  intros [= <- <-].
  destruct (IH bm1 tr2) as (ER2 & E02 & Hlast); [by rewrite ER|by rewrite ER|done|].
  split; [congruence|]. split; [by rewrite <- ER|].
  destruct calls as [|c' calls'].
  - cbn [last] in *. rewrite Hlast. done.
  - change (last (c :: c' :: calls')) with (last (c' :: calls')).
    destruct (last (c' :: calls')) as [c2|] eqn:El.
    + by rewrite <- ER.
    + by apply last_None in El.
Qed.

Lemma openSegment_hosts fuel env masterId segmentId (bm bm' : state) tr :
  openSegment fuel env masterId segmentId bm = Some (Returned bm' tr) →
  hosts bm' = hosts bm ∨ hosts bm' = serverList env.
Proof.
  unfold openSegment, selectOpenHosts.
  destruct (replicas bm =? 0); [intros [= <- _]; by left|].
  set (r := if server_size (hosts bm) =? 0
            then updateHostListFromCoordinator env bm else Returned bm []).
  assert (Hr : match r with
               | Died _ _ => True
               | Returned bm1 _ =>
                   hosts bm1 = hosts bm ∨ hosts bm1 = serverList env
               end).
  { subst r. destruct (server_size (hosts bm) =? 0); [|by left].
    unfold updateHostListFromCoordinator. destruct (coordinator bm); [by right|done]. }
  destruct r as [msg tr1|bm1 tr1]; [done|].
  destruct (countBackupClients (hosts bm1) <? replicas bm1); [done|].
  destruct (negb (bool_decide (openHosts bm1 = []))); [done|].
  destruct (selectLoop fuel (hosts bm1) _ (replicas bm1) 0 (random env)
              (openHosts bm1) tr1) as [[clients tr2]|]; [|done].
  by intros [= <- _].
Qed.

(** With fuel enough, a sequence of calls runs to its end or to a [DIE]. *)
Lemma run_returns_or_dies (calls : list Call) (bm : state) :
  0 ≤ replicas bm < 2 ^ 32 → server_size (hosts bm) < 2 ^ 31 →
  Forall call_in_range calls →
  ∃ fuel0 r, ∀ fuel, (fuel0 ≤ fuel)%nat → run fuel calls bm = Some r.
Proof.
  intros HR Hsize Hcalls. revert bm HR Hsize.
  induction Hcalls as [|c calls Hc _ IH]; intros bm HR Hsize.
  { exists 0%nat. by eexists. }
  assert (Hcall : ∃ fuel0 r, (∀ fuel, (fuel0 ≤ fuel)%nat → call fuel c bm = Some r) ∧
            match r with
            | Died _ _ => True
            | Returned bm1 _ =>
                replicas bm1 = replicas bm ∧ server_size (hosts bm1) < 2 ^ 31
            end).
  { destruct c as [env masterId segmentId|masterId segmentId]; simpl in *.
    - destruct Hc as [Hs Hrnd].
      destruct (openSegment_returns_or_dies env masterId segmentId bm HR Hsize Hs Hrnd)
        as (fuel0 & r & Hr).
      exists fuel0, r. split; [done|]. destruct r as [msg tr1|bm1 tr1]; [done|].
      specialize (Hr fuel0 ltac:(lia)).
      split; [by eapply openSegment_inv|].
      by destruct (openSegment_hosts _ _ _ _ _ _ _ Hr) as [->| ->].
    - exists 0%nat. eexists. split; [done|]. done. }
  destruct Hcall as (fuel0 & r & Hr & Hbm).
  destruct r as [msg tr1|bm1 tr1].
  { exists fuel0. eexists. intros fuel Hfuel. cbn [run]. by rewrite (Hr fuel Hfuel). }
  destruct Hbm as [ER Hs1].
  destruct (IH bm1 ltac:(by rewrite ER) Hs1) as (fuel1 & r1 & Hr1).
  exists (fuel0 `max` fuel1)%nat.
  exists (match r1 with
          | Died message tr2 => Died message (tr1 ++ tr2)
          | Returned bm2 tr2 => Returned bm2 (tr1 ++ tr2)
          end).
  intros fuel Hfuel. cbn [run].
  rewrite (Hr fuel ltac:(lia)), (Hr1 fuel ltac:(lia)). by destruct r1.
Qed.

(** C3, as amended.  Along a sequence of [openSegment] and
    [closeSegment] calls that runs to its end on a manager that starts
    with no open hosts: after a [closeSegment] (or no call at all)
    [openHosts] is empty; with [replicas > 0] it is empty only then, for
    after an [openSegment] it has [replicas] clients; with
    [replicas == 0] it is empty throughout.  [closeSegment] sends one
    close to each client of [openHosts] in order, empties [openHosts] and
    leaves the [segments] multimap as it is. *)
Theorem openHosts_empty_iff_closed_last fuel (calls : list Call)
    (bm bm' : state) tr :
  0 ≤ replicas bm < 2 ^ 32 → openHosts bm = [] →
  run fuel calls bm = Some (Returned bm' tr) →
  (closed_last calls → openHosts bm' = []) ∧
  (0 < replicas bm → openHosts bm' = [] → closed_last calls) ∧
  (0 < replicas bm → ¬ closed_last calls →
   Z.of_nat (length (openHosts bm')) = replicas bm) ∧
  (replicas bm = 0 → openHosts bm' = []) ∧
  (∀ masterId segmentId,
     closeSegment masterId segmentId bm' =
       (set_openHosts [] bm',
        TestLog "%lu, %lu" [ArgNum masterId; ArgNum segmentId] ::
        map (λ host, ClientCloseSegment (client_session host) masterId segmentId)
            (openHosts bm')) ∧
     segments (closeSegment masterId segmentId bm').1 = segments bm').
Proof.
  intros HR Ho Hrun.
  destruct (run_inv _ _ _ _ _ HR (λ _, Ho) Hrun) as (ER & E0 & Hlast).
  unfold closed_last. destruct (last calls) as [c|].
  - destruct (is_close c) eqn:Ec.
    + split_and!; try done.
    + split_and!; try done.
      * intros Hpos Hnil. specialize (Hlast Hpos). rewrite Hnil in Hlast.
        simpl in Hlast. lia.
      * intros Hpos _. by apply Hlast.
  - split_and!; try done; try congruence.
Qed.

(** *** Recovery *)

Lemma recover_loop_app masterId tablets st w (l1 l2 : list Entry) :
  recover_loop masterId tablets st w (l1 ++ l2) =
  let '(st1, w1, tr1) := recover_loop masterId tablets st w l1 in
  let '(st2, w2, tr2) := recover_loop masterId tablets st1 w1 l2 in
  (st2, w2, tr1 ++ tr2).
Proof.
  revert st w. induction l1 as [|e l1 IH]; intros st w; simpl.
  { by destruct (recover_loop masterId tablets st w l2) as [[st2 w2] tr2]. }
  destruct (recover_entry masterId tablets st w e) as [[st1 w1] ev].
  rewrite IH.
  destruct (recover_loop masterId tablets st1 w1 l1) as [[st2 w2] tr2].
  destruct (recover_loop masterId tablets st2 w2 l2) as [[st3 w3] tr3].
  by rewrite app_assoc.
Qed.

Lemma recover_entry_cases masterId tablets st w (e : Entry) :
  match segment_id e with
  | None =>
      recover_entry masterId tablets st w e =
      (st, w,
       [LogMessage WARNING
          "ServerList of backups for recovery must contain segmentIds" []])
  | Some id =>
      if bool_decide (wasRecovered st = true ∧ segmentIdToRecover st = id) then
        recover_entry masterId tablets st w e =
        (st, w,
         [TestLog "skipping %s, already recovered %lu"
            [ArgStr (service_locator e); ArgNum id]])
      else if bool_decide (server_type e = BACKUP) then
        let ev0 := if wasRecovered st then []
                   else [failed_to_recover (segmentIdToRecover st)] in
        let call := ClientGetRecoveryData (service_locator e) masterId id in
        match getRecoveryData w (service_locator e) masterId id tablets with
        | (TransportException message, w') =>
            recover_entry masterId tablets st w e =
            ({| segmentIdToRecover := id; wasRecovered := false |}, w',
             ev0 ++ [call;
               LogMessage WARNING
                 "Couldn't contact %s, trying next backup; failure was: %s"
                 [ArgStr (service_locator e); ArgStr message]])
        | (ClientException message, w') =>
            recover_entry masterId tablets st w e =
            ({| segmentIdToRecover := id; wasRecovered := false |}, w',
             ev0 ++ [call;
               LogMessage WARNING
                 "getRecoveryData failed on %s, trying next backup; failure was: %s"
                 [ArgStr (service_locator e); ArgStr message]])
        | (RecoveryData resp, w') =>
            recover_entry masterId tablets st w e =
            ({| segmentIdToRecover := id; wasRecovered := true |}, w',
             ev0 ++ [call; RecoverSegment id resp])
        end
      else
        recover_entry masterId tablets st w e =
        (st, w,
         [LogMessage WARNING
            "ServerList of backups for recovery shouldn't contain MASTERs" []])
  end.
Proof.
  unfold recover_entry. destruct (segment_id e) as [id|]; [|done].
  destruct (wasRecovered st) eqn:Ew; simpl.
  - destruct (Z.eqb_spec (segmentIdToRecover st) id) as [Ei|Hne].
    + rewrite bool_decide_true by done. by rewrite Ei.
    + rewrite bool_decide_false by (by intros [_ ?]).
      destruct (bool_decide (server_type e = BACKUP)); simpl; [|done].
      by destruct (getRecoveryData w (service_locator e) masterId id tablets)
        as [[resp|msg|msg] w'].
  - destruct (bool_decide (server_type e = BACKUP)); simpl; [|done].
    by destruct (getRecoveryData w (service_locator e) masterId id tablets)
      as [[resp|msg|msg] w'].
Qed.

Lemma recover_entry_attempt masterId tablets st w (e : Entry) st' w' ev :
  recover_entry masterId tablets st w e = (st', w', ev) →
  foldl track_attempt (segmentIdToRecover st, wasRecovered st) ev =
  (segmentIdToRecover st', wasRecovered st').
Proof.
  pose proof (recover_entry_cases masterId tablets st w e) as Hc.
  destruct (segment_id e) as [id|]; [|by rewrite Hc; intros [= <- <- <-]].
  destruct (bool_decide _); [by rewrite Hc; intros [= <- <- <-]|].
  destruct (bool_decide _); [|by rewrite Hc; intros [= <- <- <-]].
  simpl in Hc.
  destruct (getRecoveryData w (service_locator e) masterId id tablets)
    as [[resp|msg|msg] w1]; rewrite Hc; intros [= <- <- <-];
    rewrite foldl_app; by destruct (wasRecovered st).
Qed.

Lemma recover_loop_attempt masterId tablets (l : list Entry) st w st' w' tr :
  recover_loop masterId tablets st w l = (st', w', tr) →
  foldl track_attempt (segmentIdToRecover st, wasRecovered st) tr =
  (segmentIdToRecover st', wasRecovered st').
Proof.
  revert st w tr. induction l as [|e l IH]; intros st w tr; simpl.
  { by intros [= <- <- <-]. }
  destruct (recover_entry masterId tablets st w e) as [[st1 w1] ev] eqn:Ee.
  destruct (recover_loop masterId tablets st1 w1 l) as [[st2 w2] tr2] eqn:El.
  intros [= <- <- <-]. rewrite foldl_app.
  rewrite (recover_entry_attempt _ _ _ _ _ _ _ _ Ee). by eapply IH.
Qed.

(** C6, as amended.  [recover] goes through the list once, in order:
    the run over [pre ++ e :: post] is the run over [pre], the step for
    [e] and the run over [post] from where that step ends.  The two
    locals say what the last attempt was (initially: id [2^64 - 1],
    obtained).  An entry with a segment id is skipped when the last
    attempt was for this id and obtained it.  Otherwise, if it is a
    BACKUP, its recovery data is asked for: on a transport or client
    error a warning is logged and the id is left as not recovered, so
    that the next entry is tried; on success [recoverSegment] gets the
    id and the data, and the id is marked recovered. *)
Theorem recover_walks_the_list_once masterId tablets w
    (pre post : list Entry) (e : Entry) st1 w1 tr1 :
  recover_loop masterId tablets recover_init w pre = (st1, w1, tr1) →
  recover_loop masterId tablets recover_init w (pre ++ e :: post) =
    (let '(st2, w2, ev) := recover_entry masterId tablets st1 w1 e in
     let '(st3, w3, tr3) := recover_loop masterId tablets st2 w2 post in
     (st3, w3, tr1 ++ ev ++ tr3)) ∧
  (segmentIdToRecover st1, wasRecovered st1) = last_attempt tr1 ∧
  ∀ id, segment_id e = Some id →
    (last_attempt tr1 = (id, true) →
     recover_entry masterId tablets st1 w1 e =
     (st1, w1,
      [TestLog "skipping %s, already recovered %lu"
         [ArgStr (service_locator e); ArgNum id]])) ∧
    (last_attempt tr1 ≠ (id, true) → server_type e = BACKUP →
     ∃ outcome w2,
       getRecoveryData w1 (service_locator e) masterId id tablets =
         (outcome, w2) ∧
       let ev0 := if (last_attempt tr1).2 then []
                  else [failed_to_recover (last_attempt tr1).1] in
       let call := ClientGetRecoveryData (service_locator e) masterId id in
       match outcome with
       | RecoveryData resp =>
           recover_entry masterId tablets st1 w1 e =
           ({| segmentIdToRecover := id; wasRecovered := true |}, w2,
            ev0 ++ [call; RecoverSegment id resp])
       | TransportException message =>
           recover_entry masterId tablets st1 w1 e =
           ({| segmentIdToRecover := id; wasRecovered := false |}, w2,
            ev0 ++ [call;
              LogMessage WARNING
                "Couldn't contact %s, trying next backup; failure was: %s"
                [ArgStr (service_locator e); ArgStr message]])
       | ClientException message =>
           recover_entry masterId tablets st1 w1 e =
           ({| segmentIdToRecover := id; wasRecovered := false |}, w2,
            ev0 ++ [call;
              LogMessage WARNING
                "getRecoveryData failed on %s, trying next backup; failure was: %s"
                [ArgStr (service_locator e); ArgStr message]])
       end).
Proof.
  intros Hpre.
  assert (Hst : (segmentIdToRecover st1, wasRecovered st1) = last_attempt tr1).
  { symmetry. by apply (recover_loop_attempt _ _ _ _ _ _ _ _ Hpre). }
  split_and!; [|done|].
  - rewrite recover_loop_app, Hpre. cbn [recover_loop].
    destruct (recover_entry masterId tablets st1 w1 e) as [[st2 w2] ev].
    by destruct (recover_loop masterId tablets st2 w2 post) as [[st3 w3] tr3].
  - intros id Hid. rewrite <- Hst. simpl.
    pose proof (recover_entry_cases masterId tablets st1 w1 e) as Hc.
    rewrite Hid in Hc. split.
    + intros [= Ei Ew]. by rewrite bool_decide_true in Hc.
    + intros Hne Hb. rewrite bool_decide_false in Hc.
      2:{ intros [Ew Ei]. apply Hne. by rewrite Ew, Ei. }
      rewrite bool_decide_true in Hc by done. simpl in Hc.
      destruct (getRecoveryData w1 (service_locator e) masterId id tablets)
        as [outcome w2].
      exists outcome, w2. split; [done|]. by destruct outcome.
Qed.

Lemma recover_entry_fetched masterId tablets w w' l id id0 resp :
  id0 ≠ id →
  getRecoveryData w l masterId id tablets = (RecoveryData resp, w') →
  recover_entry masterId tablets
    {| segmentIdToRecover := id0; wasRecovered := true |} w (backup_for l id) =
  ({| segmentIdToRecover := id; wasRecovered := true |}, w',
   [ClientGetRecoveryData l masterId id; RecoverSegment id resp]).
Proof.
  intros Hne Hg.
  pose proof (recover_entry_cases masterId tablets
                {| segmentIdToRecover := id0; wasRecovered := true |} w
                (backup_for l id)) as Hc.
  simpl in Hc. rewrite bool_decide_false in Hc by (by intros [_ ?]).
  by rewrite Hg in Hc.
Qed.

Lemma recover_entry_skipped masterId tablets w l id :
  recover_entry masterId tablets
    {| segmentIdToRecover := id; wasRecovered := true |} w (backup_for l id) =
  ({| segmentIdToRecover := id; wasRecovered := true |}, w,
   [TestLog "skipping %s, already recovered %lu" [ArgStr l; ArgNum id]]).
Proof.
  pose proof (recover_entry_cases masterId tablets
                {| segmentIdToRecover := id; wasRecovered := true |} w
                (backup_for l id)) as Hc.
  simpl in Hc. by rewrite bool_decide_true in Hc.
Qed.

(** C10.  The skip looks at the last attempt only.  An entry with a
    segment id, of type BACKUP, is passed over without a fetch exactly
    when the last attempt was for its id and obtained it.  So when [X]
    is recovered, then [Y], and [X] is listed again, [X] is fetched and
    replayed a second time, whereas a second source for [X] right after
    the first one is skipped. *)
Theorem recover_dedups_only_neighbours masterId tablets w w1 w2 w3
    X Y l1 l2 l3 r1 r2 r3 :
  X ≠ Y → X ≠ UINT64_MAX →
  getRecoveryData w l1 masterId X tablets = (RecoveryData r1, w1) →
  getRecoveryData w1 l2 masterId Y tablets = (RecoveryData r2, w2) →
  getRecoveryData w2 l3 masterId X tablets = (RecoveryData r3, w3) →
  recover masterId tablets
    [backup_for l1 X; backup_for l2 Y; backup_for l3 X] w =
    (w3, [ClientGetRecoveryData l1 masterId X; RecoverSegment X r1;
          ClientGetRecoveryData l2 masterId Y; RecoverSegment Y r2;
          ClientGetRecoveryData l3 masterId X; RecoverSegment X r3]) ∧
  recover masterId tablets
    [backup_for l1 X; backup_for l3 X; backup_for l2 Y] w =
    (w2, [ClientGetRecoveryData l1 masterId X; RecoverSegment X r1;
          TestLog "skipping %s, already recovered %lu" [ArgStr l3; ArgNum X];
          ClientGetRecoveryData l2 masterId Y; RecoverSegment Y r2]) ∧
  ∀ st w' l id,
    fetches (recover_entry masterId tablets st w' (backup_for l id)).2 = [] ↔
    wasRecovered st = true ∧ segmentIdToRecover st = id.
Proof.
  intros Hxy Hx H1 H2 H3.
  assert (Hyx : Y ≠ X) by done.
  split_and!.
  - unfold recover, recover_init. cbn [recover_loop].
    rewrite (recover_entry_fetched _ _ _ _ _ _ _ _ (not_eq_sym Hx) H1).
    rewrite (recover_entry_fetched _ _ _ _ _ _ _ _ Hxy H2).
    by rewrite (recover_entry_fetched _ _ _ _ _ _ _ _ Hyx H3).
  - unfold recover, recover_init. cbn [recover_loop].
    rewrite (recover_entry_fetched _ _ _ _ _ _ _ _ (not_eq_sym Hx) H1).
    rewrite recover_entry_skipped.
    by rewrite (recover_entry_fetched _ _ _ _ _ _ _ _ Hxy H2).
  - intros st w' l id.
    pose proof (recover_entry_cases masterId tablets st w' (backup_for l id)) as Hc.
    simpl in Hc.
    destruct (bool_decide_reflect
                (wasRecovered st = true ∧ segmentIdToRecover st = id)) as [Hs|Hs].
    + rewrite Hc. done.
    + destruct (getRecoveryData w' l masterId id tablets) as [[resp|msg|msg] w''];
        rewrite Hc; simpl; (split; [|done]);
        unfold fetches; rewrite omap_app; by destruct (wasRecovered st).
Qed.

End Facts.

(** Opening a segment id a second time leaves more than [replicas]
    entries under it: the preconditions hold in [once_closed], which a
    fresh manager reaches by one open and one close, and the next
    [openSegment] leaves two entries under 42 with [replicas = 1]. *)
Lemma once_closed_run :
  @run scripted_transport 2 [CallOpenSegment (draw 0) 5 42; CallCloseSegment 5 42]
    (setHostList [backup_at "b1"] (BackupManager_new false 1)) =
    Some (Returned once_closed once_closed_trace).
Proof. reflexivity. Qed.

Lemma reopened_segment_has_two_entries :
  @run scripted_transport 2 [CallOpenSegment (draw 0) 5 42; CallCloseSegment 5 42]
    (setHostList [backup_at "b1"] (BackupManager_new false 1)) =
    Some (Returned once_closed once_closed_trace) ∧
  replicas once_closed = 1 ∧ openHosts once_closed = [] ∧
  backups [backup_at "b1"] = 1%nat ∧
  ∃ bm' tr,
    @openSegment scripted_transport 2 (draw 0) 5 42
      (setHostList [backup_at "b1"] once_closed) = Some (Returned bm' tr) ∧
    multimap_count 42 (segments bm') = 2%nat.
Proof.
  split; [reflexivity|]. do 3 (split; [reflexivity|]).
  eexists _, _. split; reflexivity.
Qed.

(** When the random number wraps around [2^64] inside the round, the
    slots are no longer consecutive: here slot 0 is taken twice. *)
Example selection_across_the_wrap :
  ∃ bm' tr,
    @openSegment scripted_transport 4 (draw (2 ^ 64 - 1)) 5 42
      (setHostList three_backups (BackupManager_new false 2)) =
      Some (Returned bm' tr) ∧
    openHosts bm' = [ @Build_BackupClient scripted_transport "b1";
                      @Build_BackupClient scripted_transport "b1" ].
Proof. eexists _, _. split; reflexivity. Qed.

Lemma openSegment_opens_replicas_witness :
  ∃ bm' tr,
    @openSegment scripted_transport 6 (draw 7) 5 42
      (setHostList five_hosts (BackupManager_new false 3)) =
      Some (Returned bm' tr) ∧
    openHosts bm' = client_of <$> chosen five_hosts 7 3 ∧
    NoDup (chosen five_hosts 7 3).*1 ∧
    multimap_count 42 (segments bm') = 3%nat.
Proof.
  destruct (@openSegment_opens_replicas scripted_transport 6 (draw 7) 5 42
              (BackupManager_new false 3) five_hosts)
    as (Hnd & _ & _ & bm' & tr & Ho & _ & _ & Hc & _ & _ & Hs);
    [simpl; lia|reflexivity|unfold server_size; simpl; lia|
     unfold backups; simpl; lia|simpl; lia|unfold server_size; simpl; lia|
     simpl; lia|].
  exists bm', tr. split; [exact Ho|]. split; [exact Hc|]. split; [exact Hnd|].
  exact Hs.
Defined.

Lemma openHosts_empty_iff_closed_last_witness :
  closed_last [CallOpenSegment (draw 0) 5 42; CallCloseSegment 5 42] ∧
  openHosts once_closed = [] ∧
  (∀ masterId segmentId,
     segments (closeSegment masterId segmentId once_closed).1 =
     segments once_closed).
Proof.
  destruct (@openHosts_empty_iff_closed_last scripted_transport 2
              [CallOpenSegment (draw 0) 5 42; CallCloseSegment 5 42]
              (setHostList [backup_at "b1"] (BackupManager_new false 1))
              once_closed once_closed_trace ltac:(simpl; lia) eq_refl
              once_closed_run)
    as (Hclosed & _ & _ & _ & Hclose).
  split; [reflexivity|]. split; [exact (Hclosed eq_refl)|].
  intros masterId segmentId. exact (proj2 (Hclose masterId segmentId)).
Defined.

(** Two backups for three replicas: [openSegment] ends in [DIE]. *)
Lemma openSegment_dies_or_idles_witness :
  ∃ tr,
    @openSegment scripted_transport 4 (draw 0) 5 42
      (setHostList [backup_at "b1"; master_at "m1"; backup_at "b2"]
         (BackupManager_new false 3)) =
    Some (Died "Not enough backups to meet replication requirement" tr).
Proof.
  destruct (@openSegment_dies_or_idles scripted_transport 4 (draw 0) 5 42
              (setHostList [backup_at "b1"; master_at "m1"; backup_at "b2"]
                 (BackupManager_new false 3)))
    as (Hdie & _ & _).
  destruct (Hdie ltac:(simpl; lia)) as (Hfew & _).
  apply Hfew; [done|unfold server_size; simpl; lia|unfold backups; simpl; lia].
Defined.

(** Segment 7 is recovered from b1, segment 9 cannot be fetched from b2:
    the segment recovered last is still 7, and yet the entry of b3 for
    segment 7 is not skipped but fetched and replayed again. *)
Lemma recovered_segment_is_fetched_again :
  @recover_loop scripted_transport 5 [] recover_init
    [RecoveryData [1]; TransportException "down"; RecoveryData [2]]
    [backup_for "b1" 7; backup_for "b2" 9] =
    ({| segmentIdToRecover := 9; wasRecovered := false |},
     [RecoveryData [2]],
     [ClientGetRecoveryData "b1" 5 7; RecoverSegment 7 [1];
      ClientGetRecoveryData "b2" 5 9;
      LogMessage WARNING
        "Couldn't contact %s, trying next backup; failure was: %s"
        [ArgStr "b2"; ArgStr "down"]]) ∧
  @last_recovered scripted_transport
    [ClientGetRecoveryData "b1" 5 7; RecoverSegment 7 [1];
     ClientGetRecoveryData "b2" 5 9;
     LogMessage WARNING
       "Couldn't contact %s, trying next backup; failure was: %s"
       [ArgStr "b2"; ArgStr "down"]] = Some 7 ∧
  segment_id (backup_for "b3" 7) = Some 7 ∧
  @recover_entry scripted_transport 5 []
    {| segmentIdToRecover := 9; wasRecovered := false |} [RecoveryData [2]]
    (backup_for "b3" 7) =
    ({| segmentIdToRecover := 7; wasRecovered := true |}, [],
     [failed_to_recover 9; ClientGetRecoveryData "b3" 5 7; RecoverSegment 7 [2]]).
Proof. repeat split. Qed.

(** b1 cannot be reached for segment 7, b2 delivers it, b3 delivers 9. *)
Lemma recover_walks_the_list_once_witness :
  @recover_loop scripted_transport 5 [] recover_init
    [TransportException "down"; RecoveryData [1]; RecoveryData [2]]
    ([backup_for "b1" 7] ++ backup_for "b2" 7 :: [backup_for "b3" 9]) =
    ({| segmentIdToRecover := 9; wasRecovered := true |}, [],
     [ClientGetRecoveryData "b1" 5 7;
      LogMessage WARNING
        "Couldn't contact %s, trying next backup; failure was: %s"
        [ArgStr "b1"; ArgStr "down"]] ++
     [failed_to_recover 7; ClientGetRecoveryData "b2" 5 7; RecoverSegment 7 [1]] ++
     [ClientGetRecoveryData "b3" 5 9; RecoverSegment 9 [2]]).
Proof.
  exact (proj1 (@recover_walks_the_list_once scripted_transport 5 []
                  [TransportException "down"; RecoveryData [1]; RecoveryData [2]]
                  [backup_for "b1" 7] [backup_for "b3" 9] (backup_for "b2" 7)
                  {| segmentIdToRecover := 7; wasRecovered := false |}
                  [RecoveryData [1]; RecoveryData [2]]
                  [ClientGetRecoveryData "b1" 5 7;
                   LogMessage WARNING
                     "Couldn't contact %s, trying next backup; failure was: %s"
                     [ArgStr "b1"; ArgStr "down"]]
                  eq_refl)).
Defined.

Lemma recover_dedups_only_neighbours_witness :
  @recover scripted_transport 5 []
    [backup_for "b1" 7; backup_for "b2" 9; backup_for "b3" 7]
    [RecoveryData [1]; RecoveryData [2]; RecoveryData [3]] =
    ([], [ClientGetRecoveryData "b1" 5 7; RecoverSegment 7 [1];
          ClientGetRecoveryData "b2" 5 9; RecoverSegment 9 [2];
          ClientGetRecoveryData "b3" 5 7; RecoverSegment 7 [3]]).
Proof.
  refine (proj1 (@recover_dedups_only_neighbours scripted_transport 5 []
                   [RecoveryData [1]; RecoveryData [2]; RecoveryData [3]]
                   [RecoveryData [2]; RecoveryData [3]] [RecoveryData [3]] []
                   7 9 "b1" "b2" "b3" [1] [2] [3] _ _ eq_refl eq_refl eq_refl));
    done.
Defined.

(** With [replicas == 0], [openHosts] is empty although the last call was
    an [openSegment]. *)
Lemma openHosts_empty_after_open :
  @run scripted_transport 0 [CallOpenSegment (draw 0) 5 42]
    (BackupManager_new false 0) =
    Some (Returned (BackupManager_new false 0)
            [TestLog "%lu, %lu" [ArgNum 5; ArgNum 42]]) ∧
  openHosts (@BackupManager_new scripted_transport false 0) = [] ∧
  ¬ closed_last [CallOpenSegment (draw 0) 5 42].
Proof. split; [reflexivity|]. split; [reflexivity|]. by intros H. Qed.

End BackupManagerFacts.

(** * The replication protocol as a whole *)

Module BackupManagerProtocol.
Import BackupManager BackupManagerFacts.

Section Protocol.
Context `{T : Transport}.

(** *** Freeing a segment *)

Lemma count_loop (A : Type) (range : list A) (c : Z) :
  foldl (λ c _, wrap32 (c + 1)) (wrap32 c) range =
  wrap32 (c + Z.of_nat (length range)).
Proof.
  revert c. induction range as [|x range IH]; intros c; simpl.
  { by rewrite Z.add_0_r. }
  replace (wrap32 (wrap32 c + 1)) with (wrap32 (c + 1)).
  - rewrite IH. f_equal. lia.
  - unfold wrap32. by rewrite Z.add_mod_idemp_l by lia.
Qed.

Lemma filter_filter_ne (k k' : Z) (m : list (Z * Session)) :
  k' ≠ k →
  filter (λ kv, kv.1 = k') (filter (λ kv, kv.1 ≠ k) m) =
  filter (λ kv, kv.1 = k') m.
Proof.
  intros Hne. induction m as [|[k0 v0] m IH]; [done|].
  rewrite (filter_cons (λ kv, kv.1 ≠ k)). simpl.
  destruct (decide (k0 ≠ k)) as [H0|H0].
  - rewrite !filter_cons. simpl. destruct (decide (k0 = k')); by rewrite IH.
  - rewrite IH. rewrite filter_cons_False; [done|]. simpl.
    destruct (decide (k0 = k)); [congruence|done].
Qed.

Lemma filter_eq_ne (k : Z) (m : list (Z * Session)) :
  filter (λ kv, kv.1 = k) (filter (λ kv, kv.1 ≠ k) m) = [].
Proof.
  induction m as [|[k0 v0] m IH]; [done|].
  rewrite (filter_cons (λ kv, kv.1 ≠ k)). simpl.
  destruct (decide (k0 ≠ k)) as [H0|H0]; [|done].
  by rewrite filter_cons_False.
Qed.

Lemma network_io_frees masterId segmentId (range : list (Z * Session)) tail :
  filter is_network_io tail = [] →
  filter is_network_io
    (map (λ kv, ClientFreeSegment kv.2 masterId segmentId) range ++ tail) =
  map (λ kv, ClientFreeSegment kv.2 masterId segmentId) range.
Proof.
  intros Ht. rewrite filter_app, Ht, app_nil_r.
  induction range as [|kv range IH]; [done|]. simpl.
  rewrite filter_cons_True by done. by rewrite IH.
Qed.

Lemma sessions_freed_frees masterId segmentId (range : list (Z * Session)) :
  sessions_freed (map (λ kv, ClientFreeSegment kv.2 masterId segmentId) range) =
  range.*2.
Proof.
  unfold sessions_freed. induction range as [|kv range IH]; [done|].
  simpl. by f_equal.
Qed.

Lemma freeSegment_count (range : list (Z * Session)) :
  foldl (λ c _, wrap32 (c + 1)) 0 range = wrap32 (Z.of_nat (length range)).
Proof. change 0 with (wrap32 0) at 1. by rewrite count_loop. Qed.

Lemma freeSegment_sessions masterId segmentId (bm : state) :
  sessions_freed (freeSegment masterId segmentId bm).2 =
  (filter (λ kv, kv.1 = segmentId) (segments bm)).*2.
Proof.
  unfold freeSegment, sessions_freed. simpl. rewrite omap_app.
  pose proof (sessions_freed_frees masterId segmentId
                (filter (λ kv, kv.1 = segmentId) (segments bm))) as E.
  unfold sessions_freed in E. rewrite E.
  destruct (_ =? _); simpl; by rewrite app_nil_r.
Qed.

Lemma freeSegment_warning masterId segmentId (bm : state) :
  filter is_warning (freeSegment masterId segmentId bm).2 ≠ [] ↔
  wrap32 (Z.of_nat (multimap_count segmentId (segments bm))) ≠ replicas bm.
Proof.
  unfold freeSegment. cbn [snd]. rewrite freeSegment_count.
  fold (multimap_count segmentId (segments bm)).
  rewrite filter_cons_False by (by intros []). rewrite filter_app.
  assert (En : ∀ range : list (Z * Session),
            filter is_warning
              (map (λ kv, ClientFreeSegment kv.2 masterId segmentId) range) = []).
  { induction range as [|kv range IH]; [done|]. simpl.
    by rewrite filter_cons_False by (by intros []). }
  rewrite En. simpl.
  destruct (Z.eqb_spec
              (wrap32 (Z.of_nat (multimap_count segmentId (segments bm))))
              (replicas bm)) as [E|E]; simpl.
  - split; [done|]. intros H. by destruct H.
  - by rewrite filter_cons_True by done.
Qed.

(** X1.  [freeSegment] sends one remote [freeSegment] to each session
    recorded under the segment id, in the order of the multimap, and to
    nobody else; afterwards the multimap has no entry under this id and
    the entries under every other id are as before.  It warns exactly when
    the number of entries it freed, counted in 32 bits, is not
    [replicas]; [openHosts] and the host list are left alone. *)
Theorem freeSegment_forgets_the_segment masterId segmentId (bm : state) :
  let range := filter (λ kv, kv.1 = segmentId) (segments bm) in
  let bm' := (freeSegment masterId segmentId bm).1 in
  let tr := (freeSegment masterId segmentId bm).2 in
  filter is_network_io tr =
    map (λ kv, ClientFreeSegment kv.2 masterId segmentId) range ∧
  sessions_freed tr = range.*2 ∧
  multimap_count segmentId (segments bm') = 0%nat ∧
  (∀ k, k ≠ segmentId →
     filter (λ kv, kv.1 = k) (segments bm') =
     filter (λ kv, kv.1 = k) (segments bm)) ∧
  (filter is_warning tr ≠ [] ↔
   wrap32 (Z.of_nat (multimap_count segmentId (segments bm))) ≠ replicas bm) ∧
  openHosts bm' = openHosts bm ∧ hosts bm' = hosts bm ∧
  replicas bm' = replicas bm.
Proof.
  intros range bm' tr. split_and!.
  - subst tr. unfold freeSegment. cbn [snd]. fold range.
    rewrite filter_cons_False by (by intros []).
    apply network_io_frees. by destruct (_ =? _).
  - apply freeSegment_sessions.
  - subst bm'. unfold multimap_count, freeSegment. simpl.
    by rewrite filter_eq_ne.
  - intros k Hk. subst bm'. unfold freeSegment. simpl.
    by apply filter_filter_ne.
  - apply freeSegment_warning.
  - done.
  - done.
  - done.
Qed.

(** *** The selection, whatever the random number *)

Lemma selectLoop_picks fuel (l : list Entry) N R i rnd acc tr clients tr' :
  selectLoop fuel l N R i rnd acc tr = Some (clients, tr') →
  ∃ es : list Entry,
    Forall (λ e, e ∈ l ∧ server_type e = BACKUP) es ∧
    clients = acc ++ (client_to <$> es) ∧
    tr' = tr ++ (es ≫= backing_up_to).
Proof.
  revert i rnd acc tr. induction fuel as [|fuel IH]; intros i rnd acc tr; [done|].
  rewrite selectLoop_S. destruct (i <? R).
  2:{ intros [= <- <-]. exists []. by rewrite !app_nil_r. }
  destruct (l !! Z.to_nat (wrap32 (rnd mod N))) as [host|] eqn:Eh; [|done].
  destruct (decide (server_type host = BACKUP)) as [Hb|Hb].
  - intros Hl. apply IH in Hl as (es & Hes & -> & ->).
    exists (host :: es). split.
    { constructor; [|done]. split; [|done]. by eapply list_elem_of_lookup_2. }
    simpl. by rewrite <- !app_assoc.
  - apply IH.
Qed.

Lemma hosts_empty_size (l : list Entry) :
  (server_size l =? 0) = bool_decide (l = []).
Proof. unfold server_size. by destruct l. Qed.

Lemma selectOpenHosts_shape fuel env (bm bm' : state) tr :
  replicas bm ≠ 0 →
  selectOpenHosts fuel env bm = Some (Returned bm' tr) →
  ∃ es : list Entry,
    hosts bm' = (if decide (hosts bm = []) then serverList env else hosts bm) ∧
    (hosts bm = [] → coordinator bm = true) ∧
    Forall (λ e, e ∈ hosts bm' ∧ server_type e = BACKUP) es ∧
    openHosts bm = [] ∧ openHosts bm' = client_to <$> es ∧
    tr = (if decide (hosts bm = []) then [CoordinatorGetServerList] else []) ++
         (es ≫= backing_up_to) ∧
    segments bm' = segments bm ∧ replicas bm' = replicas bm ∧
    coordinator bm' = coordinator bm.
Proof.
  intros HR. unfold selectOpenHosts.
  destruct (Z.eqb_spec (replicas bm) 0) as [?|_]; [done|].
  rewrite hosts_empty_size.
  set (r := if bool_decide (hosts bm = [])
            then updateHostListFromCoordinator env bm else Returned bm []).
  assert (Hr : match r with
               | Died _ _ => True
               | Returned bm1 tr1 =>
                   hosts bm1 = (if decide (hosts bm = []) then serverList env
                                else hosts bm) ∧
                   (hosts bm = [] → coordinator bm = true) ∧
                   tr1 = (if decide (hosts bm = []) then [CoordinatorGetServerList]
                          else []) ∧
                   segments bm1 = segments bm ∧ replicas bm1 = replicas bm ∧
                   coordinator bm1 = coordinator bm ∧ openHosts bm1 = openHosts bm
               end).
  { subst r. destruct (decide (hosts bm = [])) as [E|E].
    - rewrite bool_decide_true by done. unfold updateHostListFromCoordinator.
      destruct (coordinator bm) eqn:Ec; [|done]. simpl. by rewrite Ec.
    - by rewrite bool_decide_false by done. }
  destruct r as [msg tr1|bm1 tr1]; [done|].
  destruct Hr as (EH & Hco & -> & ES & ER & EC & EO).
  destruct (countBackupClients (hosts bm1) <? replicas bm1); [done|].
  destruct (bool_decide_reflect (openHosts bm1 = [])) as [Hnil|Hnn]; [|done].
  simpl.
  destruct (selectLoop fuel (hosts bm1) _ (replicas bm1) 0 (random env)
              (openHosts bm1) _) as [[clients tr2]|] eqn:El; [|done].
  intros [= <- <-]. simpl.
  apply selectLoop_picks in El as (es & Hes & -> & ->).
  exists es. rewrite Hnil. simpl. split_and!; try done. congruence.
Qed.

Lemma selectOpenHosts_died fuel env (bm : state) message tr :
  selectOpenHosts fuel env bm = Some (Died message tr) →
  replicas bm ≠ 0 ∧
  tr = (if decide (hosts bm = [] ∧ coordinator bm = true)
        then [CoordinatorGetServerList] else []) ∧
  (hosts bm = [] → coordinator bm = false →
   message = "No coordinator given, replication requirements can't be met.").
Proof.
  unfold selectOpenHosts.
  destruct (Z.eqb_spec (replicas bm) 0) as [?|HR]; [done|].
  rewrite hosts_empty_size. unfold updateHostListFromCoordinator.
  destruct (bool_decide_reflect (hosts bm = [])) as [E|E].
  - destruct (coordinator bm) eqn:Ec.
    + rewrite decide_True by done.
      destruct (_ <? _). { intros [= <- <-]. split_and!; done. }
      destruct (negb _). { intros [= <- <-]. split_and!; done. }
      by destruct (selectLoop _ _ _ _ _ _ _ _) as [[clients tr2]|].
    + rewrite decide_False by (by intros [_ ?]).
      intros [= <- <-]. split_and!; done.
  - rewrite decide_False by (by intros [? _]).
    destruct (_ <? _). { intros [= <- <-]. split_and!; done. }
    destruct (negb _). { intros [= <- <-]. split_and!; done. }
    by destruct (selectLoop _ _ _ _ _ _ _ _) as [[clients tr2]|].
Qed.

Lemma no_coordinator_call_in_selection (es : list Entry) :
  CoordinatorGetServerList ∉ es ≫= backing_up_to.
Proof.
  intros Hx. apply list_elem_of_bind in Hx as (e & Hx & _).
  unfold backing_up_to in Hx.
  apply elem_of_cons in Hx as [Hx|Hx]; [done|].
  by apply list_elem_of_singleton in Hx.
Qed.

(** X2.  Whatever the random number, also when it wraps around: when
    [openSegment] returns on a manager with [replicas > 0], it has chosen
    [replicas] entries of the host list, all of type BACKUP.  For each
    of them in turn it logs the choice and opens a session; then it calls
    the remote [openSegment] on each session in the same order.  The
    clients of these sessions are what [openHosts] holds afterwards, and
    the only other call is the one to the coordinator when the host list
    was empty. *)
Theorem openSegment_backs_up_to_backups fuel env masterId segmentId
    (bm bm' : state) tr :
  0 < replicas bm < 2 ^ 32 →
  openSegment fuel env masterId segmentId bm = Some (Returned bm' tr) →
  ∃ es : list Entry,
    Forall (λ e, e ∈ hosts bm' ∧ server_type e = BACKUP) es ∧
    Z.of_nat (length es) = replicas bm ∧
    openHosts bm' = client_to <$> es ∧
    tr = TestLog "%lu, %lu" [ArgNum masterId; ArgNum segmentId] ::
         (if decide (hosts bm = []) then [CoordinatorGetServerList] else []) ++
         (es ≫= backing_up_to) ++
         ((λ e, ClientOpenSegment (getSession (service_locator e))
                  masterId segmentId) <$> es).
Proof.
  intros HR. unfold openSegment.
  destruct (selectOpenHosts fuel env bm) as [[msg tr1|bm1 tr1]|] eqn:Es;
    [done| |done].
  intros [= <- <-].
  assert (HR' : 0 ≤ replicas bm < 2 ^ 32) by lia.
  destruct (selectOpenHosts_inv _ _ _ _ _ HR' Es) as (_ & _ & _ & _ & Hlen).
  destruct Hlen as [_ Hn]; [lia|].
  apply selectOpenHosts_shape in Es
    as (es & EH & _ & Hes & _ & EO & -> & _); [|lia].
  exists es. simpl. split; [done|]. split.
  { rewrite EO, length_fmap in Hn. done. }
  split; [done|]. rewrite EO. rewrite <- app_assoc. do 3 f_equal.
  by rewrite <- list_fmap_compose.
Qed.

(** X3.  [openSegment] asks the coordinator for the server list exactly
    when [replicas] is not zero, the host list is empty and there is a
    coordinator; it asks once, before anything else, and keeps the answer
    as its host list.  A manager that was given hosts never asks.  Without
    hosts and without coordinator it ends in [DIE]. *)
Theorem coordinator_is_asked_only_without_hosts fuel env masterId segmentId
    (bm : state) r :
  openSegment fuel env masterId segmentId bm = Some r →
  (∃ ext,
     trace_of r =
       TestLog "%lu, %lu" [ArgNum masterId; ArgNum segmentId] ::
       (if decide (replicas bm ≠ 0 ∧ hosts bm = [] ∧ coordinator bm = true)
        then [CoordinatorGetServerList] else []) ++ ext ∧
     CoordinatorGetServerList ∉ ext) ∧
  match r with
  | Returned bm' _ =>
      hosts bm' = (if decide (replicas bm ≠ 0 ∧ hosts bm = [])
                   then serverList env else hosts bm)
  | Died message _ =>
      replicas bm ≠ 0 ∧
      (hosts bm = [] → coordinator bm = false →
       message = "No coordinator given, replication requirements can't be met.")
  end.
Proof.
  unfold openSegment.
  destruct (selectOpenHosts fuel env bm) as [[msg tr1|bm1 tr1]|] eqn:Es; [| |done].
  - intros [= <-]. apply selectOpenHosts_died in Es as (HR & -> & Hmsg).
    split; [|by split]. exists []. rewrite app_nil_r. simpl. split; [|apply not_elem_of_nil].
    f_equal. destruct (decide (hosts bm = [] ∧ coordinator bm = true)) as [[? ?]|Hn].
    + by rewrite decide_True.
    + rewrite decide_False; [done|]. intros (_ & ? & ?). by apply Hn.
  - intros [= <-]. destruct (decide (replicas bm = 0)) as [E0|HR].
    + unfold selectOpenHosts in Es. rewrite E0 in Es. simpl in Es.
      injection Es as <- <-. split.
      * eexists. rewrite decide_False by (by intros [? _]). simpl.
        split; [done|]. intros Hx. apply list_elem_of_fmap in Hx as (c & Hx & _).
        done.
      * simpl. by rewrite decide_False by (by intros [? _]).
    + apply selectOpenHosts_shape in Es
        as (es & EH & Hco & _ & _ & EO & -> & _); [|done].
      split.
      * eexists. simpl. split.
        { f_equal. rewrite <- app_assoc. f_equal.
          destruct (decide (hosts bm = [])) as [E|E].
          - by rewrite decide_True by (split_and!; [done|done|by apply Hco]).
          - by rewrite decide_False by (by intros (_ & ? & _)). }
        intros [Hx|Hx]%elem_of_app.
        { by apply no_coordinator_call_in_selection in Hx. }
        apply list_elem_of_fmap in Hx as (c & Hx & _). done.
      * simpl. rewrite EH. destruct (decide (hosts bm = [])) as [E|E].
        { by rewrite decide_True. }
        by rewrite decide_False by (by intros [_ ?]).
Qed.

(** *** A segment from open to free *)

Lemma multimap_insert_at k v (pre post : list (Z * Session)) :
  Forall (λ kv, kv.1 ≤ k) pre →
  (∀ kv post', post = kv :: post' → k < kv.1) →
  multimap_insert k v (pre ++ post) = pre ++ (k, v) :: post.
Proof.
  intros Hpre Hpost. induction Hpre as [|[k' v'] pre Hk _ IH]; simpl.
  - destruct post as [|[k' v'] post']; [done|]. simpl.
    specialize (Hpost _ _ eq_refl). simpl in Hpost.
    by destruct (Z.leb_spec k' k); [lia|].
  - simpl in Hk. destruct (Z.leb_spec k' k); [|lia]. by rewrite IH.
Qed.

Lemma multimap_split k (m : list (Z * Session)) :
  ∃ pre post, m = pre ++ post ∧ Forall (λ kv, kv.1 ≤ k) pre ∧
              (∀ kv post', post = kv :: post' → k < kv.1).
Proof.
  induction m as [|[k' v'] m (pre & post & -> & Hpre & Hpost)].
  { exists [], []. split; [done|]. split; [constructor|done]. }
  destruct (decide (k' ≤ k)) as [Hle|Hgt].
  - exists ((k', v') :: pre), post. split; [done|]. split; [by constructor|done].
  - exists [], ((k', v') :: pre ++ post). split; [done|]. split; [constructor|].
    intros kv post' [= <- _]. simpl. lia.
Qed.

Lemma multimap_insert_all_at k (clients : list BackupClient)
    (pre post : list (Z * Session)) :
  Forall (λ kv, kv.1 ≤ k) pre →
  (∀ kv post', post = kv :: post' → k < kv.1) →
  foldl (λ m host, multimap_insert k (client_session host) m) (pre ++ post)
        clients =
  pre ++ ((λ host, (k, client_session host)) <$> clients) ++ post.
Proof.
  revert pre. induction clients as [|c clients IH]; intros pre Hpre Hpost; [done|].
  simpl. rewrite multimap_insert_at by done.
  rewrite (cons_middle _ pre post), app_assoc.
  rewrite IH; [by rewrite <- app_assoc|by apply Forall_app; split; [|repeat constructor]|done].
Qed.

Lemma filter_none (k : Z) (m : list (Z * Session)) :
  multimap_count k m = 0%nat →
  filter (λ kv, kv.1 = k) m = [] ∧ filter (λ kv, kv.1 ≠ k) m = m.
Proof.
  unfold multimap_count. induction m as [|[k' v'] m IH]; [done|].
  rewrite !filter_cons. simpl. destruct (decide (k' = k)) as [E|E]; [done|].
  intros H0. destruct (IH H0) as [E1 E2].
  split; [done|]. rewrite decide_True by done. by rewrite E2.
Qed.

Lemma filter_inserted (k : Z) (clients : list BackupClient) :
  filter (λ kv : Z * Session, kv.1 = k)
    ((λ host, (k, client_session host)) <$> clients) =
    (λ host, (k, client_session host)) <$> clients ∧
  filter (λ kv : Z * Session, kv.1 ≠ k)
    ((λ host, (k, client_session host)) <$> clients) = [].
Proof.
  induction clients as [|c clients [IH1 IH2]]; [done|]. rewrite fmap_cons.
  rewrite filter_cons_True by done. rewrite IH1.
  by rewrite filter_cons_False by (simpl; intros H; by apply H).
Qed.

Lemma sessions_opened_calls masterId segmentId (clients : list BackupClient) :
  sessions_opened
    (map (λ host, ClientOpenSegment (client_session host) masterId segmentId)
         clients) = client_session <$> clients.
Proof.
  unfold sessions_opened. induction clients as [|c clients IH]; [done|].
  simpl. by f_equal.
Qed.

Lemma sessions_closed_calls masterId segmentId (clients : list BackupClient) :
  sessions_closed
    (map (λ host, ClientCloseSegment (client_session host) masterId segmentId)
         clients) = client_session <$> clients.
Proof.
  unfold sessions_closed. induction clients as [|c clients IH]; [done|].
  simpl. by f_equal.
Qed.

Lemma sessions_written_calls masterId segmentId offset data len
    (clients : list BackupClient) :
  sessions_written
    (map (λ host, ClientWriteSegment (client_session host) masterId segmentId
                    offset data len)
         clients) = client_session <$> clients.
Proof.
  unfold sessions_written. induction clients as [|c clients IH]; [done|].
  simpl. by f_equal.
Qed.

Lemma selection_calls_no_client (es : list Entry) :
  sessions_opened (es ≫= backing_up_to) = [] ∧
  sessions_written (es ≫= backing_up_to) = [] ∧
  sessions_closed (es ≫= backing_up_to) = [] ∧
  sessions_freed (es ≫= backing_up_to) = [].
Proof. induction es as [|e es IH]; [done|]. simpl. exact IH. Qed.

Lemma openSegment_sessions fuel env masterId segmentId (bm bm1 : state) tr1 :
  0 ≤ replicas bm < 2 ^ 32 → (replicas bm = 0 → openHosts bm = []) →
  openSegment fuel env masterId segmentId bm = Some (Returned bm1 tr1) →
  Z.of_nat (length (openHosts bm1)) = replicas bm ∧
  sessions_opened tr1 = client_session <$> openHosts bm1 ∧
  replicas bm1 = replicas bm ∧
  ∃ bm0, segments bm0 = segments bm ∧ openHosts bm0 = openHosts bm1 ∧
         bm1 = set_segments
                 (foldl (λ m host, multimap_insert segmentId (client_session host) m)
                        (segments bm0) (openHosts bm0)) bm0.
Proof.
  intros HR Ho. unfold openSegment.
  destruct (selectOpenHosts fuel env bm) as [[msg tr0|bm0 tr0]|] eqn:Es;
    [done| |done].
  intros [= <- <-].
  destruct (selectOpenHosts_inv _ _ _ _ _ HR Es) as (ER & ES & _ & H0 & Hpos).
  cbn [openHosts set_segments replicas]. split_and!; [| |done|by exists bm0].
  - destruct (decide (replicas bm = 0)) as [E0|Hne].
    + destruct (H0 E0) as [-> _]. by rewrite (Ho E0), E0.
    + by destruct Hpos as [_ ?]; [lia|].
  - assert (Hsel : sessions_opened tr0 = []).
    { destruct (decide (replicas bm = 0)) as [E0|Hne].
      - by destruct (H0 E0) as [_ ->].
      - apply selectOpenHosts_shape in Es as (es & _ & _ & _ & _ & _ & -> & _);
          [|done].
        unfold sessions_opened. rewrite omap_app.
        destruct (selection_calls_no_client es) as [E _].
        unfold sessions_opened in E. rewrite E. by destruct (decide _). }
    pose proof (sessions_opened_calls masterId segmentId (openHosts bm0)) as E.
    unfold sessions_opened in *. simpl. by rewrite omap_app, Hsel, E.
Qed.

(** X4.  A segment from open to free.  On a manager without open hosts
    and without entries under [segmentId]: when [openSegment] returns,
    [closeSegment] and then [freeSegment] for the same id address the
    very sessions that got the remote [openSegment], in the same order,
    [replicas] of them; [freeSegment] finds the expected number of
    entries, so it logs no warning, and it leaves the [segments] multimap
    as it was before the open, with [openHosts] empty. *)
Theorem open_close_free_round_trip fuel env masterId segmentId
    (bm bm1 : state) tr1 :
  0 ≤ replicas bm < 2 ^ 32 → openHosts bm = [] →
  multimap_count segmentId (segments bm) = 0%nat →
  openSegment fuel env masterId segmentId bm = Some (Returned bm1 tr1) →
  let sessions := client_session <$> openHosts bm1 in
  let bm2 := (closeSegment masterId segmentId bm1).1 in
  let tr2 := (closeSegment masterId segmentId bm1).2 in
  let bm3 := (freeSegment masterId segmentId bm2).1 in
  let tr3 := (freeSegment masterId segmentId bm2).2 in
  Z.of_nat (length sessions) = replicas bm ∧
  multimap_count segmentId (segments bm1) = length sessions ∧
  sessions_opened tr1 = sessions ∧
  sessions_closed tr2 = sessions ∧
  sessions_freed tr3 = sessions ∧
  filter is_warning tr3 = [] ∧
  segments bm3 = segments bm ∧ openHosts bm3 = [].
Proof.
  intros HR Ho Hfresh Hopen sessions bm2 tr2 bm3 tr3.
  destruct (openSegment_sessions _ _ _ _ _ _ _ HR (λ _, Ho) Hopen)
    as (Hlen & Hopened & ER & bm0 & ES & Eo & Ebm).
  destruct (multimap_split segmentId (segments bm))
    as (pre & post & Em & Hpre & Hpost).
  assert (Eseg : segments bm1 =
            pre ++ ((λ host, (segmentId, client_session host)) <$> openHosts bm1)
                ++ post).
  { rewrite Ebm at 1. cbn [segments set_segments]. rewrite ES, Em, Eo.
    by apply multimap_insert_all_at. }
  destruct (filter_none segmentId (segments bm) Hfresh) as [Enone Eall].
  rewrite Em, filter_app in Enone. apply app_eq_nil in Enone as [Epre Epost].
  destruct (filter_inserted segmentId (openHosts bm1)) as [Ein Eout].
  assert (Erange : filter (λ kv : Z * Session, kv.1 = segmentId) (segments bm1) =
                   (λ host, (segmentId, client_session host)) <$> openHosts bm1).
  { by rewrite Eseg, !filter_app, Epre, Epost, Ein, app_nil_r. }
  assert (Ecount : multimap_count segmentId (segments bm1) = length sessions).
  { unfold multimap_count. rewrite Erange. subst sessions.
    by rewrite !length_fmap. }
  split; [by subst sessions; rewrite length_fmap|].
  split; [done|]. split; [done|]. split.
  { subst tr2 sessions. simpl. apply sessions_closed_calls. }
  pose proof (freeSegment_sessions masterId segmentId bm2) as Efreed.
  pose proof (freeSegment_warning masterId segmentId bm2) as Hwarn.
  fold tr3 in Efreed, Hwarn.
  assert (Eseg2 : segments bm2 = segments bm1) by done.
  rewrite Eseg2, Erange in Efreed. rewrite Eseg2, Ecount in Hwarn.
  split.
  { rewrite Efreed. subst sessions. by rewrite <- list_fmap_compose. }
  split.
  { destruct Hwarn as [Hw _]. destruct (filter is_warning tr3); [done|].
    exfalso. apply Hw; [done|]. subst sessions. rewrite length_fmap.
    unfold wrap32. rewrite Z.mod_small by lia.
    rewrite Hlen. subst bm2. simpl. by rewrite ER. }
  split; [|done].
  subst bm3. simpl. rewrite Eseg, !filter_app, Eout. simpl.
  rewrite <- filter_app, <- Em. done.
Qed.

(** X5.  The writes of a segment go to its replicas.  After an
    [openSegment] that returned, [writeSegment] calls the remote
    [writeSegment] on the sessions that got the remote [openSegment], in
    the same order, [replicas] of them, and leaves the manager as it is.
    It does so for any master and segment id it is given: the ids are
    passed on, not looked up.  After the [closeSegment] it calls
    nobody. *)
Theorem writeSegment_reaches_the_open_replicas fuel env masterId segmentId
    (bm bm1 : state) tr1 :
  0 < replicas bm < 2 ^ 32 →
  openSegment fuel env masterId segmentId bm = Some (Returned bm1 tr1) →
  ∀ masterId' segmentId' offset data len,
    let w := writeSegment masterId' segmentId' offset data len in
    (w bm1).1 = bm1 ∧
    sessions_written (w bm1).2 = sessions_opened tr1 ∧
    Z.of_nat (length (sessions_written (w bm1).2)) = replicas bm ∧
    filter is_network_io (w bm1).2 =
      map (λ host, ClientWriteSegment (client_session host) masterId' segmentId'
                     offset data len) (openHosts bm1) ∧
    filter is_network_io (w (closeSegment masterId segmentId bm1).1).2 = [].
Proof.
  intros HR Hopen masterId' segmentId' offset data len w.
  assert (HR' : 0 ≤ replicas bm < 2 ^ 32) by lia.
  destruct (openSegment_sessions _ _ _ _ _ _ _ HR' ltac:(lia) Hopen)
    as (Hlen & Hopened & _).
  assert (Ew : sessions_written (w bm1).2 = client_session <$> openHosts bm1).
  { subst w. unfold writeSegment. cbn [snd].
    pose proof (sessions_written_calls masterId' segmentId' offset data len
                  (openHosts bm1)) as E.
    unfold sessions_written in *. simpl. exact E. }
  split; [done|]. split; [by rewrite Ew, Hopened|].
  split; [by rewrite Ew, length_fmap|]. split.
  - subst w. unfold writeSegment. cbn [snd].
    rewrite filter_cons_False by (by intros []).
    generalize (openHosts bm1). intros clients.
    induction clients as [|c clients IH]; [done|]. simpl.
    rewrite filter_cons_True by done. by rewrite IH.
  - subst w. unfold writeSegment, closeSegment. simpl.
    by rewrite filter_cons_False by (by intros []).
Qed.

(** *** Recovery as a whole *)

Lemma recover_entry_asks masterId tablets st w (e : Entry) :
  let ev := (recover_entry masterId tablets st w e).2 in
  fetches ev `sublist_of` eligible [e] ∧
  Forall (λ m, m = masterId) (fetched_for ev) ∧
  recovered ev `sublist_of` (fetches ev).*2.
Proof.
  pose proof (recover_entry_cases masterId tablets st w e) as Hc.
  unfold eligible. simpl.
  destruct (segment_id e) as [id|].
  2:{ rewrite Hc. split_and!; [apply sublist_nil_l|constructor|done]. }
  destruct (bool_decide _).
  { rewrite Hc. split_and!; [apply sublist_nil_l|constructor|done]. }
  destruct (bool_decide_reflect (server_type e = BACKUP)) as [Hb|Hb].
  2:{ rewrite Hc. split_and!; [apply sublist_nil_l|constructor|done]. }
  rewrite decide_True by done. simpl in *.
  destruct (getRecoveryData w (service_locator e) masterId id tablets)
    as [[resp|msg|msg] w1]; rewrite Hc; cbn [snd];
    unfold fetches, fetched_for, recovered; rewrite !omap_app;
    destruct (wasRecovered st); simpl; split_and!;
    try done; try (by repeat constructor).
Qed.

Lemma eligible_cons (e : Entry) (l : list Entry) :
  eligible (e :: l) = eligible [e] ++ eligible l.
Proof.
  unfold eligible. simpl.
  by destruct (decide (server_type e = BACKUP)), (segment_id e).
Qed.

Lemma recover_loop_asks masterId tablets st w (l : list Entry) :
  let tr := (recover_loop masterId tablets st w l).2 in
  fetches tr `sublist_of` eligible l ∧
  Forall (λ m, m = masterId) (fetched_for tr) ∧
  recovered tr `sublist_of` (fetches tr).*2.
Proof.
  revert st w. induction l as [|e l IH]; intros st w; cbn [recover_loop].
  { split; [done|]. split; [constructor|done]. }
  pose proof (recover_entry_asks masterId tablets st w e) as He.
  destruct (recover_entry masterId tablets st w e) as [[st1 w1] ev].
  specialize (IH st1 w1).
  destruct (recover_loop masterId tablets st1 w1 l) as [[st2 w2] tr2].
  cbn [snd] in *. destruct He as (H1 & H2 & H3), IH as (I1 & I2 & I3).
  unfold fetches, fetched_for, recovered in *. rewrite !omap_app, fmap_app.
  split_and!.
  - rewrite eligible_cons. by apply sublist_app.
  - by apply Forall_app.
  - by apply sublist_app.
Qed.

(** X6.  [recover] asks for recovery data only from entries of the list
    that are of type BACKUP and name a segment, in the order of the list
    and each at most once, and always for the master id it was given; a
    MASTER entry or an entry without segment id is never contacted.  What
    the recovery master gets to replay are segments that were fetched, in
    the order of the fetches. *)
Theorem recover_asks_only_listed_backups masterId tablets
    (backups : list Entry) w :
  let tr := (recover masterId tablets backups w).2 in
  fetches tr `sublist_of` eligible backups ∧
  Forall (λ m, m = masterId) (fetched_for tr) ∧
  recovered tr `sublist_of` (fetches tr).*2.
Proof.
  unfold recover.
  pose proof (recover_loop_asks masterId tablets recover_init w backups) as Hl.
  destruct (recover_loop masterId tablets recover_init w backups)
    as [[st w'] tr].
  cbn [snd] in *. destruct Hl as (H1 & H2 & H3).
  assert (E : ∀ A (f : Event → option A),
            f (failed_to_recover (segmentIdToRecover st)) = None →
            omap f (tr ++ (if wasRecovered st then []
                           else [failed_to_recover (segmentIdToRecover st)])) =
            omap f tr).
  { intros A f Hf. rewrite omap_app.
    destruct (wasRecovered st); simpl; [|rewrite Hf]; by rewrite app_nil_r. }
  unfold fetches, fetched_for, recovered in *. by rewrite !E.
Qed.

Lemma recover_entry_tally masterId tablets st w (e : Entry) :
  let st' := (recover_entry masterId tablets st w e).1.1 in
  let ev := (recover_entry masterId tablets st w e).2 in
  (length (filter is_error ev) + length (recovered ev) +
   (if wasRecovered st' then 0 else 1) =
   length (fetches ev) + (if wasRecovered st then 0 else 1))%nat ∧
  (∀ x, last ev = Some x → is_error x = false) ∧ ev ≠ [].
Proof.
  pose proof (recover_entry_cases masterId tablets st w e) as Hc.
  destruct (segment_id e) as [id|]; [|by rewrite Hc; split_and!; [|intros x [= <-]|]].
  destruct (bool_decide _);
    [by rewrite Hc; split_and!; [|intros x [= <-]|]|].
  destruct (bool_decide _);
    [|by rewrite Hc; split_and!; [|intros x [= <-]|]].
  simpl in Hc.
  destruct (getRecoveryData w (service_locator e) masterId id tablets)
    as [[resp|msg|msg] w1]; rewrite Hc; cbn [fst snd wasRecovered];
    destruct (wasRecovered st); simpl; split_and!; try done;
    by intros x [= <-].
Qed.

Lemma recover_loop_tally masterId tablets st w (l : list Entry) :
  let st' := (recover_loop masterId tablets st w l).1.1 in
  let tr := (recover_loop masterId tablets st w l).2 in
  (length (filter is_error tr) + length (recovered tr) +
   (if wasRecovered st' then 0 else 1) =
   length (fetches tr) + (if wasRecovered st then 0 else 1))%nat ∧
  (∀ x, last tr = Some x → is_error x = false).
Proof.
  revert st w. induction l as [|e l IH]; intros st w; cbn [recover_loop].
  { done. }
  pose proof (recover_entry_tally masterId tablets st w e) as He.
  destruct (recover_entry masterId tablets st w e) as [[st1 w1] ev].
  specialize (IH st1 w1).
  destruct (recover_loop masterId tablets st1 w1 l) as [[st2 w2] tr2].
  cbn [fst snd] in *. destruct He as (H1 & H2 & H3), IH as (I1 & I2).
  unfold fetches, recovered in *.
  rewrite filter_app, !omap_app, !length_app. split; [lia|].
  intros x. rewrite last_app. destruct (last tr2) as [y|].
  - intros [= <-]. by apply I2.
  - apply H2.
Qed.

(** X7.  [recover] logs one corruption error for each fetch that did not
    deliver: the errors and the segments handed to the recovery master
    add up to the fetches.  So a segment whose first backup fails is
    reported as lost although a later backup may deliver it.  The trace
    ends with such an error exactly when the last fetch failed, and the
    error then names the segment of that fetch. *)
Theorem recover_logs_an_error_per_failed_fetch masterId tablets
    (backups : list Entry) w :
  let tr := (recover masterId tablets backups w).2 in
  (length (filter is_error tr) + length (recovered tr))%nat =
    length (fetches tr) ∧
  ((last_attempt tr).2 = false →
   last tr = Some (failed_to_recover (last_attempt tr).1)) ∧
  ((last_attempt tr).2 = true → ∀ x, last tr = Some x → is_error x = false).
Proof.
  unfold recover.
  pose proof (recover_loop_tally masterId tablets recover_init w backups) as Hl.
  pose proof (recover_loop_attempt masterId tablets backups recover_init w) as Ha.
  destruct (recover_loop masterId tablets recover_init w backups)
    as [[st w'] tr].
  specialize (Ha _ _ _ eq_refl). cbn [fst snd] in *. destruct Hl as [H1 H2].
  change (foldl track_attempt (UINT64_MAX, true) tr =
          (segmentIdToRecover st, wasRecovered st)) in Ha.
  unfold last_attempt. rewrite foldl_app, Ha.
  unfold fetches, recovered in *. rewrite filter_app, !omap_app, !length_app.
  destruct (wasRecovered st); simpl in *.
  - rewrite app_nil_r. split; [lia|]. split; [done|]. intros _. exact H2.
  - split; [lia|]. split; [|done]. intros _. by rewrite last_snoc.
Qed.

Lemma recover_entry_state masterId tablets st w (e : Entry) :
  let st' := (recover_entry masterId tablets st w e).1.1 in
  let ev := (recover_entry masterId tablets st w e).2 in
  (st' = st ∧ fetches ev = [] ∨
   ∃ id, segment_id e = Some id ∧ segmentIdToRecover st' = id ∧
         id ∈ (fetches ev).*2) ∧
  (∀ id, id ∈ (eligible [e]).*2 →
     wasRecovered st = true ∧ segmentIdToRecover st = id ∧ fetches ev = [] ∨
     id ∈ (fetches ev).*2).
Proof.
  pose proof (recover_entry_cases masterId tablets st w e) as Hc.
  unfold eligible. simpl.
  destruct (segment_id e) as [id|].
  2:{ rewrite Hc. split; [by left|]. destruct (decide _); simpl;
        intros id Hid; by apply elem_of_nil in Hid. }
  destruct (bool_decide_reflect
              (wasRecovered st = true ∧ segmentIdToRecover st = id)) as [Hs|Hs].
  { rewrite Hc. split; [by left|]. destruct (decide _); simpl; intros id' Hid.
    - apply list_elem_of_singleton in Hid as ->. left. by destruct Hs.
    - by apply elem_of_nil in Hid. }
  destruct (bool_decide_reflect (server_type e = BACKUP)) as [Hb|Hb].
  2:{ rewrite Hc. split; [by left|]. rewrite decide_False by done.
      intros id' Hid. by apply elem_of_nil in Hid. }
  rewrite decide_True by done. simpl in Hc.
  assert (Hin : ∀ ev0 x,
            id ∈ (fetches (ev0 ++ [ClientGetRecoveryData (service_locator e)
                                      masterId id; x])).*2).
  { intros ev0 x. unfold fetches. rewrite omap_app, fmap_app.
    apply elem_of_app. right. simpl. destruct x; simpl; apply elem_of_cons; by left. }
  destruct (getRecoveryData w (service_locator e) masterId id tablets)
    as [[resp|msg|msg] w1]; rewrite Hc; cbn [fst snd];
    (split; [right; exists id; by split_and!|]);
    intros id' Hid; apply list_elem_of_singleton in Hid as ->; by right.
Qed.

Lemma recover_loop_complete masterId tablets st w (l : list Entry) id :
  let tr := (recover_loop masterId tablets st w l).2 in
  id ∈ (eligible l).*2 →
  wasRecovered st = true ∧ segmentIdToRecover st = id ∨ id ∈ (fetches tr).*2.
Proof.
  revert st w. induction l as [|e l IH]; intros st w; cbn [recover_loop].
  { intros Hid. by apply elem_of_nil in Hid. }
  pose proof (recover_entry_state masterId tablets st w e) as He.
  destruct (recover_entry masterId tablets st w e) as [[st1 w1] ev].
  specialize (IH st1 w1).
  destruct (recover_loop masterId tablets st1 w1 l) as [[st2 w2] tr2].
  cbn [fst snd] in *. destruct He as [Hst Hel].
  rewrite eligible_cons, fmap_app. unfold fetches in *.
  rewrite omap_app, fmap_app. intros [Hid|Hid]%elem_of_app.
  - destruct (Hel _ Hid) as [(? & ? & _)|Hf]; [by left|].
    right. apply elem_of_app. by left.
  - destruct (IH Hid) as [[Hw Hi]|Hf].
    + destruct Hst as [[-> _]|(id' & _ & Hi' & Hf)]; [by left|].
      right. apply elem_of_app. left. congruence.
    + right. apply elem_of_app. by right.
Qed.

Lemma recover_loop_sentinel masterId tablets w (l : list Entry) :
  Forall (λ e, segment_id e = Some UINT64_MAX) l →
  (recover_loop masterId tablets recover_init w l).1 = (recover_init, w) ∧
  filter is_network_io (recover_loop masterId tablets recover_init w l).2 = [] ∧
  filter is_error (recover_loop masterId tablets recover_init w l).2 = [].
Proof.
  induction 1 as [|e l He _ IH]; [done|]. cbn [recover_loop].
  pose proof (recover_entry_cases masterId tablets recover_init w e) as Hc.
  rewrite He in Hc. rewrite bool_decide_true in Hc by done. rewrite Hc.
  destruct (recover_loop masterId tablets recover_init w l) as [[st2 w2] tr2].
  cbn [fst snd] in *. destruct IH as (-> & IH2 & IH3). split; [done|].
  simpl. by rewrite !filter_cons_False by (by intros []).
Qed.

(** X8.  No listed segment is passed over, but for one id.  Every
    segment id that some BACKUP entry of the list names, other than
    [2^64 - 1], is asked for at least once.  The id [2^64 - 1] is what
    [recover] starts from as recovered last: a list whose entries all
    name it is gone through without any call over the network and
    without any error. *)
Theorem recover_asks_for_every_listed_segment masterId tablets
    (backups : list Entry) w :
  (∀ id, id ∈ (eligible backups).*2 → id ≠ UINT64_MAX →
     id ∈ (fetches (recover masterId tablets backups w).2).*2) ∧
  (Forall (λ e, segment_id e = Some UINT64_MAX) backups →
   (recover masterId tablets backups w).1 = w ∧
   filter is_network_io (recover masterId tablets backups w).2 = [] ∧
   filter is_error (recover masterId tablets backups w).2 = []).
Proof.
  unfold recover. split.
  - intros id Hid Hne.
    pose proof (recover_loop_complete masterId tablets recover_init w backups id Hid)
      as Hl.
    destruct (recover_loop masterId tablets recover_init w backups)
      as [[st w'] tr].
    cbn [snd] in *. destruct Hl as [[_ Hi]|Hf]; [by destruct Hne|].
    unfold fetches in *. rewrite omap_app, fmap_app. apply elem_of_app. by left.
  - intros Hall.
    destruct (recover_loop_sentinel masterId tablets w backups Hall)
      as (E1 & E2 & E3).
    destruct (recover_loop masterId tablets recover_init w backups)
      as [[st w'] tr].
    cbn [fst snd] in *. injection E1 as -> ->. simpl.
    by rewrite !app_nil_r.
Qed.

Lemma no_repeat_cons (s id : Z) (ids : list Z) :
  s ≠ id → no_repeat_in_a_row (id :: ids) → no_repeat_in_a_row (s :: id :: ids).
Proof.
  intros Hne Hids [|i] x y; simpl.
  - by intros [= <-] [= <-].
  - apply Hids.
Qed.

Lemma recover_loop_reliable masterId tablets st w (l : list Entry) :
  (∀ w l id, ∃ resp w',
     getRecoveryData w l masterId id tablets = (RecoveryData resp, w')) →
  wasRecovered st = true →
  let st' := (recover_loop masterId tablets st w l).1.1 in
  let tr := (recover_loop masterId tablets st w l).2 in
  wasRecovered st' = true ∧
  recovered tr = (fetches tr).*2 ∧
  filter is_error tr = [] ∧
  no_repeat_in_a_row (segmentIdToRecover st :: recovered tr).
Proof.
  intros Hnet. revert st w. induction l as [|e l IH]; intros st w Hw;
    cbn [recover_loop].
  { split_and!; done. }
  pose proof (recover_entry_cases masterId tablets st w e) as Hc.
  assert (Hsame : ∀ ev,
            recover_entry masterId tablets st w e = (st, w, ev) →
            recovered ev = [] → fetches ev = [] → filter is_error ev = [] →
            let st' := (let '(st1, w1, ev) := recover_entry masterId tablets st w e in
                        let '(st2, w2, tr) := recover_loop masterId tablets st1 w1 l in
                        (st2, w2, ev ++ tr)).1.1 in
            let tr := (let '(st1, w1, ev) := recover_entry masterId tablets st w e in
                       let '(st2, w2, tr) := recover_loop masterId tablets st1 w1 l in
                       (st2, w2, ev ++ tr)).2 in
            wasRecovered st' = true ∧ recovered tr = (fetches tr).*2 ∧
            filter is_error tr = [] ∧
            no_repeat_in_a_row (segmentIdToRecover st :: recovered tr)).
  { intros ev -> E1 E2 E3. specialize (IH st w Hw).
    destruct (recover_loop masterId tablets st w l) as [[st2 w2] tr2].
    cbn [fst snd] in *. destruct IH as (I1 & I2 & I3 & I4).
    unfold recovered, fetches in *.
    rewrite filter_app, !omap_app, E1, E2, E3. done. }
  destruct (segment_id e) as [id|]; [|by eapply Hsame].
  destruct (bool_decide_reflect
              (wasRecovered st = true ∧ segmentIdToRecover st = id)) as [Hs|Hs];
    [by eapply Hsame|].
  destruct (bool_decide (server_type e = BACKUP)); [|by eapply Hsame].
  simpl in Hc. destruct (Hnet w (service_locator e) id) as (resp & w1 & Eg).
  rewrite Eg in Hc. rewrite Hc, Hw. simpl.
  specialize (IH {| segmentIdToRecover := id; wasRecovered := true |} w1 eq_refl).
  destruct (recover_loop masterId tablets _ w1 l) as [[st2 w2] tr2].
  cbn [fst snd segmentIdToRecover] in *. destruct IH as (I1 & I2 & I3 & I4).
  change (recovered (ClientGetRecoveryData (service_locator e) masterId id
                       :: RecoverSegment id resp :: tr2))
    with (id :: recovered tr2).
  change (fetches (ClientGetRecoveryData (service_locator e) masterId id
                     :: RecoverSegment id resp :: tr2))
    with ((service_locator e, id) :: fetches tr2).
  split; [done|]. split; [by rewrite I2|]. split.
  { by rewrite !filter_cons_False by (by intros []). }
  apply no_repeat_cons; [|done]. intros E. apply Hs. by split.
Qed.

(** X9.  On a network where every fetch delivers, [recover] hands each
    segment it fetches to the recovery master and logs no error; every
    segment id that a BACKUP entry names, other than [2^64 - 1], is
    replayed, and no id is replayed twice in a row. *)
Theorem recover_replays_what_it_fetches masterId tablets
    (backups : list Entry) w :
  (∀ w l id, ∃ resp w',
     getRecoveryData w l masterId id tablets = (RecoveryData resp, w')) →
  let tr := (recover masterId tablets backups w).2 in
  recovered tr = (fetches tr).*2 ∧
  filter is_error tr = [] ∧
  no_repeat_in_a_row (recovered tr) ∧
  ∀ id, id ∈ (eligible backups).*2 → id ≠ UINT64_MAX → id ∈ recovered tr.
Proof.
  intros Hnet. unfold recover.
  pose proof (recover_loop_reliable masterId tablets recover_init w backups
                Hnet eq_refl) as Hl.
  pose proof (λ id, recover_loop_complete masterId tablets recover_init w
                      backups id) as Hall.
  destruct (recover_loop masterId tablets recover_init w backups)
    as [[st w'] tr].
  cbn [fst snd] in *. destruct Hl as (Hw & Hrec & Herr & Hrep).
  rewrite Hw, app_nil_r. split; [done|]. split; [done|]. split.
  - intros i x y Hx Hy. by apply (Hrep (S i)).
  - intros id Hid Hne. rewrite Hrec.
    by destruct (Hall id Hid) as [[_ ?]|?].
Qed.

(** X10.  [openSegment] always comes to an end, and it returns rather
    than ends in [DIE] exactly when [replicas] is zero or the host list
    it works with (its own, or the coordinator's answer when its own is
    empty and there is a coordinator) has at least [replicas] BACKUP
    entries and no host is open.  The selection loop does not run
    forever, also when the random number wraps around on the way. *)
Theorem openSegment_returns_exactly_when_it_can env masterId segmentId
    (bm : state) :
  0 ≤ replicas bm < 2 ^ 32 → server_size (hosts bm) < 2 ^ 31 →
  server_size (serverList env) < 2 ^ 31 → 0 ≤ random env < 2 ^ 64 →
  let l := if decide (hosts bm = []) then serverList env else hosts bm in
  ∃ fuel0 r,
    (∀ fuel, (fuel0 ≤ fuel)%nat →
       openSegment fuel env masterId segmentId bm = Some r) ∧
    ((∃ bm' tr, r = Returned bm' tr) ↔
     replicas bm = 0 ∨
     ((hosts bm = [] → coordinator bm = true) ∧
      replicas bm ≤ Z.of_nat (backups l) ∧ openHosts bm = [])).
Proof.
  intros HR Hsize Hsize' Hrnd l. unfold openSegment, selectOpenHosts.
  destruct (Z.eqb_spec (replicas bm) 0) as [E0|Hne].
  { exists 0%nat. eexists. split; [done|]. split; [by left|by eexists _, _]. }
  rewrite hosts_empty_size. unfold updateHostListFromCoordinator. subst l.
  assert (Hdie : ∀ (P : Prop) msg tr,
            ¬ P →
            ((∃ (bm' : state) tr', Died msg tr = Returned bm' tr') ↔
             replicas bm = 0 ∨ P)).
  { intros P msg tr HP. split; [by intros (? & ? & ?)|by intros [?|?]]. }
  destruct (decide (hosts bm = [])) as [Eh|Eh].
  - rewrite bool_decide_true by done. destruct (coordinator bm) eqn:Ec.
    2:{ exists 0%nat. eexists. split; [done|]. apply Hdie. intros [Hc _].
        by specialize (Hc Eh). }
    cbn [hosts set_hosts replicas openHosts].
    rewrite countBackupClients_backups by done.
    destruct (Z.ltb_spec (Z.of_nat (backups (serverList env))) (replicas bm))
      as [Hfew|Hge].
    { exists 0%nat. eexists. split; [done|]. apply Hdie. lia. }
    destruct (bool_decide_reflect (openHosts bm = [])) as [Ho|Ho]; simpl.
    2:{ exists 0%nat. eexists. split; [done|]. apply Hdie. by intros (_ & _ & ?). }
    assert (EN : wrap32 (server_size (serverList env)) = server_size (serverList env)).
    { unfold wrap32, server_size in *. apply Z.mod_small. lia. }
    rewrite EN.
    destruct (selectLoop_terminates (serverList env) (replicas bm) ltac:(lia)
                Hsize' ltac:(lia) (Z.to_nat (replicas bm)) 0 (random env)
                (openHosts bm) [CoordinatorGetServerList]
                ltac:(lia) ltac:(lia) Hrnd) as (fuel0 & [clients tr2] & Hl).
    exists fuel0. eexists. split.
    { intros fuel Hfuel.
      by rewrite (selectLoop_fuel_le _ _ _ _ _ _ _ _ _ _ Hfuel Hl). }
    split; [by right|by eexists _, _].
  - rewrite bool_decide_false by done.
    rewrite countBackupClients_backups by done.
    destruct (Z.ltb_spec (Z.of_nat (backups (hosts bm))) (replicas bm))
      as [Hfew|Hge].
    { exists 0%nat. eexists. split; [done|]. apply Hdie. lia. }
    destruct (bool_decide_reflect (openHosts bm = [])) as [Ho|Ho]; simpl.
    2:{ exists 0%nat. eexists. split; [done|]. apply Hdie. by intros (_ & _ & ?). }
    assert (EN : wrap32 (server_size (hosts bm)) = server_size (hosts bm)).
    { unfold wrap32, server_size in *. apply Z.mod_small. lia. }
    rewrite EN.
    destruct (selectLoop_terminates (hosts bm) (replicas bm) ltac:(lia)
                Hsize ltac:(lia) (Z.to_nat (replicas bm)) 0 (random env)
                (openHosts bm) []
                ltac:(lia) ltac:(lia) Hrnd) as (fuel0 & [clients tr2] & Hl).
    exists fuel0. eexists. split.
    { intros fuel Hfuel.
      by rewrite (selectLoop_fuel_le _ _ _ _ _ _ _ _ _ _ Hfuel Hl). }
    split; [by right|by eexists _, _].
Qed.

End Protocol.

(** Two replicas among three backups, with a random number that wraps
    around after its first use *)
Lemma openSegment_backs_up_to_backups_witness :
  match @openSegment scripted_transport 4 (draw (2 ^ 64 - 1)) 5 42
          (setHostList three_backups (BackupManager_new false 2)) with
  | Some (Returned bm' tr) =>
      ∃ es : list Entry,
        Forall (λ e, e ∈ hosts bm' ∧ server_type e = BACKUP) es ∧
        Z.of_nat (length es) = 2 ∧ openHosts bm' = client_to <$> es
  | _ => False
  end.
Proof.
  destruct (@openSegment scripted_transport 4 (draw (2 ^ 64 - 1)) 5 42
              (setHostList three_backups (BackupManager_new false 2)))
    as [[msg tr|bm' tr]|] eqn:E; [by vm_compute in E| |by vm_compute in E].
  destruct (@openSegment_backs_up_to_backups scripted_transport
              4 (draw (2 ^ 64 - 1)) 5 42
              (setHostList three_backups (BackupManager_new false 2)) bm' tr
              ltac:(simpl; lia) E) as (es & H1 & H2 & H3 & _).
  by exists es.
Defined.

(** A manager without hosts asks its coordinator, which knows one backup. *)
Lemma coordinator_is_asked_only_without_hosts_witness :
  match @openSegment scripted_transport 2
          {| random := 0; serverList := [backup_at "b1"] |} 5 42
          (BackupManager_new true 1) with
  | Some (Returned bm' tr) =>
      hosts bm' = [backup_at "b1"] ∧ CoordinatorGetServerList ∈ tr
  | _ => False
  end.
Proof.
  destruct (@openSegment scripted_transport 2
              {| random := 0; serverList := [backup_at "b1"] |} 5 42
              (BackupManager_new true 1))
    as [[msg tr|bm' tr]|] eqn:E; [by vm_compute in E| |by vm_compute in E].
  destruct (@coordinator_is_asked_only_without_hosts scripted_transport
              _ _ _ _ _ _ E) as ((ext & Etr & _) & Eh).
  split; [exact Eh|]. simpl in Etr. rewrite Etr.
  apply elem_of_cons. right. apply elem_of_cons. by left.
Defined.

Lemma open_close_free_round_trip_witness :
  match @openSegment scripted_transport 6 (draw 7) 5 42
          (setHostList five_hosts (BackupManager_new false 3)) with
  | Some (Returned bm1 tr1) =>
      sessions_freed
        (freeSegment 5 42 (closeSegment 5 42 bm1).1).2 = sessions_opened tr1 ∧
      segments (freeSegment 5 42 (closeSegment 5 42 bm1).1).1 = []
  | _ => False
  end.
Proof.
  destruct (@openSegment scripted_transport 6 (draw 7) 5 42
              (setHostList five_hosts (BackupManager_new false 3)))
    as [[msg tr1|bm1 tr1]|] eqn:E; [by vm_compute in E| |by vm_compute in E].
  destruct (@open_close_free_round_trip scripted_transport 6 (draw 7) 5 42
              (setHostList five_hosts (BackupManager_new false 3)) bm1 tr1
              ltac:(simpl; lia) eq_refl eq_refl E)
    as (_ & _ & E1 & _ & E2 & _ & E3 & _).
  split; [by rewrite E1, E2|exact E3].
Defined.

Lemma writeSegment_reaches_the_open_replicas_witness :
  match @openSegment scripted_transport 6 (draw 7) 5 42
          (setHostList five_hosts (BackupManager_new false 3)) with
  | Some (Returned bm1 tr1) =>
      sessions_written (writeSegment 5 43 0 [1; 2] 2 bm1).2 = sessions_opened tr1
  | _ => False
  end.
Proof.
  destruct (@openSegment scripted_transport 6 (draw 7) 5 42
              (setHostList five_hosts (BackupManager_new false 3)))
    as [[msg tr1|bm1 tr1]|] eqn:E; [by vm_compute in E| |by vm_compute in E].
  exact (proj1 (proj2
           (@writeSegment_reaches_the_open_replicas scripted_transport
              6 (draw 7) 5 42
              (setHostList five_hosts (BackupManager_new false 3)) bm1 tr1
              ltac:(simpl; lia) E 5 43 0 [1; 2] 2))).
Defined.

(** Segment 7 is listed on two backups and segment 9 on one. *)
Lemma recover_replays_what_it_fetches_witness :
  @recovered reliable_transport
    (@recover reliable_transport 5 []
       [backup_for "b1" 7; backup_for "b2" 7; master_at "m1"; backup_for "b3" 9]
       tt).2 = [7; 9].
Proof.
  destruct (@recover_replays_what_it_fetches reliable_transport 5 []
              [backup_for "b1" 7; backup_for "b2" 7; master_at "m1";
               backup_for "b3" 9] tt) as (E & _).
  { intros w l id. by eexists _, _. }
  rewrite E. reflexivity.
Defined.

(** Two replicas among three backups, with a random number that wraps
    around: the call returns. *)
Lemma openSegment_returns_exactly_when_it_can_witness :
  ∃ fuel0 r,
    (∀ fuel, (fuel0 ≤ fuel)%nat →
       @openSegment scripted_transport fuel (draw (2 ^ 64 - 1)) 5 42
         (setHostList three_backups (BackupManager_new false 2)) = Some r) ∧
    ∃ bm' tr, r = Returned bm' tr.
Proof.
  destruct (@openSegment_returns_exactly_when_it_can scripted_transport
              (draw (2 ^ 64 - 1)) 5 42
              (setHostList three_backups (BackupManager_new false 2)))
    as (fuel0 & r & Hr & Hiff).
  - simpl. lia.
  - unfold server_size. simpl. lia.
  - unfold server_size. simpl. lia.
  - simpl. lia.
  - exists fuel0, r. split; [exact Hr|]. apply Hiff. right.
    split; [done|]. split; [unfold backups; simpl; lia|done].
Defined.

End BackupManagerProtocol.

(** * The pool of segments *)

Module LogPool.
Import Log LogFacts.

Section Pool.
Context `{F : SegmentFraming} `{C : !LogCleaner}.

(** Equations between sets of addresses, element by element *)
Ltac by_elements :=
  apply set_eq; intros ?;
  repeat (rewrite elem_of_union || rewrite elem_of_difference ||
          rewrite elem_of_singleton || rewrite elem_of_empty);
  try tauto.

(** *** Construction *)

Lemma addSegmentMemory_fields (b : Pointer) (L : state) :
  let L' := addSegmentMemory b L in
  segmentFreeList L' = segmentFreeList L ++ [b] ∧
  maximumAppendableBytes L' =
    (if decide (maximumAppendableBytes L = 0)
     then Segment_appendableBytes (Segment_new 0 0 b (segmentCapacity L) false).1
     else maximumAppendableBytes L) ∧
  logId L' = logId L ∧ logCapacity L' = logCapacity L ∧
  segmentCapacity L' = segmentCapacity L ∧
  nextSegmentId L' = nextSegmentId L ∧ head L' = head L ∧
  callbackMap L' = callbackMap L ∧ activeIdMap L' = activeIdMap L ∧
  activeBaseAddressMap L' = activeBaseAddressMap L ∧
  backup L' = backup L ∧ heap L' = heap L.
Proof.
  unfold addSegmentMemory. cbn [maximumAppendableBytes addToFreeList
    set_segmentFreeList segmentCapacity].
  destruct (Z.eqb_spec (maximumAppendableBytes L) 0) as [E|E].
  - rewrite decide_True by done. done.
  - rewrite decide_False by done. done.
Qed.

Lemma add_blocks_fields (blocks : list Pointer) (L : state) :
  let L' := foldl (λ L b, addSegmentMemory b L) L blocks in
  segmentFreeList L' = segmentFreeList L ++ blocks ∧
  maximumAppendableBytes L' =
    (if decide (maximumAppendableBytes L = 0)
     then default 0
            (filter (λ a, a ≠ 0)
               ((λ b, Segment_appendableBytes
                        (Segment_new 0 0 b (segmentCapacity L) false).1)
                  <$> blocks) !! 0%nat)
     else maximumAppendableBytes L) ∧
  logId L' = logId L ∧ logCapacity L' = logCapacity L ∧
  segmentCapacity L' = segmentCapacity L ∧
  nextSegmentId L' = nextSegmentId L ∧ head L' = head L ∧
  callbackMap L' = callbackMap L ∧ activeIdMap L' = activeIdMap L ∧
  activeBaseAddressMap L' = activeBaseAddressMap L ∧
  backup L' = backup L ∧ heap L' = heap L.
Proof.
  revert L. induction blocks as [|b blocks IH]; intros L; cbn [foldl].
  { rewrite app_nil_r. by destruct (decide _). }
  destruct (addSegmentMemory_fields b L)
    as (E1 & E2 & E3 & E4 & E5 & E6 & E7 & E8 & E9 & E10 & E11 & E12).
  destruct (IH (addSegmentMemory b L))
    as (I1 & I2 & I3 & I4 & I5 & I6 & I7 & I8 & I9 & I10 & I11 & I12).
  cbv zeta in *.
  rewrite I1, I2, I3, I4, I5, I6, I7, I8, I9, I10, I11, I12.
  rewrite E1, E2, E3, E4, E5, E6, E7, E8, E9, E10, E11, E12.
  rewrite <- app_assoc. split_and!; try done.
  rewrite fmap_cons, filter_cons.
  repeat case_decide; try done; try lia.
Qed.

Lemma add_blocks_fmap (xmemalign : nat → Pointer) (l : list nat) (L : state) :
  foldl (λ L i, addSegmentMemory (xmemalign i) L) L l =
  foldl (λ L b, addSegmentMemory b L) L (xmemalign <$> l).
Proof. revert L. induction l as [|i l IH]; intros L; simpl; [done|apply IH]. Qed.

Lemma Log_new_fields logId0 logCapacity0 capacity backup0 xmemalign (L0 : state) :
  Log_new logId0 logCapacity0 capacity backup0 xmemalign = Return L0 →
  let blocks := xmemalign <$> seq 0 (Z.to_nat (logCapacity0 / capacity)) in
  1 ≤ logCapacity0 / capacity ∧
  segmentFreeList L0 = blocks ∧
  maximumAppendableBytes L0 =
    default 0
      (filter (λ a, a ≠ 0)
         ((λ b, Segment_appendableBytes (Segment_new 0 0 b capacity false).1)
            <$> blocks) !! 0%nat) ∧
  head L0 = None ∧ nextSegmentId L0 = 0 ∧ heap L0 = [] ∧
  activeIdMap L0 = ∅ ∧ activeBaseAddressMap L0 = ∅ ∧ callbackMap L0 = ∅ ∧
  logId L0 = logId0 ∧ logCapacity L0 = logCapacity0 ∧
  segmentCapacity L0 = capacity ∧ backup L0 = backup0.
Proof.
  unfold Log_new. destruct (Z.ltb_spec (logCapacity0 / capacity) 1) as [?|Hn];
    [done|].
  intros [= <-]. rewrite add_blocks_fmap.
  match goal with |- context [foldl _ ?L _] => set (Linit := L) end.
  destruct (add_blocks_fields
              (xmemalign <$> seq 0 (Z.to_nat (logCapacity0 / capacity))) Linit)
    as (I1 & I2 & I3 & I4 & I5 & I6 & I7 & I8 & I9 & I10 & I11 & I12).
  cbv zeta in *.
  rewrite I1, I2, I3, I4, I5, I6, I7, I8, I9, I10, I11, I12.
  subst Linit. simpl. done.
Qed.

(** X11.  The constructor.  With a segment capacity that is not zero,
    [Log::Log] throws exactly when the log capacity is less than one
    segment.  Otherwise it allocates [logCapacity / segmentCapacity]
    blocks and puts them on the free list in the order of allocation;
    there is no head, no live segment and no registered type, and the
    first segment id will be 0.  [maximumAppendableBytes] is what a
    scratch segment over the first block reports, or over the first
    block for which the report is not zero. *)
Theorem Log_new_builds_the_pool logId0 logCapacity0 capacity backup0 xmemalign :
  0 < capacity → 0 ≤ logCapacity0 →
  let blocks := xmemalign <$> seq 0 (Z.to_nat (logCapacity0 / capacity)) in
  (logCapacity0 < capacity →
   Log_new logId0 logCapacity0 capacity backup0 xmemalign =
     Throw (LogException_at "insufficient Log memory for even one segment!")) ∧
  (capacity ≤ logCapacity0 →
   ∃ L0 : state,
     Log_new logId0 logCapacity0 capacity backup0 xmemalign = Return L0 ∧
     segmentFreeList L0 = blocks ∧ blocks ≠ [] ∧
     maximumAppendableBytes L0 =
       default 0
         (filter (λ a, a ≠ 0)
            ((λ b, Segment_appendableBytes (Segment_new 0 0 b capacity false).1)
               <$> blocks) !! 0%nat) ∧
     head L0 = None ∧ nextSegmentId L0 = 0 ∧ heap L0 = [] ∧
     activeIdMap L0 = ∅ ∧ activeBaseAddressMap L0 = ∅ ∧ callbackMap L0 = ∅ ∧
     logId L0 = logId0 ∧ logCapacity L0 = logCapacity0 ∧
     segmentCapacity L0 = capacity ∧ backup L0 = backup0).
Proof.
  intros Hc Hl blocks. split.
  - intros Hlt. unfold Log_new. rewrite Z.div_small by lia. done.
  - intros Hge.
    assert (Hn : 1 ≤ logCapacity0 / capacity).
    { apply Z.div_le_lower_bound; lia. }
    destruct (Log_new logId0 logCapacity0 capacity backup0 xmemalign)
      as [e|L0] eqn:En.
    { unfold Log_new in En.
      by destruct (Z.ltb_spec (logCapacity0 / capacity) 1); [lia|]. }
    exists L0. split; [done|].
    destruct (Log_new_fields _ _ _ _ _ _ En)
      as (_ & E1 & E2 & E3 & E4 & E5 & E6 & E7 & E8 & E9 & E10 & E11 & E12).
    split; [done|]. split; [|done].
    subst blocks. destruct (Z.to_nat (logCapacity0 / capacity)) eqn:E; [lia|done].
Qed.

(** *** The free list *)

(** X12.  The free list is a stack.  [getFromFreeList] hands back the
    buffer that [addToFreeList] added last and leaves the log as it was
    before that buffer was added; on an empty list it returns [NULL]
    and changes nothing; otherwise it takes the last entry off and
    keeps the others in their order. *)
Theorem free_list_is_a_stack (L : state) :
  (∀ p, getFromFreeList (addToFreeList p L) = (Some p, L)) ∧
  (segmentFreeList L = [] → getFromFreeList L = (None, L)) ∧
  (∀ b L', getFromFreeList L = (Some b, L') →
     segmentFreeList L = segmentFreeList L' ++ [b] ∧
     L' = set_segmentFreeList (segmentFreeList L') L).
Proof.
  split_and!.
  - intros p. unfold getFromFreeList, addToFreeList. simpl.
    rewrite last_snoc, length_app. simpl.
    replace (Nat.pred (length (segmentFreeList L) + 1)) with
      (length (segmentFreeList L)) by lia.
    rewrite take_app_length. by destruct L.
  - intros E. by apply getFromFreeList_None.
  - intros b L'. apply getFromFreeList_Some.
Qed.

(** *** The pool invariant along [append] *)

Lemma pool_update_segment (L : state) h (s s' : Segment) :
  pool_inv L → heap L !! h = Some s →
  seg_id s' = seg_id s → seg_baseAddress s' = seg_baseAddress s →
  pool_inv (set_heap (<[h := s']> (heap L)) L) ∧
  pool_buffers (set_heap (<[h := s']> (heap L)) L) = pool_buffers L ∧
  nextSegmentId (set_heap (<[h := s']> (heap L)) L) = nextSegmentId L.
Proof.
  intros [Hi Hb Hn Hp Hf Hu Hh] Hs Eid Ebase. split; [|done].
  split; simpl; try done.
  - intros id h0 Hid. destruct (Hi id h0 Hid) as (s0 & Hs0 & E1 & E2).
    destruct (decide (h0 = h)) as [->|Hne].
    + exists s'. rewrite list_lookup_insert_eq by (by eapply lookup_lt_Some).
      assert (s0 = s) as -> by congruence. by rewrite Eid, Ebase.
    + exists s0. by rewrite list_lookup_insert_ne.
  - intros base h0 Hbase. destruct (Hb base h0 Hbase) as (s0 & Hs0 & E1 & E2).
    destruct (decide (h0 = h)) as [->|Hne].
    + exists s'. rewrite list_lookup_insert_eq by (by eapply lookup_lt_Some).
      assert (s0 = s) as -> by congruence. by rewrite Eid, Ebase.
    + exists s0. by rewrite list_lookup_insert_ne.
Qed.

Lemma pool_head_append type buffer length (L L1 : state) r ev :
  pool_inv L → head_append type buffer length L = Some (r, L1, ev) →
  pool_inv L1 ∧ pool_buffers L1 = pool_buffers L ∧
  nextSegmentId L1 = nextSegmentId L.
Proof.
  intros Hp Ha. apply head_append_inv in Ha
    as [(_ & _ & -> & _)|(h & s & s' & _ & Hs & Ea & -> & _)]; [done|].
  apply Segment_append_fields in Ea as (_ & Eid & Eb & _).
  by eapply pool_update_segment.
Qed.

Lemma pool_close_head (L L2 : state) ev :
  pool_inv L → close_head L = Some (L2, ev) →
  pool_inv L2 ∧ pool_buffers L2 = pool_buffers L ∧
  nextSegmentId L2 = nextSegmentId L.
Proof.
  intros Hp Hc. apply close_head_inv in Hc
    as [(_ & -> & _)|(h & s & _ & Hs & -> & _)]; [done|].
  destruct (pool_update_segment L h s (Segment_close s).1 Hp Hs eq_refl eq_refl)
    as ([Hi Hb Hn Hnp Hf Hu Hh] & E1 & E2).
  split; [|done]. split; done.
Qed.

Lemma pool_getFromFreeList (L L3 : state) (b : Pointer) :
  pool_inv L → getFromFreeList L = (Some b, L3) →
  pool_inv L3 ∧ (b ∉ segmentFreeList L3) ∧
  activeBaseAddressMap L3 !! b = None ∧
  pool_buffers L = {[b]} ∪ pool_buffers L3 ∧
  nextSegmentId L3 = nextSegmentId L.
Proof.
  intros [Hi Hb Hn Hp Hf Hu Hh] Hg.
  apply getFromFreeList_Some in Hg as [El ->]. simpl in *.
  rewrite El in Hf. apply NoDup_app in Hf as (Hf1 & Hf2 & _).
  split_and!.
  - split; simpl; try done.
    intros x Hx. apply Hu. rewrite El. apply elem_of_app. by left.
  - intros Hin. apply (Hf2 b Hin). by apply list_elem_of_singleton.
  - apply Hu. rewrite El. apply elem_of_app. right.
    by apply list_elem_of_singleton.
  - unfold pool_buffers. simpl. rewrite El, list_to_set_app_L. simpl.
    by_elements.
  - done.
Qed.

Lemma pool_new_head (b : Pointer) (L L4 : state) ev :
  pool_inv L → b ∉ segmentFreeList L → activeBaseAddressMap L !! b = None →
  nextSegmentId L + 1 < 2 ^ 64 →
  new_head b L = (L4, ev) →
  pool_inv L4 ∧ pool_buffers L4 = {[b]} ∪ pool_buffers L ∧
  nextSegmentId L4 = nextSegmentId L + 1.
Proof.
  intros [Hi Hb Hn Hp Hf Hu Hh] Hnew Hunused Hlt. unfold new_head. simpl.
  intros [= <- <-].
  assert (Ew : wrap64 (nextSegmentId L + 1) = nextSegmentId L + 1).
  { unfold wrap64. apply Z.mod_small. lia. }
  assert (Hfresh : activeIdMap L !! nextSegmentId L = None).
  { destruct (activeIdMap L !! nextSegmentId L) as [h|] eqn:E; [|done].
    apply Hn in E. lia. }
  split_and!.
  - split; simpl; unfold getId, getBaseAddress; simpl.
    + intros id h. destruct (decide (id = nextSegmentId L)) as [->|Hne].
      * rewrite lookup_insert_eq. intros [= <-]. eexists. split.
        { rewrite lookup_app_r by done. by rewrite Nat.sub_diag. }
        simpl. split; [done|]. apply lookup_insert_eq.
      * rewrite lookup_insert_ne by done. intros Hid.
        destruct (Hi id h Hid) as (s0 & Hs0 & E1 & E2).
        exists s0. split; [by apply lookup_app_l_Some|]. split; [done|].
        rewrite lookup_insert_ne; [done|]. intros E. rewrite <- E in E2.
        congruence.
    + intros base h. destruct (decide (base = b)) as [->|Hne].
      * rewrite lookup_insert_eq. intros [= <-]. eexists. split.
        { rewrite lookup_app_r by done. by rewrite Nat.sub_diag. }
        simpl. split; [done|]. apply lookup_insert_eq.
      * rewrite lookup_insert_ne by done. intros Hbase.
        destruct (Hb base h Hbase) as (s0 & Hs0 & E1 & E2).
        exists s0. split; [by apply lookup_app_l_Some|]. split; [done|].
        rewrite lookup_insert_ne; [done|]. intros E. rewrite <- E in E2.
        congruence.
    + intros id h. rewrite Ew.
      destruct (decide (id = nextSegmentId L)) as [->|Hne]; [lia|].
      rewrite lookup_insert_ne by done. intros Hid. apply Hn in Hid. lia.
    + rewrite Ew. lia.
    + done.
    + intros x Hx. rewrite lookup_insert_ne; [by apply Hu|]. by intros <-.
    + intros h0 [= <-]. exists (nextSegmentId L). apply lookup_insert_eq.
  - unfold pool_buffers. simpl. unfold getBaseAddress. simpl.
    rewrite dom_insert_L. by_elements.
  - simpl. done.
Qed.

Lemma append_loop_pool fuel type buffer length (L L' : state) r tr :
  cleaner_keeps_pool → pool_inv L →
  append_loop fuel type buffer length L = Some (r, L', tr) →
  ids_in_range tr →
  pool_inv L' ∧ pool_buffers L' = pool_buffers L.
Proof.
  intros Hclean. revert L tr.
  induction fuel as [|fuel IH]; intros L tr Hp; [done|].
  rewrite append_loop_S.
  destruct (head_append type buffer length L) as [[[q L1] ev1]|] eqn:Ea; [|done].
  destruct (pool_head_append _ _ _ _ _ _ _ Hp Ea) as (Hp1 & Es1 & En1).
  destruct q as [q|].
  { by intros [= _ <- _]. }
  destruct (close_head L1) as [[L2 ev2]|] eqn:Ec; [|done].
  destruct (pool_close_head _ _ _ Hp1 Ec) as (Hp2 & Es2 & En2).
  destruct (getFromFreeList L2) as [[b|] L3] eqn:Eg.
  - destruct (pool_getFromFreeList _ _ _ Hp2 Eg) as (Hp3 & Hb1 & Hb2 & Es3 & En3).
    destruct (new_head b L3) as [L4 ev3] eqn:Enew.
    destruct (LogCleaner_clean 1 L4) as [L5 ev4] eqn:Ek.
    destruct (append_loop fuel type buffer length L5) as [[[r6 L6] tr6]|] eqn:El;
      [|done].
    intros [= <- <- <-] Hids.
    destruct (new_head_head _ _ _ _ Enew) as (_ & _ & Eev3).
    unfold ids_in_range in Hids.
    rewrite !Forall_app, Forall_cons, Forall_app in Hids.
    destruct Hids as (_ & _ & Hnew & _ & _ & Hrest).
    rewrite Eev3 in Hnew. apply Forall_cons in Hnew as [Hid _].
    destruct (pool_new_head _ _ _ _ Hp3 Hb1 Hb2 ltac:(lia) Enew)
      as (Hp4 & Es4 & En4).
    destruct (Hclean 1 L4 Hp4) as (Hp5 & Es5).
    rewrite Ek in Hp5, Es5. cbn [fst] in *.
    destruct (IH _ _ Hp5 El Hrest) as (Hp6 & Es6).
    split; [done|]. congruence.
  - apply getFromFreeList_None in Eg as [_ ->]. intros [= _ <- _] _.
    split; [done|]. congruence.
Qed.

Lemma pool_step (L L' : state) :
  cleaner_keeps_pool → pool_inv L → step_in_range L L' →
  pool_inv L' ∧ pool_buffers L' = pool_buffers L.
Proof.
  intros Hclean Hp Hs.
  destruct Hs as [fuel type buffer length L r L' tr Ha Hids|t cb arg L].
  - unfold append in Ha. destruct (maximumAppendableBytes L <? length).
    + by injection Ha as _ <- _.
    + destruct (append_loop fuel type buffer length L) as [[[q L1] tr1]|] eqn:El;
        [|done].
      injection Ha as _ <- <-.
      by apply (append_loop_pool _ _ _ _ _ _ _ _ Hclean Hp El).
  - unfold registerType. destruct (callbackMap L !! t); [done|].
    destruct Hp as [Hi Hb Hn Hnp Hf Hu Hh]. split; [|done]. split; simpl; done.
Qed.

Lemma pool_Log_new logId0 logCapacity0 capacity backup0 xmemalign (L0 : state) :
  (∀ i j, (i < Z.to_nat (logCapacity0 / capacity))%nat →
          (j < Z.to_nat (logCapacity0 / capacity))%nat →
          xmemalign i = xmemalign j → i = j) →
  Log_new logId0 logCapacity0 capacity backup0 xmemalign = Return L0 →
  let blocks := xmemalign <$> seq 0 (Z.to_nat (logCapacity0 / capacity)) in
  NoDup blocks ∧ pool_inv L0 ∧ pool_buffers L0 = list_to_set blocks.
Proof.
  intros Hinj Hnew blocks.
  destruct (Log_new_fields _ _ _ _ _ _ Hnew)
    as (_ & E1 & _ & _ & E4 & _ & E6 & E7 & _).
  assert (Hnd : NoDup blocks).
  { apply NoDup_fmap_2_strong; [|apply NoDup_seq].
    intros i j Hi%elem_of_seq Hj%elem_of_seq. apply Hinj; lia. }
  split; [done|]. split.
  - split.
    + intros id h. by rewrite E6, lookup_empty.
    + intros base h. by rewrite E7, lookup_empty.
    + intros id h. by rewrite E6, lookup_empty.
    + by rewrite E4.
    + by rewrite E1.
    + intros b _. by rewrite E7, lookup_empty.
    + intros h. destruct (Log_new_fields _ _ _ _ _ _ Hnew) as (_ & _ & _ & E3 & _).
      by rewrite E3.
  - unfold pool_buffers. rewrite E1, E7, dom_empty_L. fold blocks.
    by rewrite union_empty_r_L.
Qed.

Lemma map_size_le_inj (m1 m2 : gmap Z SegRef) :
  (∀ k h, m1 !! k = Some h → ∃ k', m2 !! k' = Some h) →
  (∀ k k' h, m1 !! k = Some h → m1 !! k' = Some h → k = k') →
  (size m1 ≤ size m2)%nat.
Proof.
  revert m2. induction m1 as [|k h m Hk IH] using map_ind; intros m2 Hin Hinj.
  { rewrite map_size_empty. lia. }
  rewrite map_size_insert_None by done.
  destruct (Hin k h) as (k' & Hk'); [apply lookup_insert_eq|].
  assert (Hle : (size m ≤ size (delete k' m2))%nat).
  { apply IH.
    - intros k0 h0 H0.
      assert (Hne : k0 ≠ k) by (intros ->; congruence).
      destruct (Hin k0 h0) as (k0' & H0'); [by rewrite lookup_insert_ne|].
      exists k0'. rewrite lookup_delete_ne; [done|]. intros <-.
      assert (h0 = h) as -> by congruence.
      apply Hne. apply (Hinj k0 k h); [by rewrite lookup_insert_ne|].
      apply lookup_insert_eq.
    - intros k1 k2 h0 H1 H2.
      assert (k1 ≠ k) by (intros ->; congruence).
      assert (k2 ≠ k) by (intros ->; congruence).
      apply (Hinj k1 k2 h0); by rewrite lookup_insert_ne. }
  rewrite map_size_delete_Some in Hle by done.
  assert (size m2 ≠ 0)%nat; [|lia].
  intros E0. apply map_size_empty_inv in E0. subst m2. by rewrite lookup_empty in Hk'.
Qed.

Lemma size_maps_agree (L : state) :
  pool_inv L → size (activeIdMap L) = size (activeBaseAddressMap L).
Proof.
  intros [Hi Hb Hn Hp Hf Hu Hh]. apply Nat.le_antisymm; apply map_size_le_inj.
  - intros id h Hid. destruct (Hi id h Hid) as (s & _ & _ & E). by eexists.
  - intros id id' h H1 H2.
    destruct (Hi id h H1) as (s & Hs & <- & _).
    destruct (Hi id' h H2) as (s' & Hs' & <- & _). congruence.
  - intros base h Hbase. destruct (Hb base h Hbase) as (s & _ & _ & E).
    by eexists.
  - intros base base' h H1 H2.
    destruct (Hb base h H1) as (s & Hs & <- & _).
    destruct (Hb base' h H2) as (s' & Hs' & <- & _). congruence.
Qed.

Lemma pool_is_kept logId0 logCapacity0 capacity backup0 xmemalign
    (L0 L : state) :
  cleaner_keeps_pool →
  (∀ i j, (i < Z.to_nat (logCapacity0 / capacity))%nat →
          (j < Z.to_nat (logCapacity0 / capacity))%nat →
          xmemalign i = xmemalign j → i = j) →
  Log_new logId0 logCapacity0 capacity backup0 xmemalign = Return L0 →
  rtc step_in_range L0 L →
  let blocks := xmemalign <$> seq 0 (Z.to_nat (logCapacity0 / capacity)) in
  NoDup blocks ∧ pool_inv L ∧ pool_buffers L = list_to_set blocks.
Proof.
  intros Hclean Hinj Hnew Hrun blocks.
  destruct (pool_Log_new _ _ _ _ _ _ Hinj Hnew) as (Hnd & Hp0 & Hs0).
  split; [done|]. fold blocks in Hs0. rewrite <- Hs0. clear Hnew Hs0.
  induction Hrun as [|L1 L2 L3 Hs _ IH]; [done|].
  destruct (pool_step _ _ Hclean Hp0 Hs) as [Hp2 Es2].
  destruct (IH Hp2) as [Hp3 Es3]. split; [done|]. congruence.
Qed.

Lemma pool_count (L : state) :
  pool_inv L →
  size (pool_buffers L) =
    (length (segmentFreeList L) + size (activeBaseAddressMap L))%nat.
Proof.
  intros [Hi Hb Hn Hp Hf Hu Hh]. unfold pool_buffers.
  rewrite size_union.
  - by rewrite size_list_to_set, size_dom.
  - intros b Hb1 Hb2. apply elem_of_list_to_set in Hb1.
    apply elem_of_dom in Hb2 as [h Hb2]. apply Hu in Hb1. congruence.
Qed.

(** X13.  The pool of buffers is conserved.  Assume that the allocator
    hands out distinct blocks, that the cleaner keeps the pool (its
    bookkeeping and its set of buffers), and that no segment was given
    the id [2^64 - 1], after which the ids wrap around.  Then through
    every sequence of
    [append] and [registerType] calls, the blocks that the constructor
    has allocated, and no other addresses, are on the free list or are
    the buffer of a live segment, and no block is both; no block is on
    the free list twice.  So the free buffers and the live segments
    add up to [logCapacity / segmentCapacity].  The two maps index the
    same segments, each under its own id and base address, and every
    live id is below the id that comes next. *)
Theorem pool_is_conserved logId0 logCapacity0 capacity backup0 xmemalign
    (L0 L : state) :
  cleaner_keeps_pool →
  (∀ i j, (i < Z.to_nat (logCapacity0 / capacity))%nat →
          (j < Z.to_nat (logCapacity0 / capacity))%nat →
          xmemalign i = xmemalign j → i = j) →
  Log_new logId0 logCapacity0 capacity backup0 xmemalign = Return L0 →
  rtc step_in_range L0 L →
  let blocks := xmemalign <$> seq 0 (Z.to_nat (logCapacity0 / capacity)) in
  pool_inv L ∧
  (∀ b, b ∈ blocks ↔
        b ∈ segmentFreeList L ∨ is_Some (activeBaseAddressMap L !! b)) ∧
  (∀ b, b ∈ segmentFreeList L → activeBaseAddressMap L !! b = None) ∧
  NoDup (segmentFreeList L) ∧
  (length (segmentFreeList L) + size (activeBaseAddressMap L))%nat =
    Z.to_nat (logCapacity0 / capacity) ∧
  size (activeIdMap L) = size (activeBaseAddressMap L).
Proof.
  intros Hclean Hinj Hnew Hrun blocks.
  destruct (pool_is_kept _ _ _ _ _ _ _ Hclean Hinj Hnew Hrun) as (Hnd & Hp & Hs).
  fold blocks in Hnd, Hs.
  split; [done|]. split_and!.
  - intros b. rewrite <- (elem_of_list_to_set (C := gset Z) b blocks), <- Hs.
    unfold pool_buffers. rewrite elem_of_union, elem_of_list_to_set, elem_of_dom.
    done.
  - by destruct Hp.
  - by destruct Hp.
  - rewrite <- pool_count, Hs by done. rewrite size_list_to_set by done.
    subst blocks. by rewrite length_fmap, length_seq.
  - by apply size_maps_agree.
Qed.

(** X14.  Retiring a segment.  [eraseFromActiveMaps] for a live segment
    other than the head,
    followed by [addToFreeList] of its buffer, keeps the pool as it must
    be: the maps still index the same segments, the buffer is free once
    and no longer in use, and the number of buffers is the same.  The
    segment is no longer live, and the liveness of the others is as
    before. *)
Theorem retiring_a_segment_keeps_the_pool (L : state) h (s : Segment) :
  pool_inv L → activeIdMap L !! getId s = Some h → heap L !! h = Some s →
  head L ≠ Some h →
  let L' := addToFreeList (getBaseAddress s) (eraseFromActiveMaps s L) in
  pool_inv L' ∧ pool_buffers L' = pool_buffers L ∧
  isSegmentLive L' (getId s) = false ∧
  activeBaseAddressMap L' !! getBaseAddress s = None ∧
  getBaseAddress s ∈ segmentFreeList L' ∧
  (∀ id, id ≠ getId s → isSegmentLive L' id = isSegmentLive L id).
Proof.
  intros [Hi Hb Hn Hp Hf Hu Hh] Hid Hs Hnothead L'.
  unfold getId, getBaseAddress in *.
  destruct (Hi _ _ Hid) as (s0 & Hs0 & _ & Hbase).
  assert (s0 = s) as -> by congruence.
  assert (Hnotfree : seg_baseAddress s ∉ segmentFreeList L).
  { intros Hin. apply Hu in Hin. congruence. }
  subst L'. unfold addToFreeList, eraseFromActiveMaps, getId, getBaseAddress.
  split_and!.
  - split; simpl.
    + intros id h0. destruct (decide (id = seg_id s)) as [->|Hne].
      { by rewrite lookup_delete_eq. }
      rewrite lookup_delete_ne by done. intros H0.
      destruct (Hi id h0 H0) as (s1 & Hs1 & E1 & E2).
      exists s1. split; [done|]. split; [done|].
      rewrite lookup_delete_ne; [done|]. intros E. rewrite E in Hbase.
      assert (h0 = h) as -> by congruence. congruence.
    + intros base h0. destruct (decide (base = seg_baseAddress s)) as [->|Hne].
      { by rewrite lookup_delete_eq. }
      rewrite lookup_delete_ne by done. intros H0.
      destruct (Hb base h0 H0) as (s1 & Hs1 & E1 & E2).
      exists s1. split; [done|]. split; [done|].
      rewrite lookup_delete_ne; [done|]. intros E. rewrite E in Hid.
      assert (h0 = h) as -> by congruence. congruence.
    + intros id h0. destruct (decide (id = seg_id s)) as [->|Hne].
      { by rewrite lookup_delete_eq. }
      rewrite lookup_delete_ne by done. apply Hn.
    + done.
    + apply NoDup_app. split; [done|]. split; [|apply NoDup_singleton].
      intros x Hx Hx'. apply list_elem_of_singleton in Hx'. by subst.
    + intros b [Hin|Hin%list_elem_of_singleton]%elem_of_app.
      * destruct (decide (b = seg_baseAddress s)) as [->|Hne]; [done|].
        rewrite lookup_delete_ne by done. by apply Hu.
      * subst. by rewrite lookup_delete_eq.
    + intros h0 Hh0. destruct (Hh h0 Hh0) as (id & Hid0). exists id.
      rewrite lookup_delete_ne; [done|]. intros <-. congruence.
  - unfold pool_buffers. simpl. rewrite list_to_set_app_L, dom_delete_L. simpl.
    assert (Hdom : seg_baseAddress s ∈ dom (activeBaseAddressMap L))
      by (apply elem_of_dom; by eexists).
    apply set_eq. intros x.
    repeat (rewrite elem_of_union || rewrite elem_of_difference ||
            rewrite elem_of_singleton || rewrite elem_of_empty).
    destruct (decide (x = seg_baseAddress s)) as [->|Hx]; tauto.
  - unfold isSegmentLive. simpl. rewrite lookup_delete_eq.
    apply bool_decide_false. by intros [? ?].
  - simpl. by rewrite lookup_delete_eq.
  - simpl. apply elem_of_app. right. by apply list_elem_of_singleton.
  - intros id Hne. unfold isSegmentLive. simpl.
    by rewrite lookup_delete_ne by done.
Qed.

(** X15.  The active maps.  A segment that [addToActiveMaps] has
    registered is live, and a pointer to the start of its buffer leads
    to it; [eraseFromActiveMaps] takes it out of both maps again, and
    when neither its id nor its base address was in use before, the log
    is back to what it was. *)
Theorem eraseFromActiveMaps_undoes_addToActiveMaps (L : state) h (s : Segment) :
  let L1 := addToActiveMaps h s L in
  isSegmentLive L1 (getId s) = true ∧
  activeBaseAddressMap L1 !! getBaseAddress s = Some h ∧
  isSegmentLive (eraseFromActiveMaps s L1) (getId s) = false ∧
  activeBaseAddressMap (eraseFromActiveMaps s L1) !! getBaseAddress s = None ∧
  (activeIdMap L !! getId s = None →
   activeBaseAddressMap L !! getBaseAddress s = None →
   eraseFromActiveMaps s L1 = L).
Proof.
  intros L1. subst L1. unfold addToActiveMaps, eraseFromActiveMaps, isSegmentLive.
  simpl. split_and!.
  - rewrite lookup_insert_eq. by apply bool_decide_true.
  - apply lookup_insert_eq.
  - rewrite lookup_delete_eq. apply bool_decide_false. by intros [? ?].
  - apply lookup_delete_eq.
  - intros H1 H2. unfold set_activeMaps. simpl.
    rewrite !delete_insert_id by done. by destruct L.
Qed.

(** *** Pointers, ids and liveness *)

Lemma step_in_range_step (L L' : state) : step_in_range L L' → step L L'.
Proof.
  intros [fuel type buffer length L1 r L2 tr Ha _|t cb arg L1];
    [by eapply step_append|apply step_registerType].
Qed.

Lemma in_range_reachable (L0 L : state) : rtc step_in_range L0 L → reachable L0 L.
Proof.
  induction 1 as [|L1 L2 L3 Hs _ IH]; [apply rtc_refl|].
  eapply rtc_l; [by apply step_in_range_step|done].
Qed.

Lemma free_getSegmentId (L : state) p :
  match getSegmentId L p with
  | Some (Return _) =>
      ∃ h, activeBaseAddressMap L !! getSegmentBaseAddress L p = Some h ∧
           free L p = Some (Return (SegmentFree h p))
  | Some (Throw e) => free L p = Some (Throw e)
  | None => free L p = None
  end.
Proof.
  unfold getSegmentId, free.
  destruct (activeBaseAddressMap L !! getSegmentBaseAddress L p) as [h|]; [|done].
  destruct (heap L !! h); [by exists h|done].
Qed.

(** X16.  Pointers, ids and liveness agree.  Assume blocks that are
    distinct and aligned to [segmentCapacity], a power of two, a
    cleaner that keeps the pool and the shape of the log, and that no
    segment was given the id [2^64 - 1].  Then in every log that the
    constructor and calls of [append] and [registerType] lead to:
    [getSegmentId] never follows a dangling segment pointer; an id that
    it returns is live and below the id that comes next; [free] throws
    for exactly the pointers for which [getSegmentId] throws, and
    otherwise forwards the pointer to the segment indexed under its
    base address; a pointer into a buffer of the free list is rejected
    by both. *)
Theorem pointers_resolve_to_live_segments
    logId0 logCapacity0 capacity backup0 xmemalign (L0 L : state) :
  cleaner_keeps_wf → cleaner_keeps_pool →
  (∃ k, 0 ≤ k ∧ capacity = 2 ^ k) →
  (∀ i, xmemalign i mod capacity = 0) →
  (∀ i j, (i < Z.to_nat (logCapacity0 / capacity))%nat →
          (j < Z.to_nat (logCapacity0 / capacity))%nat →
          xmemalign i = xmemalign j → i = j) →
  Log_new logId0 logCapacity0 capacity backup0 xmemalign = Return L0 →
  rtc step_in_range L0 L →
  ∀ p,
    getSegmentId L p ≠ None ∧
    (∀ id, getSegmentId L p = Some (Return id) →
       isSegmentLive L id = true ∧ 0 ≤ id < nextSegmentId L ∧
       ∃ h, activeIdMap L !! id = Some h ∧
            free L p = Some (Return (SegmentFree h p))) ∧
    (∀ e, getSegmentId L p = Some (Throw e) ↔ free L p = Some (Throw e)) ∧
    (∀ b, b ∈ segmentFreeList L → b ≤ p < b + segmentCapacity L →
       getSegmentId L p =
         Some (Throw (LogException_at "free on invalid pointer")) ∧
       free L p = Some (Throw (LogException_at "free on invalid pointer"))).
Proof.
  intros Hcwf Hcpool Hpow Hal Hinj Hnew Hrun p.
  assert (Hwf : log_wf L).
  { eapply wf_reachable; [done| |by apply in_range_reachable].
    by eapply wf_Log_new. }
  assert (Hpool : pool_inv L).
  { by destruct (pool_is_kept _ _ _ _ _ _ _ Hcpool Hinj Hnew Hrun) as (_ & ? & _). }
  destruct Hpool as [Hi Hb Hn Hp Hf Hu Hh].
  pose proof (free_getSegmentId L p) as Hfree.
  split_and!.
  - unfold getSegmentId.
    destruct (activeBaseAddressMap L !! getSegmentBaseAddress L p) as [h|] eqn:E;
      [|done].
    destruct (Hb _ _ E) as (s & -> & _). done.
  - intros id Hid. rewrite Hid in Hfree. destruct Hfree as (h & Hbase & Hfr).
    unfold getSegmentId in Hid. rewrite Hbase in Hid.
    destruct (Hb _ _ Hbase) as (s & Hs & _ & Hidx). rewrite Hs in Hid.
    injection Hid as <-. unfold getId. split_and!.
    + unfold isSegmentLive. apply bool_decide_true. by eexists.
    + by apply (Hn _ h).
    + by apply (Hn _ h).
    + by exists h.
  - intros e. destruct (getSegmentId L p) as [[e'|id]|] eqn:Eg.
    + rewrite Hfree. split; by intros [= ->].
    + destruct Hfree as (h & _ & ->). by split.
    + rewrite Hfree. by split.
  - intros b Hin Hrange.
    destruct Hwf as [(k & Hk & Hcap) Hfree_al _].
    assert (Hpos : 0 < segmentCapacity L).
    { rewrite Hcap. by apply Z.pow_pos_nonneg. }
    assert (Ebase : getSegmentBaseAddress L p = b).
    { unfold getSegmentBaseAddress. apply round_down_to_base; [done| |done].
      by apply Hfree_al. }
    unfold getSegmentId, free. by rewrite Ebase, (Hu b Hin).
Qed.

(** X17.  What [append] returns can be freed.  With every segment
    buffer aligned to [segmentCapacity], a power of two, a segment
    whose [append] returns pointers into its own buffer, and a cleaner
    that keeps the shape of the log: for a pointer
    that [append] has just returned, [free] does not throw; it forwards
    the pointer to the segment that is now the head. *)
Theorem free_accepts_what_append_returned
    logId0 logCapacity0 capacity backup0 xmemalign (L0 L L' : state)
    fuel type buffer length p tr :
  segment_pointer_contract → cleaner_keeps_wf →
  (∃ k, 0 ≤ k ∧ capacity = 2 ^ k) →
  (∀ i, xmemalign i mod capacity = 0) →
  Log_new logId0 logCapacity0 capacity backup0 xmemalign = Return L0 →
  reachable L0 L →
  append fuel type buffer length L = Some (Return (Some p), L', tr) →
  ∃ h, head L' = Some h ∧ free L' p = Some (Return (SegmentFree h p)).
Proof.
  intros Hptr Hclean Hpow Hal Hnew Hreach Happ.
  assert (Hwf : log_wf L).
  { eapply wf_reachable; [done| |done]. by eapply wf_Log_new. }
  unfold append in Happ. destruct (maximumAppendableBytes L <? length); [done|].
  destruct (append_loop fuel type buffer length L) as [[[q L1] tr1]|] eqn:El;
    [|done].
  injection Happ as -> -> ->.
  destruct (append_loop_pointer _ _ _ _ _ _ _ _ Hptr Hclean Hwf El)
    as ([Hc Hf Hh] & h & s & Hhead & Hs & _ & Hin).
  destruct (Hh h Hhead) as (s0 & Hs0 & Hcap & Hbase & Hidx).
  assert (s0 = s) as -> by congruence.
  destruct Hc as (k & Hk & Hc).
  assert (Hpos : 0 < segmentCapacity L') by (rewrite Hc; by apply Z.pow_pos_nonneg).
  assert (Eb : getSegmentBaseAddress L' p = seg_baseAddress s).
  { unfold getSegmentBaseAddress. apply round_down_to_base; [done..|].
    by rewrite <- Hcap. }
  exists h. split; [done|]. unfold free. by rewrite Eb, Hidx, Hs.
Qed.

(** *** Going through the live segments *)

Lemma forEachSegment_loop_take {Cookie : Type} (cb : SegRef → Cookie → Cookie)
    (limit i : Z) (it : list (Z * SegRef)) (cookie : Cookie) :
  0 ≤ i ≤ limit → limit < 2 ^ 64 →
  forEachSegment_loop cb limit i it cookie =
  foldl (λ c entry, cb entry.2 c) cookie (take (Z.to_nat (limit - i)) it).
Proof.
  revert i cookie. induction it as [|entry it IH]; intros i cookie Hi Hl.
  { by rewrite take_nil. }
  cbn [forEachSegment_loop]. destruct (Z.ltb_spec i limit) as [Hlt|Hge].
  - assert (Ew : wrap64 (i + 1) = i + 1).
    { unfold wrap64. apply Z.mod_small. lia. }
    rewrite Ew, IH by lia.
    replace (Z.to_nat (limit - i)) with (S (Z.to_nat (limit - (i + 1)))) by lia.
    done.
  - by replace (Z.to_nat (limit - i)) with 0%nat by lia.
Qed.

Lemma entries_sorted (m : gmap Z SegRef) :
  map_entries m ≡ₚ map_to_list m ∧
  StronglySorted key_le (map_entries m) ∧
  NoDup (map_entries m).*1.
Proof.
  unfold map_entries.
  assert (Hperm : @merge_sort _ key_le key_le_dec (map_to_list m) ≡ₚ map_to_list m)
    by apply merge_sort_Permutation.
  split; [done|]. split.
  - apply StronglySorted_merge_sort.
    + intros a b c. unfold key_le. lia.
    + intros a b. unfold key_le. lia.
  - rewrite Hperm. apply NoDup_fst_map_to_list.
Qed.

Lemma StronglySorted_lookup_lt (l : list (Z * SegRef)) i j e1 e2 :
  StronglySorted key_le l → NoDup l.*1 →
  l !! i = Some e1 → l !! j = Some e2 → (i < j)%nat → e1.1 < e2.1.
Proof.
  intros Hs Hnd H1 H2 Hij.
  assert (Hle : e1.1 ≤ e2.1).
  { revert i j H1 H2 Hij. induction Hs as [|x l Hs IH Hall]; intros i j H1 H2 Hij.
    { by rewrite lookup_nil in H1. }
    destruct j as [|j]; [lia|]. simpl in H2.
    destruct i as [|i].
    - injection H1 as <-. rewrite Forall_forall in Hall.
      apply Hall. by eapply list_elem_of_lookup_2.
    - simpl in H1. apply NoDup_cons in Hnd as [_ Hnd].
      apply (IH Hnd i j); [done..|lia]. }
  assert (e1.1 ≠ e2.1); [|lia].
  intros E. assert (i = j); [|lia].
  apply (NoDup_lookup _ _ _ e1.1 Hnd).
  - by rewrite list_lookup_fmap, H1.
  - by rewrite list_lookup_fmap, H2, E.
Qed.

(** X18.  [forEachSegment] visits the oldest live segments.  It hands
    the first [limit] entries of the id map to the callback, or all of
    them when there are fewer, by strictly ascending segment id, each
    one a live segment and none twice; so a live segment is left out
    only when [limit] segments with smaller ids were visited. *)
Theorem forEachSegment_visits_the_oldest {Cookie : Type}
    (cb : SegRef → Cookie → Cookie) (limit : Z) (cookie : Cookie) (L : state) :
  0 ≤ limit < 2 ^ 64 →
  let visited := take (Z.to_nat limit) (map_entries (activeIdMap L)) in
  forEachSegment cb limit cookie L =
    foldl (λ c entry, cb entry.2 c) cookie visited ∧
  length visited = (Z.to_nat limit `min` size (activeIdMap L))%nat ∧
  (∀ id h, (id, h) ∈ visited → activeIdMap L !! id = Some h) ∧
  (∀ i j e1 e2, visited !! i = Some e1 → visited !! j = Some e2 →
                (i < j)%nat → e1.1 < e2.1) ∧
  (∀ id h id' h', (id, h) ∈ visited → activeIdMap L !! id' = Some h' →
                  id' < id → (id', h') ∈ visited) ∧
  ((size (activeIdMap L) ≤ Z.to_nat limit)%nat →
   ∀ id h, activeIdMap L !! id = Some h → (id, h) ∈ visited).
Proof.
  intros Hl visited.
  destruct (entries_sorted (activeIdMap L)) as (Hperm & Hsort & Hnd).
  assert (Hlen : length (map_entries (activeIdMap L)) =
                 size (activeIdMap L)).
  { by rewrite Hperm, length_map_to_list. }
  assert (Hmem : ∀ id h, (id, h) ∈ map_entries (activeIdMap L) ↔
                         activeIdMap L !! id = Some h).
  { intros id h. rewrite Hperm. apply elem_of_map_to_list. }
  split_and!.
  - unfold forEachSegment. rewrite forEachSegment_loop_take by lia.
    by rewrite Z.sub_0_r.
  - subst visited. rewrite length_take, Hlen. done.
  - intros id h Hin. apply Hmem. by apply subseteq_take in Hin.
  - intros i j e1 e2 H1 H2 Hij. subst visited.
    apply lookup_take_Some in H1 as [H1 _]. apply lookup_take_Some in H2 as [H2 _].
    by eapply StronglySorted_lookup_lt.
  - intros id h id' h' Hin Hlive Hlt. subst visited.
    apply list_elem_of_lookup in Hin as (i & Hi).
    apply lookup_take_Some in Hi as [Hi Hilim].
    apply Hmem in Hlive. apply list_elem_of_lookup in Hlive as (j & Hj).
    assert (j < i)%nat.
    { destruct (decide (j < i)%nat) as [?|Hge]; [done|].
      destruct (decide (j = i)) as [->|Hne].
      - rewrite Hi in Hj. injection Hj as -> _. lia.
      - pose proof (StronglySorted_lookup_lt _ i j _ _ Hsort Hnd Hi Hj
                      ltac:(lia)) as Hcmp.
        simpl in Hcmp. lia. }
    apply list_elem_of_lookup. exists j. apply lookup_take_Some. split; [done|lia].
  - intros Hall id h Hlive. subst visited.
    rewrite take_ge by lia. by apply Hmem.
Qed.

(** *** Destruction *)

Lemma released_closing (l : list Event) :
  released (Closing <$> l) = [].
Proof. unfold released. induction l as [|e l IH]; [done|]. simpl. exact IH. Qed.

Lemma closed_closing h (s : Segment) :
  closed (Closing <$> (SegmentClose h :: (Segment_close s).2)) = [h].
Proof. unfold Segment_close. simpl. by destruct (seg_backup s). Qed.

Lemma released_app (a b : list DestroyEvent) :
  released (a ++ b) = released a ++ released b.
Proof. apply omap_app. Qed.

Lemma closed_app (a b : list DestroyEvent) :
  closed (a ++ b) = closed a ++ closed b.
Proof. apply omap_app. Qed.

Lemma released_frees (bs : list Pointer) :
  released (StdFree <$> bs) = bs ∧ closed (StdFree <$> bs) = [].
Proof.
  unfold released, closed. induction bs as [|b bs [IH1 IH2]]; [done|].
  simpl. split; [by f_equal|done].
Qed.

Lemma callbacks_deleted (cs : list (Z * LogTypeCallback)) :
  released ((λ entry, DeleteCallback entry.1) <$> cs) = [] ∧
  closed ((λ entry, DeleteCallback entry.1) <$> cs) = [].
Proof. unfold released, closed. by induction cs as [|c cs [IH1 IH2]]. Qed.

Lemma filter_unique {A : Type} (P : A → Prop) `{∀ x, Decision (P x)}
    (l : list A) (x : A) :
  NoDup l → x ∈ l → P x → (∀ y, y ∈ l → P y → y = x) → filter P l = [x].
Proof.
  intros Hnd Hin HP Huniq. induction Hnd as [|a l Ha Hnd IH].
  { by apply elem_of_nil in Hin. }
  rewrite filter_cons. apply elem_of_cons in Hin as [<-|Hin].
  - rewrite decide_True by done. f_equal.
    destruct (filter P l) as [|y k] eqn:Ef; [done|].
    assert (Hy : y ∈ filter P l) by (rewrite Ef; left).
    apply list_elem_of_filter in Hy as [HPy Hy].
    assert (y = x) as -> by (apply Huniq; [by right|done]). done.
  - destruct (decide (P a)) as [HPa|HPa].
    + assert (a = x) as -> by (apply Huniq; [by left|done]). done.
    + apply IH; [done|]. intros y Hy. apply Huniq. by right.
Qed.

Lemma filter_no_match {A : Type} (P : A → Prop) `{∀ x, Decision (P x)}
    (l : list A) :
  (∀ y, y ∈ l → ¬ P y) → filter P l = [].
Proof.
  induction l as [|a l IH]; intros Hno; [done|].
  rewrite filter_cons_False by (apply Hno; by left).
  apply IH. intros y Hy. apply Hno. by right.
Qed.

Lemma delete_entries_shape (L : state) (entries : list (Z * SegRef))
    (evs : list (list DestroyEvent)) :
  Forall2 (λ entry ev, delete_entry L entry = Some ev) entries evs →
  released (concat evs) =
    (λ entry, from_option seg_baseAddress 0 (heap L !! entry.2)) <$> entries ∧
  closed (concat evs) = (filter (λ entry, Some entry.2 = head L) entries).*2.
Proof.
  induction 1 as [|entry ev entries evs He _ [IH1 IH2]]; [done|].
  unfold delete_entry in He.
  destruct (heap L !! entry.2) as [s|] eqn:Es; [|done]. injection He as <-.
  rewrite (fmap_cons _ entry), filter_cons, Es. cbn [concat from_option].
  rewrite !released_app, !closed_app, IH1, IH2.
  destruct (decide (Some entry.2 = head L)) as [Eh|Eh].
  - by destruct (seg_backup s).
  - done.
Qed.

(** X19.  The destructor releases the pool.  Assume that the allocator
    hands out distinct blocks, that the cleaner keeps the pool, and that
    no segment was given the id [2^64 - 1].  Then in every log that the
    constructor and calls of [append] and [registerType] lead to, the
    destructor follows no dangling pointer; it hands every block that
    the constructor has allocated to [std::free] once, and nothing
    else; it closes the head if there is one, and no other segment, and
    deletes the cleaner last. *)
Theorem Log_delete_releases_the_pool
    logId0 logCapacity0 capacity backup0 xmemalign (L0 L : state) :
  cleaner_keeps_pool →
  (∀ i j, (i < Z.to_nat (logCapacity0 / capacity))%nat →
          (j < Z.to_nat (logCapacity0 / capacity))%nat →
          xmemalign i = xmemalign j → i = j) →
  Log_new logId0 logCapacity0 capacity backup0 xmemalign = Return L0 →
  rtc step_in_range L0 L →
  ∃ evs,
    Log_delete L = Some evs ∧
    released evs ≡ₚ xmemalign <$> seq 0 (Z.to_nat (logCapacity0 / capacity)) ∧
    closed evs = from_option (λ h, [h]) [] (head L) ∧
    last evs = Some DeleteCleaner.
Proof.
  intros Hclean Hinj Hnew Hrun.
  destruct (pool_is_kept _ _ _ _ _ _ _ Hclean Hinj Hnew Hrun)
    as (Hnd & [Hi Hb Hn Hp Hf Hu Hh] & Hs).
  destruct (entries_sorted (activeIdMap L)) as (Hperm & _ & Hkeys).
  set (entries := map_entries (activeIdMap L)) in *.
  assert (Hmem : ∀ id h, (id, h) ∈ entries ↔ activeIdMap L !! id = Some h).
  { intros id h. rewrite Hperm. apply elem_of_map_to_list. }
  assert (Hsome : is_Some (mapM (delete_entry L) entries)).
  { apply mapM_is_Some, Forall_forall. intros [id h] Hin. simpl.
    apply Hmem in Hin. destruct (Hi _ _ Hin) as (s & Es & _).
    unfold delete_entry. simpl. by rewrite Es. }
  destruct Hsome as [evs Hevs]. unfold Log_delete. fold entries. rewrite Hevs.
  eexists. split; [done|].
  apply mapM_Some in Hevs. apply delete_entries_shape in Hevs as [Er Ec].
  assert (Etail : ∀ l : list DestroyEvent,
            released (concat evs ++ (StdFree <$> segmentFreeList L) ++ l ++
                      [DeleteCleaner]) =
            released (concat evs) ++ segmentFreeList L ++ released l ∧
            closed (concat evs ++ (StdFree <$> segmentFreeList L) ++ l ++
                    [DeleteCleaner]) =
            closed (concat evs) ++ closed l).
  { intros l. rewrite !released_app, !closed_app.
    destruct (released_frees (segmentFreeList L)) as [E1 E2].
    rewrite E1, E2. simpl. by rewrite !app_nil_r. }
  destruct (Etail ((λ entry, DeleteCallback entry.1) <$>
                     map_entries (callbackMap L))) as [Er' Ec'].
  destruct (callbacks_deleted (map_entries (callbackMap L))) as [Ecb1 Ecb2]. rewrite Er', Ec', Ecb1, Ecb2, !app_nil_r.
  split_and!.
  - assert (Hbase : ∀ id h, (id, h) ∈ entries →
              ∃ s, heap L !! h = Some s ∧ seg_id s = id ∧
                   activeBaseAddressMap L !! seg_baseAddress s = Some h).
    { intros id h Hin. apply Hi. by apply Hmem. }
    rewrite Er. apply NoDup_Permutation; [|done|].
    + apply NoDup_app. split_and!; [| |done].
      * apply NoDup_fmap_2_strong; [|by eapply NoDup_fmap_1].
        intros [id1 h1] [id2 h2] H1 H2. simpl.
        destruct (Hbase _ _ H1) as (s1 & Es1 & <- & Eb1).
        destruct (Hbase _ _ H2) as (s2 & Es2 & <- & Eb2).
        rewrite Es1, Es2. simpl. intros E. rewrite E in Eb1.
        assert (h1 = h2) as -> by congruence. congruence.
      * intros x Hx Hfree. apply list_elem_of_fmap in Hx as ([id h] & -> & Hin).
        simpl in *. destruct (Hbase _ _ Hin) as (s & Es & _ & Eb).
        rewrite Es in Hfree. simpl in Hfree. apply Hu in Hfree. congruence.
    + intros x. rewrite <- (elem_of_list_to_set (C := gset Z) x (_ <$> seq _ _)).
      rewrite <- Hs. unfold pool_buffers.
      rewrite elem_of_app, elem_of_union, elem_of_list_to_set, elem_of_dom.
      assert (Hx : x ∈ (λ entry : Z * SegRef,
                          from_option seg_baseAddress 0 (heap L !! entry.2))
                       <$> entries ↔
                   is_Some (activeBaseAddressMap L !! x)); [|tauto].
      split.
      * intros ([id h] & -> & Hin)%list_elem_of_fmap. simpl.
        destruct (Hbase _ _ Hin) as (s & Es & _ & Eb). rewrite Es. by eexists.
      * intros [h Hx]. destruct (Hb _ _ Hx) as (s & Es & <- & Eid).
        apply list_elem_of_fmap. exists (seg_id s, h). simpl. rewrite Es.
        split; [done|]. by apply Hmem.
  - rewrite Ec. destruct (head L) as [h|] eqn:Ehead; simpl.
    + destruct (Hh h eq_refl) as (id & Hid).
      rewrite (filter_unique _ entries (id, h)); [done| | |done|].
      * by eapply NoDup_fmap_1.
      * by apply Hmem.
      * intros [id' h'] Hin [= ->]. f_equal. apply Hmem in Hin.
        destruct (Hi _ _ Hin) as (s1 & Es1 & <- & _).
        destruct (Hi _ _ Hid) as (s2 & Es2 & <- & _). congruence.
    + by rewrite filter_no_match.
  - rewrite !app_assoc. apply last_snoc.
Qed.

End Pool.

(** *** The reference log *)

Lemma idle_keeps_pool : @cleaner_keeps_pool bump_framing idle_cleaner.
Proof. by intros n L Hp. Qed.

(** The relocating cleaner keeps the pool as well. *)
Lemma relocating_keeps_pool : @cleaner_keeps_pool bump_framing relocating_cleaner.
Proof.
  intros n L Hp. simpl. destruct (nextSegmentId L =? 1); [|done].
  destruct (@head_append bump_framing 0 [] 60000 L) as [[[[p|] L1] ev]|] eqn:Ea;
    [|done..].
  by destruct (@pool_head_append bump_framing _ _ _ _ _ _ _ Hp Ea) as (? & ? & _).
Qed.

Lemma two_blocks_distinct (i j : nat) :
  (i < Z.to_nat (131072 / 65536))%nat → (j < Z.to_nat (131072 / 65536))%nat →
  two_blocks i = two_blocks j → i = j.
Proof.
  change (Z.to_nat (131072 / 65536)) with 2%nat. intros Hi Hj.
  destruct i as [|[|i]], j as [|[|j]]; simpl; (done || lia).
Qed.

Lemma first_append_in_range :
  @step_in_range bump_framing idle_cleaner two_segment_log after_first_append.
Proof.
  apply (step_in_range_append 2 7 [1; 2; 3] 3 two_segment_log
           (Return (Some 1114120)) after_first_append first_append_trace).
  - vm_compute. reflexivity.
  - repeat constructor.
Qed.

Lemma rollover_in_range :
  rtc (@step_in_range bump_framing idle_cleaner) two_segment_log rolled_log.
Proof.
  apply (rtc_l _ _ nearly_filled_log).
  { apply (step_in_range_append 2 1 [] 65000 two_segment_log
             (Return (Some 1114120)) nearly_filled_log
             [SegmentNew 0 1 0 1114112 65536; CleanerClean 1;
              SegmentAppend 0 1 65000 (Some 1114120)]).
    - vm_compute. reflexivity.
    - repeat constructor. }
  apply rtc_once.
  apply (step_in_range_append 2 1 [] 1000 nearly_filled_log
           (Return (Some 1048584)) rolled_log
           [SegmentAppend 0 1 1000 None; SegmentClose 0;
            SegmentNew 1 1 1 1048576 65536; CleanerClean 1;
            SegmentAppend 1 1 1000 (Some 1048584)]).
  - vm_compute. reflexivity.
  - repeat constructor.
Qed.


(** A log of 128 KiB in segments of 64 KiB *)
Lemma Log_new_builds_the_pool_witness :
  ∃ L0 : @state bump_framing,
    @Log_new bump_framing 1 131072 65536 false two_blocks = Return L0 ∧
    segmentFreeList L0 = [1048576; 1114112] ∧ head L0 = None.
Proof.
  destruct (@Log_new_builds_the_pool bump_framing 1 131072 65536 false two_blocks
              ltac:(lia) ltac:(lia)) as [_ Hbuild].
  destruct (Hbuild ltac:(lia)) as (L0 & Hnew & Hfree & _ & _ & Hhead & _).
  exists L0. split; [exact Hnew|]. split; [exact Hfree|exact Hhead].
Defined.

(** After the rollover one buffer is in use by each of the two segments. *)
Lemma pool_is_conserved_witness :
  (length (segmentFreeList rolled_log) +
   size (activeBaseAddressMap rolled_log))%nat = 2%nat ∧
  size (activeIdMap rolled_log) = size (activeBaseAddressMap rolled_log).
Proof.
  destruct (@pool_is_conserved bump_framing idle_cleaner 1 131072 65536 false
              two_blocks two_segment_log rolled_log idle_keeps_pool
              two_blocks_distinct two_segment_log_new rollover_in_range)
    as (_ & _ & _ & _ & Hcount & Hsize).
  split; [exact Hcount|exact Hsize].
Defined.


Lemma rolled_log_pool : @pool_inv bump_framing rolled_log.
Proof.
  by destruct (@pool_is_kept bump_framing idle_cleaner 1 131072 65536 false
                 two_blocks two_segment_log rolled_log idle_keeps_pool
                 two_blocks_distinct two_segment_log_new rollover_in_range)
    as (_ & ? & _).
Qed.

(** The closed segment 0 of the rolled log is retired. *)
Lemma retiring_a_segment_keeps_the_pool_witness :
  isSegmentLive
    (addToFreeList (getBaseAddress rolled_segment)
       (eraseFromActiveMaps rolled_segment rolled_log)) 0 = false ∧
  pool_buffers
    (addToFreeList (getBaseAddress rolled_segment)
       (eraseFromActiveMaps rolled_segment rolled_log)) =
  pool_buffers rolled_log.
Proof.
  assert (Hid : activeIdMap rolled_log !! getId rolled_segment = Some 0%nat)
    by (vm_compute; reflexivity).
  assert (Hs : heap rolled_log !! 0%nat = Some rolled_segment)
    by (vm_compute; reflexivity).
  assert (Hh : head rolled_log ≠ Some 0%nat) by (vm_compute; discriminate).
  destruct (@retiring_a_segment_keeps_the_pool bump_framing rolled_log 0%nat
              rolled_segment rolled_log_pool Hid Hs Hh)
    as (_ & Hbuf & Hlive & _).
  split; [exact Hlive|exact Hbuf].
Defined.

(** A pointer into the buffer that is still free is rejected. *)
Lemma pointers_resolve_to_live_segments_witness :
  @getSegmentId bump_framing after_first_append 1048580 =
    Some (Throw (LogException_at "free on invalid pointer")) ∧
  @free bump_framing after_first_append 1048580 =
    Some (Throw (LogException_at "free on invalid pointer")).
Proof.
  assert (Hpow : ∃ k, 0 ≤ k ∧ 65536 = 2 ^ k)
    by (exists 16; split; [lia|reflexivity]).
  destruct (@pointers_resolve_to_live_segments bump_framing idle_cleaner
              1 131072 65536 false two_blocks two_segment_log after_first_append
              idle_keeps_wf idle_keeps_pool Hpow
              two_blocks_aligned two_blocks_distinct two_segment_log_new
              (rtc_once _ _ first_append_in_range) 1048580)
    as (_ & _ & _ & Hfree).
  apply (Hfree 1048576).
  - apply list_elem_of_singleton. reflexivity.
  - simpl. lia.
Defined.

(** The pointer of the first append is freed in segment 0. *)
Lemma free_accepts_what_append_returned_witness :
  ∃ h, head after_first_append = Some h ∧
       @free bump_framing after_first_append 1114120 =
         Some (Return (SegmentFree h 1114120)).
Proof.
  assert (Ha : @append bump_framing idle_cleaner 2 7 [1; 2; 3] 3 two_segment_log =
            Some (Return (Some 1114120), after_first_append, first_append_trace))
    by (vm_compute; reflexivity).
  refine (@free_accepts_what_append_returned bump_framing idle_cleaner
            1 131072 65536 false two_blocks two_segment_log two_segment_log
            after_first_append 2 7 [1; 2; 3] 3 1114120 first_append_trace
            bump_pointer_contract idle_keeps_wf _ two_blocks_aligned
            two_segment_log_new (rtc_refl _ _) Ha).
  exists 16. split; [lia|reflexivity].
Defined.

(** With a limit of one, only segment 0 of the rolled log is visited. *)
Lemma forEachSegment_visits_the_oldest_witness :
  @forEachSegment bump_framing (list SegRef) (λ h visited, visited ++ [h])
    1 [] rolled_log = [0%nat].
Proof.
  rewrite (proj1 (@forEachSegment_visits_the_oldest bump_framing (list SegRef)
                    (λ h visited, visited ++ [h]) 1 [] rolled_log
                    ltac:(lia))).
  vm_compute. reflexivity.
Defined.

(** The rolled log is destroyed: both blocks are released, segment 1,
    the head, is closed. *)
Lemma Log_delete_releases_the_pool_witness :
  ∃ evs, @Log_delete bump_framing rolled_log = Some evs ∧
         released evs ≡ₚ [1048576; 1114112] ∧ closed evs = [1%nat].
Proof.
  destruct (@Log_delete_releases_the_pool bump_framing idle_cleaner
              1 131072 65536 false two_blocks two_segment_log rolled_log
              idle_keeps_pool two_blocks_distinct two_segment_log_new
              rollover_in_range)
    as (evs & Hdel & Hrel & Hclosed & _).
  assert (Eh : head rolled_log = Some 1%nat) by (vm_compute; reflexivity).
  rewrite Eh in Hclosed.
  exists evs. split; [exact Hdel|]. split; [exact Hrel|exact Hclosed].
Defined.

End LogPool.
